(** * LITIV dataset utilities: packet precacher, packet writer, loader facade

    A shallow embedding of [modules/datasets/src/utils.cpp]
    ([lv::DataPrecacher], [lv::DataWriter], [lv::IDataLoader], and around
    them the packet names of [lv::IDataHandler], the video and image
    producers, [lv::IDataArchiver] and the asynchronous data consumer)
    together with the properties of the streaming packet pipeline that are
    checked against it.

    Conventions.
    - [size_t] values are integers in [0, 2^64); the sums, differences and
      increments the source computes on them are reduced with [wrap].
    - A packet ([cv::Mat]) is represented by its payload bytes; its byte size
      [total()*elemSize()] is the length of that payload.  The shape header
      is carried along unchanged by both engines and is only modelled where
      the loader facade inspects it.
    - Strings are lists of characters.  OpenCV, the file system and the
      video reader are parameters of the definitions that use them; what a
      theorem needs of them is among its hypotheses.
    - User callbacks are pure functions; the order in which the engines
      invoke them is recorded in a log kept next to the state.
    - Threads.  Each engine guards its state with one mutex, and a thread
      gives the mutex up only inside a wait on a condition variable (the
      writer's workers also around the call of the sink).  What a thread
      does between two waits is therefore one step on the shared state, and
      an execution is a sequence of such steps; the order of the steps is
      an argument of the model (a schedule), not something it chooses. *)

From Stdlib Require Import ZArith List Lia Bool Ascii.
From stdpp Require Import base list.
Import ListNotations.

#[local] Open Scope Z_scope.

(** ** size_t arithmetic *)

Definition SIZE_MOD : Z := 2 ^ 64.

(** [size_t(-1)], also [SIZE_MAX]. *)
Definition SIZE_MAX : Z := SIZE_MOD - 1.

Definition wrap (z : Z) : Z := z mod SIZE_MOD.

Definition is_size_t (z : Z) : Prop := 0 <= z < SIZE_MOD.

(** Modelled from the spec: the macro [CACHE_MAX_SIZE_GB] comes from the
    build configuration and is not part of the sources; the documented
    ceiling on 64-bit targets is 6 GiB. *)
Definition CACHE_MAX_SIZE_GB : Z := 6.

Definition CACHE_MAX_SIZE : Z := wrap (((CACHE_MAX_SIZE_GB * 1024) * 1024) * 1024).

(** ** Packets *)

Definition Packet : Type := list Byte.byte.

(** [oPacket.total()*oPacket.elemSize()] *)
Definition packet_size (p : Packet) : Z := Z.of_nat (length p).

(** [cv::emptyMat()] / a default-constructed [cv::Mat] *)
Definition emptyMat : Packet := [].

(** ** std::map<size_t,cv::Mat>

    The ordered map is represented by its in-order traversal: an association
    list kept strictly ascending by key. *)

Module OrderedMap.

Definition t : Type := list (Z * Packet).

(** [m[k] = v]: insert, or overwrite the mapped value of an existing key *)
Fixpoint assign (k : Z) (v : Packet) (m : t) : t :=
  match m with
  | [] => [(k, v)]
  | (k', v') :: m' =>
      if k <? k' then (k, v) :: m
      else if k =? k' then (k, v) :: m'
      else (k', v') :: assign k v m'
  end.

(** [m.find(k)], as the mapped value *)
Fixpoint find (k : Z) (m : t) : option Packet :=
  match m with
  | [] => None
  | (k', v') :: m' => if k =? k' then Some v' else find k m'
  end.

(** [std::distance(m.begin(), m.find(k))]; [find] yields [end()] for a
    missing key, so the distance is then the size of the map *)
Fixpoint distance_to (k : Z) (m : t) : Z :=
  match m with
  | [] => 0
  | (k', _) :: m' => if k =? k' then 0 else 1 + distance_to k m'
  end.

Definition keys (m : t) : list Z := map fst m.

(** number of keys strictly below [k] *)
Definition rank (k : Z) (m : t) : Z :=
  Z.of_nat (length (List.filter (fun k' => k' <? k) (keys m))).

(** sum of the payload lengths of all entries *)
Fixpoint total_bytes (m : t) : Z :=
  match m with
  | [] => 0
  | (_, v) :: m' => packet_size v + total_bytes m'
  end.

Fixpoint ascending_from (lo : Z) (m : t) : Prop :=
  match m with
  | [] => True
  | (k, _) :: m' => lo < k /\ ascending_from k m'
  end.

(** the representation invariant of the map *)
Definition ordered (m : t) : Prop :=
  match m with
  | [] => True
  | (k, _) :: m' => 0 <= k /\ ascending_from k m'
  end.

End OrderedMap.
(** ** lv::DataWriter *)

Module DataWriter.

Section Writer.

(** the data archiver callback handed to the constructor ("sink") *)
Variable m_lCallback : Packet -> Z -> Z.

(** Members of [lv::DataWriter].  [m_vhWorkers] keeps one flag per
    [std::thread] object in the vector: [true] while the thread is joinable.
    [archived] is the log of callback invocations, oldest first; the mutex
    and the two condition variables have no data of their own. *)
Record state : Type := mk {
  m_bIsActive : bool;
  m_bAllowPacketDrop : bool;
  m_nQueueMaxSize : Z;
  m_nQueueSize : Z;
  m_nQueueCount : Z;
  m_mQueue : OrderedMap.t;
  m_vhWorkers : list bool;
  archived : list (Packet * Z)
}.

(** [DataWriter::DataWriter]; the constructor leaves [m_nQueueMaxSize]
    uninitialised, so its value is an argument here *)
Definition DataWriter (nUninitQueueMaxSize : Z) : state :=
  {| m_bIsActive := false; m_bAllowPacketDrop := false;
     m_nQueueMaxSize := nUninitQueueMaxSize;
     m_nQueueSize := 0; m_nQueueCount := 0;
     m_mQueue := []; m_vhWorkers := []; archived := [] |}.

Definition call_sink (oPacket : Packet) (nIdx : Z) (w : state) : state :=
  {| m_bIsActive := m_bIsActive w; m_bAllowPacketDrop := m_bAllowPacketDrop w;
     m_nQueueMaxSize := m_nQueueMaxSize w;
     m_nQueueSize := m_nQueueSize w; m_nQueueCount := m_nQueueCount w;
     m_mQueue := m_mQueue w; m_vhWorkers := m_vhWorkers w;
     archived := archived w ++ [(oPacket, nIdx)] |}.

(** What a call of [queue] does: it returns a position, or it is suspended
    in [m_oClearCondVar.wait]. *)
Inductive queue_result : Type :=
| Returned (nPacketPosition : Z) (w : state)
| Blocked (w : state).

(** The locked block of [queue] from its second test on; this is also where
    a suspended call goes on once the predicate of its wait holds. *)
Definition queue_insert (oPacket : Packet) (nIdx : Z) (w : state) : Z * state :=
  let nPacketSize := packet_size oPacket in
  if wrap (m_nQueueSize w + nPacketSize) <=? m_nQueueMaxSize w then
    let mQueue := OrderedMap.assign nIdx oPacket (m_mQueue w) in
    (OrderedMap.distance_to nIdx mQueue,
     {| m_bIsActive := m_bIsActive w; m_bAllowPacketDrop := m_bAllowPacketDrop w;
        m_nQueueMaxSize := m_nQueueMaxSize w;
        m_nQueueSize := wrap (m_nQueueSize w + nPacketSize);
        m_nQueueCount := wrap (m_nQueueCount w + 1);
        m_mQueue := mQueue; m_vhWorkers := m_vhWorkers w;
        archived := archived w |})
  else (SIZE_MAX, w).

(** [DataWriter::queue] *)
Definition queue (oPacket : Packet) (nIdx : Z) (w : state) : queue_result :=
  if negb (m_bIsActive w) then
    Returned (m_lCallback oPacket nIdx) (call_sink oPacket nIdx w)
  else
    let nPacketSize := packet_size oPacket in
    if negb (m_bAllowPacketDrop w)
       && (m_nQueueMaxSize w <? wrap (m_nQueueSize w + nPacketSize)) then
      Blocked w
    else
      let '(nPacketPosition, w') := queue_insert oPacket nIdx w in
      Returned nPacketPosition w'.

(** One turn of the loop of [DataWriter::entry] on one worker thread, from
    the loop test to the return of the callback.  The callback runs with the
    mutex released: with several workers the calls of two turns may overlap,
    and [archived] then lists the packets in the order they were taken. *)
Inductive entry_result : Type :=
| Exit                      (* loop test failed: the thread returns *)
| Wait                      (* suspended in [m_oQueueCondVar.wait] *)
| AssertionFailed           (* an [lvAssert_] of the loop body failed *)
| Sunk (w : state).         (* one packet removed and handed to the callback *)

Definition entry_step (w : state) : entry_result :=
  if m_bIsActive w || (0 <? m_nQueueCount w) then
    if m_nQueueCount w =? 0 then Wait
    else
      match m_mQueue w with
      | [] => AssertionFailed
      | (nPacketIdx, oPacketData) :: rest =>
          let nPacketSize := packet_size oPacketData in
          if nPacketSize <=? m_nQueueSize w then
            Sunk {| m_bIsActive := m_bIsActive w;
                    m_bAllowPacketDrop := m_bAllowPacketDrop w;
                    m_nQueueMaxSize := m_nQueueMaxSize w;
                    m_nQueueSize := wrap (m_nQueueSize w - nPacketSize);
                    m_nQueueCount := wrap (m_nQueueCount w - 1);
                    m_mQueue := rest; m_vhWorkers := m_vhWorkers w;
                    archived := archived w ++ [(oPacketData, nPacketIdx)] |}
          else AssertionFailed
      end
  else Exit.

(** The workers' loops run to their exit: what [join] waits for once
    [m_bIsActive] is cleared.  [None] when a worker dies on an assertion. *)
Fixpoint drain (fuel : nat) (w : state) : option state :=
  match entry_step w with
  | Exit | Wait => Some w
  | AssertionFailed => None
  | Sunk w' =>
      match fuel with
      | O => None
      | S fuel' => drain fuel' w'
      end
  end.

(** [DataWriter::stopAsyncWriting]; [None] when the call does not return
    normally ([join] on a thread that is not joinable throws, a failed
    assertion aborts). *)
Definition stopAsyncWriting (w : state) : option state :=
  if m_bIsActive w then
    let w1 := {| m_bIsActive := false; m_bAllowPacketDrop := m_bAllowPacketDrop w;
                 m_nQueueMaxSize := m_nQueueMaxSize w;
                 m_nQueueSize := m_nQueueSize w; m_nQueueCount := m_nQueueCount w;
                 m_mQueue := m_mQueue w; m_vhWorkers := m_vhWorkers w;
                 archived := archived w |} in
    match m_vhWorkers w1 with
    | [] => Some w1
    | _ :: _ =>
        if forallb (fun joinable : bool => joinable) (m_vhWorkers w1) then
          match drain (Z.to_nat (m_nQueueCount w1)) w1 with
          | Some w2 =>
              Some {| m_bIsActive := m_bIsActive w2;
                      m_bAllowPacketDrop := m_bAllowPacketDrop w2;
                      m_nQueueMaxSize := m_nQueueMaxSize w2;
                      m_nQueueSize := m_nQueueSize w2;
                      m_nQueueCount := m_nQueueCount w2;
                      m_mQueue := m_mQueue w2;
                      m_vhWorkers := map (fun _ => false) (m_vhWorkers w2);
                      archived := archived w2 |}
          | None => None
          end
        else None
    end
  else Some w.

(** [DataWriter::startAsyncWriting], with the value it returns *)
Definition startAsyncWriting (nSuggestedQueueSize : Z) (bDropPacketsIfFull : bool)
    (nWorkers : nat) (w : state) : option (bool * state) :=
  match (if m_bIsActive w then stopAsyncWriting w else Some w) with
  | None => None
  | Some w1 =>
      let w2 :=
        if 0 <? nSuggestedQueueSize then
          {| m_bIsActive := true; m_bAllowPacketDrop := bDropPacketsIfFull;
             m_nQueueMaxSize :=
               (if CACHE_MAX_SIZE <? nSuggestedQueueSize then CACHE_MAX_SIZE
                else nSuggestedQueueSize);
             m_nQueueSize := 0; m_nQueueCount := 0; m_mQueue := [];
             m_vhWorkers := m_vhWorkers w1 ++ repeat true nWorkers;
             archived := archived w1 |}
        else w1 in
      Some (m_bIsActive w2, w2)
  end.

(** well-formed states: the map is ordered, the counters are [size_t]
    values, and an active writer respects its ceiling *)
Definition wf (w : state) : Prop :=
  OrderedMap.ordered (m_mQueue w) /\
  is_size_t (m_nQueueSize w) /\ is_size_t (m_nQueueCount w) /\
  (m_bIsActive w = true ->
   m_nQueueSize w <= m_nQueueMaxSize w /\ m_nQueueMaxSize w <= CACHE_MAX_SIZE).

(** W1: the byte counter is the sum of the pending payload lengths *)
Definition byte_count_ok (w : state) : Prop :=
  m_nQueueSize w = OrderedMap.total_bytes (m_mQueue w).

(** The states of a writer: constructed, then started, fed and drained any
    number of times. *)
Inductive reachable : state -> Prop :=
| reach_new nUninitQueueMaxSize : reachable (DataWriter nUninitQueueMaxSize)
| reach_start w nSuggestedQueueSize bDropPacketsIfFull nWorkers bStarted w' :
    reachable w ->
    startAsyncWriting nSuggestedQueueSize bDropPacketsIfFull nWorkers w
    = Some (bStarted, w') ->
    reachable w'
| reach_queue w oPacket nIdx nPacketPosition w' :
    reachable w -> is_size_t nIdx ->
    queue oPacket nIdx w = Returned nPacketPosition w' ->
    reachable w'
| reach_turn w w' :
    reachable w -> entry_step w = Sunk w' -> reachable w'.

End Writer.

End DataWriter.

(** ** Writer: runs in which no index is queued while it is pending *)

Module WriterRuns.
Import DataWriter.

(** the packet counter agrees with the map, as a [size_t] *)
Definition packet_count_ok (w : state) : Prop :=
  m_nQueueCount w = wrap (Z.of_nat (length (m_mQueue w))).

(** The states of a writer whose caller never queues an index that is
    already pending (and whose packets are below 2^63 bytes). *)
Inductive reachable_fresh (sink : Packet -> Z -> Z) : state -> Prop :=
| fresh_new nUninitQueueMaxSize :
    reachable_fresh sink (DataWriter nUninitQueueMaxSize)
| fresh_start w nSuggestedQueueSize bDropPacketsIfFull nWorkers bStarted w' :
    reachable_fresh sink w ->
    startAsyncWriting nSuggestedQueueSize bDropPacketsIfFull nWorkers w
    = Some (bStarted, w') ->
    reachable_fresh sink w'
| fresh_queue w oPacket nIdx nPacketPosition w' :
    reachable_fresh sink w -> is_size_t nIdx ->
    packet_size oPacket < 2 ^ 63 ->
    OrderedMap.find nIdx (m_mQueue w) = None ->
    queue sink oPacket nIdx w = Returned nPacketPosition w' ->
    reachable_fresh sink w'
| fresh_turn w w' :
    reachable_fresh sink w -> entry_step w = Sunk w' -> reachable_fresh sink w'.

(** the sink calls that draining a map makes: its entries in map order *)
Definition sunk_in_order (m : OrderedMap.t) : list (Packet * Z) :=
  map (fun kv => (snd kv, fst kv)) m.

End WriterRuns.

(** ** Writer: runs with the packets that were taken in *)

Module WriterKept.
Import DataWriter.

(** whether [queue] takes the packet in: it sinks it at once when the
    writer is not active, and otherwise queues it if it fits *)
Definition taken_in (oPacket : Packet) (w : state) : bool :=
  negb (m_bIsActive w)
  || (wrap (m_nQueueSize w + packet_size oPacket) <=? m_nQueueMaxSize w).

(** The states of a writer that is always started with at least one
    worker and whose caller never queues an index that is pending,
    together with the packets [queue] took in so far, oldest first. *)
Inductive run_kept (sink : Packet -> Z -> Z)
  : list (Packet * Z) -> state -> Prop :=
| kept_new nUninitQueueMaxSize :
    run_kept sink [] (DataWriter nUninitQueueMaxSize)
| kept_start kept w nSuggestedQueueSize bDropPacketsIfFull nWorkers bStarted w' :
    run_kept sink kept w -> (0 < nWorkers)%nat ->
    startAsyncWriting nSuggestedQueueSize bDropPacketsIfFull nWorkers w
    = Some (bStarted, w') ->
    run_kept sink kept w'
| kept_queue kept w oPacket nIdx nPacketPosition w' :
    run_kept sink kept w -> is_size_t nIdx ->
    packet_size oPacket < 2 ^ 63 ->
    OrderedMap.find nIdx (m_mQueue w) = None ->
    queue sink oPacket nIdx w = Returned nPacketPosition w' ->
    run_kept sink
      (if taken_in oPacket w then kept ++ [(oPacket, nIdx)] else kept) w'
| kept_turn kept w w' :
    run_kept sink kept w -> entry_step w = Sunk w' -> run_kept sink kept w'.

End WriterKept.

(** ** lv::DataPrecacher *)

Module DataPrecacher.

(** A [cv::Mat] header as the precacher handles it: it either shares data
    produced by the loader callback, or it was built over
    [vcBuffer.data()+nOffset] and aliases the worker's scratch buffer. *)
Inductive Mat : Type :=
| MatData (data : Packet)
| MatView (nOffset nSize : Z).

(** An element of [qoCache]: a header over the scratch buffer.  [slot_idx]
    is a ghost label, the argument the callback was called with to produce
    the packet; the source neither stores nor reads it. *)
Record Slot : Type := mkSlot {
  slot_idx : Z;
  slot_off : Z;
  slot_len : Z
}.

(** Locals of [DataPrecacher::entry], alive as long as the worker thread *)
Record Worker : Type := mkWorker {
  nBufferSize : Z;
  vcBuffer : list Byte.byte;
  qoCache : list Slot;
  nNextExpectedReqIdx : Z;
  nNextPrecacheIdx : Z;
  nFirstBufferIdx : Z;
  nNextBufferIdx : Z
}.

(** Members of [lv::DataPrecacher].  [m_hWorker] is [Some] while the worker
    thread runs; [loaded] is the log of the indices the callback was called
    with, oldest first. *)
Record state : Type := mk {
  m_bIsActive : bool;
  m_nReqIdx : Z;
  m_nLastReqIdx : Z;
  m_oReqPacket : Mat;
  m_oLastReqPacket : Mat;
  m_hWorker : option Worker;
  loaded : list Z
}.

(** How a timed wait of the worker on [m_oReqCondVar] ends *)
Inductive wake : Type :=
| Notified      (* [wait_for] did not return [cv_status::timeout] *)
| TimedOut.     (* [wait_for] returned [cv_status::timeout] *)

Definition is_notified (e : wake) : bool :=
  match e with Notified => true | TimedOut => false end.

(** [oNextPacket.copyTo(oNextPacket_cache)] for a header built at
    [vcBuffer.data()+nOffset] *)
Definition copyTo (oNextPacket : Packet) (nOffset : Z) (buffer : list Byte.byte)
  : list Byte.byte :=
  list_inserts (Z.to_nat nOffset) oNextPacket buffer.

(** the bytes a header over the scratch buffer designates *)
Definition view_bytes (buffer : list Byte.byte) (nOffset nSize : Z) : list Byte.byte :=
  take (Z.to_nat nSize) (drop (Z.to_nat nOffset) buffer).

(** the bytes a caller reads through a header; a view has no bytes to read
    once the worker and its buffer are gone *)
Definition mat_bytes (p : state) (m : Mat) : list Byte.byte :=
  match m with
  | MatData data => data
  | MatView nOffset nSize =>
      match m_hWorker p with
      | Some w => view_bytes (vcBuffer w) nOffset nSize
      | None => []
      end
  end.

Section Precacher.

(** the data loader callback handed to the constructor *)
Variable m_lCallback : Z -> Packet.

(** [DataPrecacher::DataPrecacher] *)
Definition DataPrecacher : state :=
  {| m_bIsActive := false; m_nReqIdx := SIZE_MAX; m_nLastReqIdx := SIZE_MAX;
     m_oReqPacket := MatData emptyMat; m_oLastReqPacket := MatData emptyMat;
     m_hWorker := None; loaded := [] |}.

(** copy the packet to [nOffset], push its header, move the write position
    to [nNext] and the first used position to [nFirst], count the packet *)
Definition cache_push (oNextPacket : Packet) (nOffset nFirst nNext : Z) (w : Worker)
  : Worker :=
  {| nBufferSize := nBufferSize w;
     vcBuffer := copyTo oNextPacket nOffset (vcBuffer w);
     qoCache := qoCache w ++
       [ {| slot_idx := nNextPrecacheIdx w; slot_off := nOffset;
            slot_len := packet_size oNextPacket |} ];
     nNextExpectedReqIdx := nNextExpectedReqIdx w;
     nNextPrecacheIdx := wrap (nNextPrecacheIdx w + 1);
     nFirstBufferIdx := nFirst;
     nNextBufferIdx := nNext |}.

(** the locals of [entry] as initialised on entry *)
Definition entry_init (nBufferSize : Z) : Worker :=
  {| nBufferSize := nBufferSize;
     vcBuffer := repeat Byte.x00 (Z.to_nat nBufferSize);
     qoCache := [];
     nNextExpectedReqIdx := 0; nNextPrecacheIdx := 0;
     nFirstBufferIdx := 0; nNextBufferIdx := 0 |}.

(** The prefill loop of [entry].  [ticks] is the number of times the loop
    test finds the clock below [PRECACHE_PREFILL_TIMEOUT_MS]. *)
Fixpoint prefill (ticks : nat) (w : Worker) (log : list Z) : Worker * list Z :=
  match ticks with
  | O => (w, log)
  | S ticks' =>
      let oNextPacket := m_lCallback (nNextPrecacheIdx w) in
      let log' := log ++ [nNextPrecacheIdx w] in
      let nNextPacketSize := packet_size oNextPacket in
      if (0 <? nNextPacketSize)
         && (wrap (nNextBufferIdx w + nNextPacketSize) <? nBufferSize w) then
        prefill ticks'
          (cache_push oNextPacket (nNextBufferIdx w) (nFirstBufferIdx w)
             (wrap (nNextBufferIdx w + nNextPacketSize)) w)
          log'
      else (w, log')
  end.

(** The loop that pops the cache up to the requested packet.  [front()] on
    an empty queue is undefined in the source; the loop stops there in this
    model, and [pop_until_serves] shows the case is not reached. *)
Fixpoint pop_until (nReqIdx : Z) (q : list Slot)
    (nNextExpected nFirst : Z) (req : Mat) {struct q}
  : list Slot * Z * Z * Mat :=
  if 0 <? wrap (nReqIdx - nNextExpected + 1) then
    match q with
    | [] => (q, nNextExpected, nFirst, req)
    | s :: q' =>
        pop_until nReqIdx q' (wrap (nNextExpected + 1)) (slot_off s)
          (MatView (slot_off s) (slot_len s))
    end
  else (q, nNextExpected, nFirst, req).

(** the two places where the worker answers with a direct call of the
    callback and forgets the ring *)
Definition answer_manually (nReqIdx : Z) (w : Worker) (log : list Z)
  : Worker * Mat * list Z :=
  ({| nBufferSize := nBufferSize w; vcBuffer := vcBuffer w; qoCache := [];
      nNextExpectedReqIdx := wrap (nReqIdx + 1);
      nNextPrecacheIdx := wrap (nReqIdx + 1);
      nFirstBufferIdx := SIZE_MAX; nNextBufferIdx := SIZE_MAX |},
   MatData (m_lCallback nReqIdx), log ++ [nReqIdx]).

(** The body of the worker loop when the wait ended without a timeout. *)
Definition serve (nReqIdx : Z) (w : Worker) (req : Mat) (log : list Z)
  : Worker * Mat * list Z :=
  if negb (nReqIdx =? wrap (nNextExpectedReqIdx w - 1)) then
    match qoCache w with
    | _ :: _ =>
        if (nReqIdx <? nNextPrecacheIdx w) && (nNextExpectedReqIdx w <=? nReqIdx) then
          let '(q, nNextExpected, nFirst, req') :=
            pop_until nReqIdx (qoCache w) (nNextExpectedReqIdx w)
              (nFirstBufferIdx w) req in
          ({| nBufferSize := nBufferSize w; vcBuffer := vcBuffer w; qoCache := q;
              nNextExpectedReqIdx := nNextExpected;
              nNextPrecacheIdx := nNextPrecacheIdx w;
              nFirstBufferIdx := nFirst; nNextBufferIdx := nNextBufferIdx w |},
           req', log)
        else answer_manually nReqIdx w log
    | [] => answer_manually nReqIdx w log
    end
  else (w, req, log).

(** The fill loop of the timeout branch.  The source declares and tests
    [nFillCount] but has no statement that changes it, so it is passed along
    unchanged.  [fuel] bounds the unfolding; [fill_loop_fuel] shows that the
    bound used by [timeout_pass] is never what stops the loop. *)
Fixpoint fill_loop (fuel : nat) (nUsedBufferSize nFillCount : Z)
    (w : Worker) (log : list Z) : Worker * list Z :=
  match fuel with
  | O => (w, log)
  | S fuel' =>
      if (nUsedBufferSize <? nBufferSize w) && (nFillCount <? 10) then
        let oNextPacket := m_lCallback (nNextPrecacheIdx w) in
        let log' := log ++ [nNextPrecacheIdx w] in
        let nNextPacketSize := packet_size oNextPacket in
        let nUsed' := wrap (nUsedBufferSize + nNextPacketSize) in
        if nNextPacketSize =? 0 then (w, log')
        else if nFirstBufferIdx w <=? nNextBufferIdx w then
          if (nNextBufferIdx w =? SIZE_MAX)
             || (nBufferSize w <=? wrap (nNextBufferIdx w + nNextPacketSize)) then
            if (negb (nFirstBufferIdx w =? SIZE_MAX)
                && (nFirstBufferIdx w <=? nNextPacketSize))
               || (nBufferSize w <=? nNextPacketSize) then (w, log')
            else
              fill_loop fuel' nUsed' nFillCount
                (cache_push oNextPacket 0
                   (if nFirstBufferIdx w =? SIZE_MAX then 0 else nFirstBufferIdx w)
                   nNextPacketSize w)
                log'
          else
            fill_loop fuel' nUsed' nFillCount
              (cache_push oNextPacket (nNextBufferIdx w) (nFirstBufferIdx w)
                 (wrap (nNextBufferIdx w + nNextPacketSize)) w)
              log'
        else if wrap (nNextBufferIdx w + nNextPacketSize) <? nFirstBufferIdx w then
          fill_loop fuel' nUsed' nFillCount
            (cache_push oNextPacket (nNextBufferIdx w) (nFirstBufferIdx w)
               (wrap (nNextBufferIdx w + nNextPacketSize)) w)
            log'
        else (w, log')
      else (w, log)
  end.

(** [nUsedBufferSize] as computed at the top of the timeout branch *)
Definition used_buffer_size (w : Worker) : Z :=
  if nFirstBufferIdx w =? SIZE_MAX then 0
  else if nFirstBufferIdx w <? nNextBufferIdx w then
    wrap (nNextBufferIdx w - nFirstBufferIdx w)
  else wrap (nBufferSize w - nFirstBufferIdx w + nNextBufferIdx w).

(** The body of the worker loop when the wait timed out. *)
Definition timeout_pass (w : Worker) (log : list Z) : Worker * list Z :=
  let nUsedBufferSize := used_buffer_size w in
  if nUsedBufferSize <? nBufferSize w / 4 then
    fill_loop (S (Z.to_nat (nBufferSize w))) nUsedBufferSize 0 w log
  else (w, log).

(** One turn of [while(m_bIsActive)] in [entry]. *)
Definition worker_wakeup (e : wake) (p : state) : state :=
  match m_hWorker p with
  | Some w =>
      if m_bIsActive p then
        match e with
        | Notified =>
            let '(w', req, log) := serve (m_nReqIdx p) w (m_oReqPacket p) (loaded p) in
            {| m_bIsActive := m_bIsActive p; m_nReqIdx := m_nReqIdx p;
               m_nLastReqIdx := m_nLastReqIdx p; m_oReqPacket := req;
               m_oLastReqPacket := m_oLastReqPacket p;
               m_hWorker := Some w'; loaded := log |}
        | TimedOut =>
            let '(w', log) := timeout_pass w (loaded p) in
            {| m_bIsActive := m_bIsActive p; m_nReqIdx := m_nReqIdx p;
               m_nLastReqIdx := m_nLastReqIdx p; m_oReqPacket := m_oReqPacket p;
               m_oLastReqPacket := m_oLastReqPacket p;
               m_hWorker := Some w'; loaded := log |}
        end
      else p
  | None => p
  end.

(** the worker's turns while the calling thread waits or is elsewhere *)
Definition worker_run (sched : list wake) (p : state) : state :=
  fold_left (fun q e => worker_wakeup e q) sched p.

(** [DataPrecacher::getPacket].  [sched] lists the turns the worker takes
    between the publication of the request and the caller's wake-up without
    timeout; the caller is only woken by the [notify_one] that follows a
    served request, so the call returns ([Some]) only if one of the turns is
    [Notified].  The returned header is [m_oLastReqPacket]. *)
Definition getPacket (nIdx : Z) (sched : list wake) (p : state)
  : option (Mat * state) :=
  if nIdx =? m_nLastReqIdx p then Some (m_oLastReqPacket p, p)
  else if negb (m_bIsActive p) then
    let oPacket := MatData (m_lCallback nIdx) in
    Some (oPacket,
          {| m_bIsActive := m_bIsActive p; m_nReqIdx := m_nReqIdx p;
             m_nLastReqIdx := nIdx; m_oReqPacket := m_oReqPacket p;
             m_oLastReqPacket := oPacket;
             m_hWorker := m_hWorker p; loaded := loaded p ++ [nIdx] |})
  else
    let p1 := {| m_bIsActive := m_bIsActive p; m_nReqIdx := nIdx;
                 m_nLastReqIdx := m_nLastReqIdx p; m_oReqPacket := m_oReqPacket p;
                 m_oLastReqPacket := m_oLastReqPacket p;
                 m_hWorker := m_hWorker p; loaded := loaded p |} in
    if existsb is_notified sched then
      let p2 := worker_run sched p1 in
      Some (m_oReqPacket p2,
            {| m_bIsActive := m_bIsActive p2; m_nReqIdx := m_nReqIdx p2;
               m_nLastReqIdx := nIdx; m_oReqPacket := m_oReqPacket p2;
               m_oLastReqPacket := m_oReqPacket p2;
               m_hWorker := m_hWorker p2; loaded := loaded p2 |})
    else None.

(** [DataPrecacher::stopAsyncPrecaching]: the worker leaves its loop and is
    joined; its locals, the scratch buffer among them, are destroyed.  A
    header over that buffer which is still held in [m_oReqPacket] or
    [m_oLastReqPacket] dangles from then on; what is proved about fetched
    bytes is about runs in which the worker is started at most once and not
    stopped ([PrecacherSpec.reachable]). *)
Definition stopAsyncPrecaching (p : state) : state :=
  if m_bIsActive p then
    {| m_bIsActive := false; m_nReqIdx := m_nReqIdx p;
       m_nLastReqIdx := m_nLastReqIdx p; m_oReqPacket := m_oReqPacket p;
       m_oLastReqPacket := m_oLastReqPacket p;
       m_hWorker := None; loaded := loaded p |}
  else p.

(** [DataPrecacher::startAsyncPrecaching], with the value it returns.  The
    new thread runs the prefill loop before it first waits for a request;
    [ticks] is passed on to [prefill]. *)
Definition startAsyncPrecaching (nSuggestedBufferSize : Z) (ticks : nat) (p : state)
  : bool * state :=
  let p1 := if m_bIsActive p then stopAsyncPrecaching p else p in
  let p2 :=
    if 0 <? nSuggestedBufferSize then
      let nBufferSize :=
        if CACHE_MAX_SIZE <? nSuggestedBufferSize then CACHE_MAX_SIZE
        else nSuggestedBufferSize in
      let '(w, log) := prefill ticks (entry_init nBufferSize) (loaded p1) in
      {| m_bIsActive := true; m_nReqIdx := SIZE_MAX;
         m_nLastReqIdx := m_nLastReqIdx p1; m_oReqPacket := m_oReqPacket p1;
         m_oLastReqPacket := m_oLastReqPacket p1;
         m_hWorker := Some w; loaded := log |}
    else p1 in
  (m_bIsActive p2, p2).

End Precacher.

End DataPrecacher.

(** ** Precacher: what is proved about it *)

Module PrecacherSpec.
Import DataPrecacher.

(** a loader whose packets fit the address space with room to spare *)
Definition loader_ok (load : Z -> Packet) : Prop :=
  forall i, packet_size (load i) < 2 ^ 63.

(** The indices [a, a+1, ..., b-1] in [size_t] arithmetic; the plain
    interval [[a, b)] whenever [a <= b]. *)
Definition index_range (a b : Z) : list Z :=
  map (fun k => wrap (a + Z.of_nat k)) (seq 0 (Z.to_nat (wrap (b - a)))).

(** I1 on the locals of the worker *)
Definition covers (w : Worker) : Prop :=
  map slot_idx (qoCache w)
  = index_range (nNextExpectedReqIdx w) (nNextPrecacheIdx w).

Fixpoint consecutive (a : Z) (l : list Z) : Prop :=
  match l with
  | [] => True
  | x :: l' => x = a /\ consecutive (wrap (a + 1)) l'
  end.

(** regions [(offset, size)] laid out left to right inside [[lo, hi)] *)
Fixpoint asc (lo hi : Z) (L : list (Z * Z)) : Prop :=
  match L with
  | [] => lo <= hi
  | (off, len) :: L' => lo <= off /\ 0 < len /\ asc (off + len) hi L'
  end.

(** the regions in use lie in ring order between the first used position
    [F] and the write position [X] of a buffer of [B] bytes *)
Definition ring_ok (B F X : Z) (L : list (Z * Z)) : Prop :=
  (F = SIZE_MAX /\ X = SIZE_MAX /\ L = []) \/
  (0 <= F /\ X < B /\ asc F X L) \/
  (0 <= X /\ X < F /\ F < B /\
   exists L1 L2, L = L1 ++ L2 /\ asc F B L1 /\ asc 0 X L2).

Definition slot_span (s : Slot) : Z * Z := (slot_off s, slot_len s).

Definition req_span (req : Mat) : list (Z * Z) :=
  match req with
  | MatData _ => []
  | MatView nOffset nSize => [(nOffset, nSize)]
  end.

(** the regions of the buffer that are still referenced: the packet last
    published to the caller when it is a view, then the queued packets *)
Definition live_spans (req : Mat) (q : list Slot) : list (Z * Z) :=
  req_span req ++ map slot_span q.

Definition req_bytes (w : Worker) (req : Mat) : list Byte.byte :=
  match req with
  | MatData data => data
  | MatView nOffset nSize => view_bytes (vcBuffer w) nOffset nSize
  end.

Section Invariant.

Variable load : Z -> Packet.

(** a queued header designates the bytes of the packet it was loaded for *)
Definition slot_ok (buffer : list Byte.byte) (s : Slot) : Prop :=
  slot_len s = packet_size (load (slot_idx s)) /\
  view_bytes buffer (slot_off s) (slot_len s) = load (slot_idx s).

Definition worker_inv (w : Worker) (req : Mat) : Prop :=
  0 < nBufferSize w <= CACHE_MAX_SIZE /\
  Z.of_nat (length (vcBuffer w)) = nBufferSize w /\
  is_size_t (nNextExpectedReqIdx w) /\
  ring_ok (nBufferSize w) (nFirstBufferIdx w) (nNextBufferIdx w)
          (live_spans req (qoCache w)) /\
  Forall (slot_ok (vcBuffer w)) (qoCache w) /\
  consecutive (nNextExpectedReqIdx w) (map slot_idx (qoCache w)) /\
  nNextPrecacheIdx w
  = wrap (nNextExpectedReqIdx w + Z.of_nat (length (qoCache w))) /\
  (nNextExpectedReqIdx w <> 0 ->
   req_bytes w req = load (wrap (nNextExpectedReqIdx w - 1))).

(** no wrap-around is pending: the regions in use lie between the first
    used position and the write position *)
Definition nonwrapped (w : Worker) (req : Mat) : Prop :=
  0 <= nFirstBufferIdx w /\ nNextBufferIdx w < nBufferSize w /\
  asc (nFirstBufferIdx w) (nNextBufferIdx w) (live_spans req (qoCache w)).

(** One attempt of the fill loop, as [fill_loop_unfold] reads it off the
    loop body: the locals after the packet is enqueued, or [None] when the
    attempt ends in [break]. *)
Definition fill_attempt (w : Worker) : option Worker :=
  let oNextPacket := load (nNextPrecacheIdx w) in
  let nNextPacketSize := packet_size oNextPacket in
  if nNextPacketSize =? 0 then None
  else if nFirstBufferIdx w <=? nNextBufferIdx w then
    if (nNextBufferIdx w =? SIZE_MAX)
       || (nBufferSize w <=? wrap (nNextBufferIdx w + nNextPacketSize)) then
      if (negb (nFirstBufferIdx w =? SIZE_MAX)
          && (nFirstBufferIdx w <=? nNextPacketSize))
         || (nBufferSize w <=? nNextPacketSize) then None
      else
        Some (cache_push oNextPacket 0
                (if nFirstBufferIdx w =? SIZE_MAX then 0 else nFirstBufferIdx w)
                nNextPacketSize w)
    else
      Some (cache_push oNextPacket (nNextBufferIdx w) (nFirstBufferIdx w)
              (wrap (nNextBufferIdx w + nNextPacketSize)) w)
  else if wrap (nNextBufferIdx w + nNextPacketSize) <? nFirstBufferIdx w then
    Some (cache_push oNextPacket (nNextBufferIdx w) (nFirstBufferIdx w)
            (wrap (nNextBufferIdx w + nNextPacketSize)) w)
  else None.

(** The configurations of the worker thread: its locals and the packet it
    last published, after the prefill and after every turn of its loop. *)
Inductive worker_reachable : Worker -> Mat -> Prop :=
| after_prefill nBufferSize ticks log :
    0 < nBufferSize <= CACHE_MAX_SIZE ->
    worker_reachable (fst (prefill load ticks (entry_init nBufferSize) log))
                     (MatData emptyMat)
| after_serve w req nReqIdx log :
    worker_reachable w req -> is_size_t nReqIdx ->
    worker_reachable (fst (fst (serve load nReqIdx w req log)))
                     (snd (fst (serve load nReqIdx w req log)))
| after_timeout w req log :
    worker_reachable w req ->
    worker_reachable (fst (timeout_pass load w log)) req.

(** The states of the precacher between two calls of its interface: any
    number of fetches without precaching, then possibly one start of the
    worker, then fetches and idle turns of the worker. *)
Inductive reachable : state -> Prop :=
| reach_new : reachable (DataPrecacher)
| reach_get p nIdx sched m p' :
    reachable p -> is_size_t nIdx ->
    getPacket load nIdx sched p = Some (m, p') -> reachable p'
| reach_idle p sched :
    reachable p -> reachable (worker_run load sched p)
| reach_start p nSuggestedBufferSize ticks :
    reachable p -> m_bIsActive p = false -> 0 < nSuggestedBufferSize ->
    reachable (snd (startAsyncPrecaching load nSuggestedBufferSize ticks p)).

(** what holds of a state between two calls *)
Definition state_inv (p : state) : Prop :=
  is_size_t (m_nLastReqIdx p) /\
  (m_nLastReqIdx p <> SIZE_MAX ->
   mat_bytes p (m_oLastReqPacket p) = load (m_nLastReqIdx p)) /\
  match m_hWorker p with
  | None =>
      m_bIsActive p = false /\ m_oReqPacket p = MatData emptyMat /\
      exists data, m_oLastReqPacket p = MatData data
  | Some w =>
      m_bIsActive p = true /\ worker_reachable w (m_oReqPacket p) /\
      m_nReqIdx p = wrap (nNextExpectedReqIdx w - 1) /\
      ((exists data, m_oLastReqPacket p = MatData data) \/
       m_oLastReqPacket p = m_oReqPacket p)
  end.

(** what holds while a call of [getPacket] for [nIdx] is in progress *)
Definition call_inv (nIdx : Z) (p : state) : Prop :=
  m_bIsActive p = true /\ m_nReqIdx p = nIdx /\
  exists w, m_hWorker p = Some w /\ worker_reachable w (m_oReqPacket p).

Definition served (nIdx : Z) (p : state) : Prop :=
  call_inv nIdx p /\
  exists w, m_hWorker p = Some w /\ nNextExpectedReqIdx w = wrap (nIdx + 1).

End Invariant.

End PrecacherSpec.

(** ** Precacher: the layout of the scratch buffer *)

Module PrecacherLayout.
Import DataPrecacher PrecacherSpec.

(** two regions [(offset, size)] share no byte *)
Definition span_disjoint (a b : Z * Z) : Prop :=
  fst a + snd a <= fst b \/ fst b + snd b <= fst a.

(** the bytes a list of regions takes *)
Fixpoint span_bytes (L : list (Z * Z)) : Z :=
  match L with
  | [] => 0
  | (_, len) :: L' => len + span_bytes L'
  end.

(** a queued header lies inside a buffer of [B] bytes and designates the
    packet the loader yields for its index *)
Definition slot_holds (load : Z -> Packet) (B : Z) (buffer : list Byte.byte)
    (s : Slot) : Prop :=
  0 <= slot_off s /\ 0 < slot_len s /\ slot_off s + slot_len s <= B /\
  slot_len s = packet_size (load (slot_idx s)) /\
  view_bytes buffer (slot_off s) (slot_len s) = load (slot_idx s).

(** a series of fetches, each with the same schedule of the worker; the
    bytes of each packet are read when its fetch returns *)
Fixpoint stream (load : Z -> Packet) (sched : list wake) (idxs : list Z)
    (p : state) : option (list Packet * state) :=
  match idxs with
  | [] => Some ([], p)
  | nIdx :: idxs' =>
      match getPacket load nIdx sched p with
      | Some (m, p1) =>
          match stream load sched idxs' p1 with
          | Some (packets, p2) => Some (mat_bytes p1 m :: packets, p2)
          | None => None
          end
      | None => None
      end
  end.

End PrecacherLayout.

(** ** lv::IDataLoader: the packet redirection of the loader facade *)

Module IDataLoader.

Inductive PacketPolicy : Type := ImagePacket | NotImagePacket.

Inductive MappingPolicy : Type := PixelMapping | IdxMapping | BatchMapping | NoMapping.

(** [cv::Size] *)
Record Size : Type := mkSize { width : Z; height : Z }.

Definition area (s : Size) : Z := width s * height s.

Definition Size_eqb (a b : Size) : bool :=
  (width a =? width b) && (height a =? height b).

(** [cv::emptySize()] *)
Definition emptySize : Size := {| width := 0; height := 0 |}.

(** A [cv::Mat] with the part of its header the facade looks at. *)
Record Mat : Type := mkMat {
  size : Size;
  channels : Z;
  data : Packet
}.

(** [cv::emptyMat()] *)
Definition emptyMat : Mat := {| size := emptySize; channels := 1; data := [] |}.

(** [cv::Mat::empty()] *)
Definition empty (m : Mat) : bool :=
  (area (size m) =? 0) || (packet_size (data m) =? 0).

Definition PacketPolicy_eqb (a b : PacketPolicy) : bool :=
  match a, b with
  | ImagePacket, ImagePacket | NotImagePacket, NotImagePacket => true
  | _, _ => false
  end.

Definition MappingPolicy_eqb (a b : MappingPolicy) : bool :=
  match a, b with
  | PixelMapping, PixelMapping | IdxMapping, IdxMapping
  | BatchMapping, BatchMapping | NoMapping, NoMapping => true
  | _, _ => false
  end.

(** what the redirection asks of its collaborators, in call order *)
Inductive event : Type :=
| InputPacketImpl (nIdx : Z)     (* [_getInputPacket_impl(nIdx)] *)
| GTPacketImpl (nIdx : Z)        (* [_getGTPacket_impl(nIdx)] *)
| Transpose                      (* [cv::transpose] *)
| CvtColor                       (* [cv::cvtColor(..,cv::COLOR_BGR2BGRA)] *)
| Resize (oPacketSize : Size).   (* [cv::resize(..,cv::INTER_NEAREST)] *)

(** the members the redirection writes, and the log of its requests *)
Record state : Type := mk {
  m_oLatestInputPacket : Mat;
  m_oLatestGTPacket : Mat;
  events : list event
}.

Inductive result : Type :=
| Packet_ (oPacket : Mat) (s : state)    (* the reference that is returned *)
| AssertionFailed (s : state).           (* an [lvAssert_] failed *)

Section Loader.

(** the dataset-specific interface ([virtual] members) *)
Variable getTotPackets : Z.
Variable _getInputPacket_impl : Z -> Mat.
Variable _getGTPacket_impl : Z -> Mat.
Variable getInputOrigSize : Z -> Size.
Variable getGTOrigSize : Z -> Size.
Variable getInputSize : Z -> Size.
Variable getGTSize : Z -> Size.
Variable isInputTransposed : Z -> bool.
Variable isGTTransposed : Z -> bool.
Variable is4ByteAligned : bool.

(** the policies fixed by the constructor *)
Variable m_eInputType : PacketPolicy.
Variable m_eGTMappingType : MappingPolicy.

(** the OpenCV transforms *)
Variable transpose : Mat -> Mat.
Variable cvtColor_BGR2BGRA : Mat -> Mat.
Variable resize_nearest : Mat -> Size -> Mat.

(** the transforms both redirections apply to an image packet *)
Definition normalise (bTransposed : bool) (oPacketSize : Size)
    (m : Mat) (log : list event) : Mat * list event :=
  let '(m1, log1) :=
    if bTransposed then (transpose m, log ++ [Transpose]) else (m, log) in
  let '(m2, log2) :=
    if is4ByteAligned && (channels m1 =? 3)
    then (cvtColor_BGR2BGRA m1, log1 ++ [CvtColor]) else (m1, log1) in
  if (0 <? area oPacketSize) && negb (Size_eqb (size m2) oPacketSize)
  then (resize_nearest m2 oPacketSize, log2 ++ [Resize oPacketSize])
  else (m2, log2).

(** [IDataLoader::_getInputPacket_redirect] *)
Definition _getInputPacket_redirect (nIdx : Z) (s : state) : result :=
  if getTotPackets <=? nIdx then Packet_ emptyMat s
  else
    let m := _getInputPacket_impl nIdx in
    let log := events s ++ [InputPacketImpl nIdx] in
    if negb (empty m) then
      if Size_eqb (getInputOrigSize nIdx) (size m) then
        if PacketPolicy_eqb m_eInputType ImagePacket then
          let '(m', log') :=
            normalise (isInputTransposed nIdx) (getInputSize nIdx) m log in
          Packet_ m' {| m_oLatestInputPacket := m';
                        m_oLatestGTPacket := m_oLatestGTPacket s;
                        events := log' |}
        else
          Packet_ m {| m_oLatestInputPacket := m;
                       m_oLatestGTPacket := m_oLatestGTPacket s;
                       events := log |}
      else
        AssertionFailed {| m_oLatestInputPacket := m;
                           m_oLatestGTPacket := m_oLatestGTPacket s;
                           events := log |}
    else
      Packet_ m {| m_oLatestInputPacket := m;
                   m_oLatestGTPacket := m_oLatestGTPacket s;
                   events := log |}.

(** [IDataLoader::_getGTPacket_redirect] *)
Definition _getGTPacket_redirect (nIdx : Z) (s : state) : result :=
  if getTotPackets <=? nIdx then Packet_ emptyMat s
  else
    let m := _getGTPacket_impl nIdx in
    let log := events s ++ [GTPacketImpl nIdx] in
    if negb (empty m) then
      if Size_eqb (getGTOrigSize nIdx) (size m) then
        if MappingPolicy_eqb m_eGTMappingType PixelMapping
           && PacketPolicy_eqb m_eInputType ImagePacket then
          let '(m', log') :=
            normalise (isGTTransposed nIdx) (getGTSize nIdx) m log in
          Packet_ m' {| m_oLatestInputPacket := m_oLatestInputPacket s;
                        m_oLatestGTPacket := m';
                        events := log' |}
        else
          Packet_ m {| m_oLatestInputPacket := m_oLatestInputPacket s;
                       m_oLatestGTPacket := m;
                       events := log |}
      else
        AssertionFailed {| m_oLatestInputPacket := m_oLatestInputPacket s;
                           m_oLatestGTPacket := m;
                           events := log |}
    else
      Packet_ m {| m_oLatestInputPacket := m_oLatestInputPacket s;
                   m_oLatestGTPacket := m;
                   events := log |}.

End Loader.

End IDataLoader.

(** ** Starting the precachers of a loader *)

Module Precaching.
Import DataPrecacher.

(** the two precachers a loader owns *)
Record precachers : Type := mkPrecachers {
  m_oInputPrecacher : state;
  m_oGTPrecacher : state
}.

Inductive start_result : Type :=
| Started (s : precachers)
| StartAssertionFailed (s : precachers).   (* an [lvAssert_] failed *)

Section Loader.

(** the loader's redirections, as bound to the precachers by the
    constructor of [IDataLoader] *)
Variable _getInputPacket_redirect : Z -> Packet.
Variable _getGTPacket_redirect : Z -> Packet.

(** [IDataLoader::startAsyncPrecaching]; the ticks are those of the prefill
    loops of the two worker threads *)
Definition IDataLoader_startAsyncPrecaching (bUsingGT : bool)
    (nSuggestedBufferSize : Z) (ticksInput ticksGT : nat) (s : precachers)
  : start_result :=
  let '(bInput, pInput) :=
    startAsyncPrecaching _getInputPacket_redirect nSuggestedBufferSize
      ticksInput (m_oInputPrecacher s) in
  let s1 := {| m_oInputPrecacher := pInput; m_oGTPrecacher := m_oGTPrecacher s |} in
  if bInput then
    if bUsingGT then
      let '(bGT, pGT) :=
        startAsyncPrecaching _getGTPacket_redirect nSuggestedBufferSize
          ticksGT (m_oGTPrecacher s) in
      let s2 := {| m_oInputPrecacher := pInput; m_oGTPrecacher := pGT |} in
      if bGT then Started s2 else StartAssertionFailed s2
    else Started s1
  else StartAssertionFailed s1.

(** [IDataLoader::stopAsyncPrecaching] *)
Definition IDataLoader_stopAsyncPrecaching (s : precachers) : precachers :=
  {| m_oInputPrecacher := stopAsyncPrecaching (m_oInputPrecacher s);
     m_oGTPrecacher := stopAsyncPrecaching (m_oGTPrecacher s) |}.

(** the bytes per pixel the producers count with *)
Definition bytes_per_pixel (isGrayscale is4ByteAligned : bool) : Z :=
  if isGrayscale then 1 else if is4ByteAligned then 4 else 3.

(** the buffer size the video and the image producers ask for:
    [area*(count+1)*(isGrayscale()?1:is4ByteAligned()?4:3)] in [size_t] *)
Definition producer_buffer_size (nArea nCount : Z)
    (isGrayscale is4ByteAligned : bool) : Z :=
  wrap (wrap (wrap nArea * wrap (nCount + 1))
        * bytes_per_pixel isGrayscale is4ByteAligned).

(** [IDataProducer_<DatasetSource_Video>::startAsyncPrecaching], with
    [m_oSize.area()] and [m_nFrameCount]; the size argument is unused *)
Definition Video_startAsyncPrecaching (nFrameArea m_nFrameCount : Z)
    (isGrayscale is4ByteAligned : bool) (bUsingGT : bool) (nUnused : Z)
    (ticksInput ticksGT : nat) (s : precachers) : start_result :=
  IDataLoader_startAsyncPrecaching bUsingGT
    (producer_buffer_size nFrameArea m_nFrameCount isGrayscale is4ByteAligned)
    ticksInput ticksGT s.

(** [IDataProducer_<DatasetSource_Image>::startAsyncPrecaching], with
    [getInputMaxSize().area()] and [m_nImageCount] *)
Definition Image_startAsyncPrecaching (nInputMaxArea m_nImageCount : Z)
    (isGrayscale is4ByteAligned : bool) (bUsingGT : bool) (nUnused : Z)
    (ticksInput ticksGT : nat) (s : precachers) : start_result :=
  IDataLoader_startAsyncPrecaching bUsingGT
    (producer_buffer_size nInputMaxArea m_nImageCount isGrayscale is4ByteAligned)
    ticksInput ticksGT s.

End Loader.

(** two precachers as constructed *)
Definition fresh : precachers :=
  {| m_oInputPrecacher := DataPrecacher; m_oGTPrecacher := DataPrecacher |}.

End Precaching.

(** ** Loader facade: what is assumed of the OpenCV transforms *)

Module LoaderSpec.
Import IDataLoader.

(** [cv::resize] yields the size asked for, [cv::cvtColor] to BGRA yields
    four channels, and neither [cv::resize] nor [cv::transpose] changes the
    number of channels *)
Definition opencv_ok (transpose cvtColor_BGR2BGRA : Mat -> Mat)
    (resize_nearest : Mat -> Size -> Mat) : Prop :=
  (forall m sz, size (resize_nearest m sz) = sz) /\
  (forall m sz, channels (resize_nearest m sz) = channels m) /\
  (forall m, channels (transpose m) = channels m) /\
  (forall m, channels (cvtColor_BGR2BGRA m) = 4).

(** the state an outcome of a redirection leaves *)
Definition state_of (r : result) : state :=
  match r with
  | Packet_ _ s => s
  | AssertionFailed s => s
  end.

(** the packet an outcome returns, if it returns *)
Definition packet_of (r : result) : option Mat :=
  match r with
  | Packet_ m _ => Some m
  | AssertionFailed _ => None
  end.

(** toy transforms over the header: swap the sides, set four channels, set
    the size *)
Definition swap_sides (m : Mat) : Mat :=
  {| size := {| width := height (size m); height := width (size m) |};
     channels := channels m; data := data m |}.

Definition to_bgra (m : Mat) : Mat :=
  {| size := size m; channels := 4; data := data m |}.

Definition set_size (m : Mat) (sz : Size) : Mat :=
  {| size := sz; channels := channels m; data := data m |}.

(** a batch of three 2x2 three-channel images, to be delivered as 4x4 *)
Definition bgr2x2 (nIdx : Z) : Mat :=
  {| size := {| width := 2; height := 2 |}; channels := 3;
     data := repeat Byte.x07 12 |}.

Definition size4x4 (nIdx : Z) : Size := {| width := 4; height := 4 |}.

End LoaderSpec.

(** ** Packet names *)

Module PacketName.

(** The decimal digits of [n], least significant first.  [fuel] bounds the
    number of digits; twenty digits hold every [size_t]. *)
Fixpoint digits_rev (fuel : nat) (n : Z) : list Z :=
  match fuel with
  | O => []
  | S fuel' =>
      if n <? 10 then [n] else (n mod 10) :: digits_rev fuel' (n / 10)
  end.

(** the character of a digit *)
Definition digit_char (d : Z) : ascii := ascii_of_N (48 + Z.to_N d).

(** the conversion [%zu] of [printf] *)
Definition zu (n : Z) : list ascii := map digit_char (rev (digits_rev 20 n)).

(** the conversion [%0Wzu]: zero-padded on the left to [W] characters *)
Definition zu_padded (W : nat) (n : Z) : list ascii :=
  repeat "0"%char (W - length (zu n)) ++ zu n.

(** [snprintf] into a buffer of [size] characters stores at most [size-1]
    of them before the terminator *)
Definition snprintf (size : nat) (s : list ascii) : list ascii :=
  take (size - 1) s.

(** [IDataHandler::getPacketName] *)
Definition getPacketName (getTotPackets nPacketIdx : Z) : list ascii :=
  snprintf 10
    (zu_padded (if getTotPackets <? 10000000 then 6 else 9) nPacketIdx).

(** the number a string of decimal digits denotes *)
Definition decimal_value (s : list ascii) : Z :=
  fold_left (fun acc c => acc * 10 + (Z.of_N (N_of_ascii c) - 48)) s 0.

(** strings compared as [std::string::compare] does, character by character *)
Fixpoint lex_lt (a b : list ascii) : bool :=
  match a, b with
  | _, [] => false
  | [], _ :: _ => true
  | x :: a', y :: b' =>
      if (N_of_ascii x <? N_of_ascii y)%N then true
      else if (N_of_ascii y <? N_of_ascii x)%N then false
      else lex_lt a' b'
  end.

End PacketName.

(** ** The packet names of the image producer *)

Module ImageName.

Definition slash : ascii := ascii_of_N 47.
Definition backslash : ascii := ascii_of_N 92.
Definition dot : ascii := ascii_of_N 46.

Definition is_separator (c : ascii) : bool :=
  Ascii.eqb c slash || Ascii.eqb c backslash.

Definition is_dot (c : ascii) : bool := Ascii.eqb c dot.

(** [std::string::find_last_of]: the position of the last character of the
    given set, [None] for [npos] *)
Fixpoint find_last_of (set : ascii -> bool) (s : list ascii) : option nat :=
  match s with
  | [] => None
  | c :: s' =>
      match find_last_of set s' with
      | Some i => Some (S i)
      | None => if set c then Some O else None
      end
  end.

(** [std::string::substr(pos, len)], with [None] for [npos] *)
Definition substr (s : list ascii) (pos : nat) (len : option nat) : list ascii :=
  match len with
  | Some n => take n (drop pos s)
  | None => drop pos s
  end.

(** [IDataProducer_<DatasetSource_Image>::getPacketName]; [None] when the
    assertion on the index fails, or when the vector of paths is shorter
    than the image count and would be read past its end *)
Definition getPacketName (m_vsInputPaths : list (list ascii))
    (m_nImageCount nPacketIdx : Z) : option (list ascii) :=
  if nPacketIdx <? m_nImageCount then
    match m_vsInputPaths !! Z.to_nat nPacketIdx with
    | Some sPath =>
        let nLastSlashPos := find_last_of is_separator sPath in
        let sFileName :=
          match nLastSlashPos with
          | None => sPath
          | Some pos => substr sPath (pos + 1) None
          end in
        Some (substr sFileName 0 (find_last_of is_dot sFileName))
    | None => None
    end
  else None.

End ImageName.

(** ** lv::IDataArchiver: saving and loading output packets *)

Module IDataArchiver.
Import IDataLoader.

Inductive save_result (files : Type) : Type :=
| Saved (ret : Z) (fs : files)
| SaveError.                       (* an [lvAssert_] failed, or [lvError] *)

Inductive load_result : Type :=
| Loaded (oOutput : Mat)
| LoadError.

Arguments Saved {files} ret fs.
Arguments SaveError {files}.

Section Archiver.

(** the files on disk, with [cv::imwrite] (PNG, compression 9) and
    [cv::imread] under the flag that [isGrayscale()] selects *)
Variable files : Type.
Variable imwrite : list ascii -> Mat -> files -> files.
Variable imread : files -> list ascii -> Mat.

(** the dataset info and the handler *)
Variables getOutputPath getOutputNamePrefix getOutputNameSuffix : list ascii.
Variable getPacketName : Z -> list ascii.
Variable is4ByteAligned : bool.

(** the loader this archiver is cast to *)
Variable getIOMappingType : MappingPolicy.
Variable getOutputPacketType : PacketPolicy.
Variable getInputROI : Z -> Mat.
Variable isInputTransposed : Z -> bool.
Variables getInputOrigSize getInputSize : Z -> Size.

(** the OpenCV transforms; [mask_unknown o roi] is
    [cv::bitwise_or(o,DATASETUTILS_UNKNOWN_VAL,o,roi==0)] *)
Variable mask_unknown : Mat -> Mat -> Mat.
Variables transpose cvtColor_BGR2BGRA : Mat -> Mat.
Variable resize_nearest : Mat -> Size -> Mat.

(** the path both [save] and [load] build in [sOutputFilePath] *)
Definition sOutputFilePath (nIdx : Z) : list ascii :=
  getOutputPath ++ getOutputNamePrefix ++ getPacketName nIdx
  ++ getOutputNameSuffix.

(** [IDataArchiver::save] *)
Definition save (oOutput : Mat) (nIdx : Z) (fs : files) : save_result files :=
  match getOutputNameSuffix with
  | [] => SaveError
  | _ :: _ =>
      if MappingPolicy_eqb getIOMappingType PixelMapping
         && PacketPolicy_eqb getOutputPacketType ImagePacket then
        let oROI := getInputROI nIdx in
        let oOutputClone := oOutput in
        let oOutputClone :=
          if negb (empty oROI) && Size_eqb (size oROI) (size oOutputClone)
          then mask_unknown oOutputClone oROI else oOutputClone in
        let oOutputClone :=
          if isInputTransposed nIdx then transpose oOutputClone
          else oOutputClone in
        let oOutputClone :=
          if (0 <? area (getInputOrigSize nIdx))
             && negb (Size_eqb (size oOutputClone) (getInputOrigSize nIdx))
          then resize_nearest oOutputClone (getInputOrigSize nIdx)
          else oOutputClone in
        Saved 0 (imwrite (sOutputFilePath nIdx) oOutputClone fs)
      else SaveError
  end.

(** [IDataArchiver::load] *)
Definition load (nIdx : Z) (fs : files) : load_result :=
  match getOutputNameSuffix with
  | [] => LoadError
  | _ :: _ =>
      if MappingPolicy_eqb getIOMappingType PixelMapping
         && PacketPolicy_eqb getOutputPacketType ImagePacket then
        let oOutput := imread fs (sOutputFilePath nIdx) in
        let oOutput :=
          if isInputTransposed nIdx then transpose oOutput else oOutput in
        let oOutput :=
          if is4ByteAligned && (channels oOutput =? 3)
          then cvtColor_BGR2BGRA oOutput else oOutput in
        let oOutput :=
          if (0 <? area (getInputSize nIdx))
             && negb (Size_eqb (size oOutput) (getInputSize nIdx))
          then resize_nearest oOutput (getInputSize nIdx) else oOutput in
        Loaded oOutput
      else LoadError
  end.

End Archiver.

(** files as a list of written paths, the latest first *)
Definition disk : Type := list (list ascii * Mat).

Definition disk_write (sPath : list ascii) (m : Mat) (fs : disk) : disk :=
  (sPath, m) :: fs.

Fixpoint disk_read (fs : disk) (sPath : list ascii) : Mat :=
  match fs with
  | [] => emptyMat
  | (p, m) :: fs' =>
      if List.list_eq_dec ascii_dec p sPath then m else disk_read fs' sPath
  end.

End IDataArchiver.

(** ** Concrete loaders, sinks and runs used to exercise the statements *)

Module Examples.

(** ten packets of four bytes, packet [i] filled with the byte [i] *)
Definition load4 (i : Z) : Packet :=
  if (0 <=? i) && (i <? 10) then
    repeat (nth (Z.to_nat i)
              [Byte.x00; Byte.x01; Byte.x02; Byte.x03; Byte.x04;
               Byte.x05; Byte.x06; Byte.x07; Byte.x08; Byte.x09] Byte.x00) 4
  else [].

(** an endless stream of one-byte packets *)
Definition load1 (i : Z) : Packet := [Byte.x01].

(** a loader with nothing to load *)
Definition load0 (i : Z) : Packet := [].

(** a sink that reports the index it was given *)
Definition sink_idx (oPacket : Packet) (nIdx : Z) : Z := nIdx.

(** A precacher over [load4] with a 16-byte buffer: started, then asked for
    packet 0 (in the cache) and for packet 5 (not in the cache). *)
Definition precacher_started : DataPrecacher.state :=
  snd (DataPrecacher.startAsyncPrecaching load4 16 5
         (DataPrecacher.DataPrecacher)).

Definition precacher_after_0 : DataPrecacher.state :=
  match DataPrecacher.getPacket load4 0 [DataPrecacher.Notified] precacher_started with
  | Some (_, p) => p
  | None => precacher_started
  end.

Definition precacher_after_5 : DataPrecacher.state :=
  match DataPrecacher.getPacket load4 5
          [DataPrecacher.TimedOut; DataPrecacher.Notified] precacher_after_0 with
  | Some (_, p) => p
  | None => precacher_after_0
  end.

Definition fetch (nIdx : Z) (p : DataPrecacher.state) : DataPrecacher.state :=
  match DataPrecacher.getPacket load4 nIdx [DataPrecacher.Notified] p with
  | Some (_, p') => p'
  | None => p
  end.

(** A precacher over [load4] with a 32-byte buffer: started, the packets 0
    to 6 fetched in order, and then one timeout of the worker, whose fill
    pass wraps around the end of the buffer. *)
Definition precacher_wrapped : DataPrecacher.state :=
  DataPrecacher.worker_run load4 [DataPrecacher.TimedOut]
    (fetch 6 (fetch 5 (fetch 4 (fetch 3 (fetch 2 (fetch 1 (fetch 0
       (snd (DataPrecacher.startAsyncPrecaching load4 32 20
               (DataPrecacher.DataPrecacher)))))))))).

(** A precacher over [load1] with a 64-byte buffer, after a request far
    ahead of the cache has made the worker forget the ring. *)
Definition precacher_flushed : DataPrecacher.state :=
  match DataPrecacher.getPacket load1 1000 [DataPrecacher.Notified]
          (snd (DataPrecacher.startAsyncPrecaching load1 64 100
                  (DataPrecacher.DataPrecacher))) with
  | Some (_, p) => p
  | None => DataPrecacher.DataPrecacher
  end.

(** the worker locals of a state, for states that have a worker *)
Definition worker_of (p : DataPrecacher.state) : DataPrecacher.Worker :=
  match DataPrecacher.m_hWorker p with
  | Some w => w
  | None => DataPrecacher.entry_init 0
  end.

(** A writer started with a 100-byte queue and one worker. *)
Definition writer_started (bDropPacketsIfFull : bool) : DataWriter.state :=
  match DataWriter.startAsyncWriting 100 bDropPacketsIfFull 1
          (DataWriter.DataWriter 0) with
  | Some (_, w) => w
  | None => DataWriter.DataWriter 0
  end.

Definition writer_after (oPacket : Packet) (nIdx : Z) (w : DataWriter.state)
  : DataWriter.state :=
  match DataWriter.queue sink_idx oPacket nIdx w with
  | DataWriter.Returned _ w' => w'
  | DataWriter.Blocked w' => w'
  end.

(** the same index queued twice before any worker turn *)
Definition writer_queued_twice : DataWriter.state :=
  writer_after [Byte.x04; Byte.x05; Byte.x06] 7
    (writer_after [Byte.x01; Byte.x02; Byte.x03] 7 (writer_started false)).

(** two packets queued out of order *)
Definition writer_two_pending : DataWriter.state :=
  writer_after [Byte.x01] 3
    (writer_after [Byte.x02; Byte.x03] 8 (writer_started false)).

(** the state after one worker turn on [writer_two_pending] *)
Definition writer_after_turn : DataWriter.state :=
  match DataWriter.entry_step writer_two_pending with
  | DataWriter.Sunk w => w
  | _ => writer_two_pending
  end.

(** a loader facade over a batch of three 2x2 one-channel images *)
Definition image2x2 (nIdx : Z) : IDataLoader.Mat :=
  {| IDataLoader.size := {| IDataLoader.width := 2; IDataLoader.height := 2 |};
     IDataLoader.channels := 1;
     IDataLoader.data := load4 nIdx |}.

Definition size2x2 (nIdx : Z) : IDataLoader.Size :=
  {| IDataLoader.width := 2; IDataLoader.height := 2 |}.

Definition loader_fresh : IDataLoader.state :=
  {| IDataLoader.m_oLatestInputPacket := IDataLoader.emptyMat;
     IDataLoader.m_oLatestGTPacket := IDataLoader.emptyMat;
     IDataLoader.events := [] |}.

End Examples.

(** ** The video producer: reading frames through the video reader *)

Module VideoProducer.
Import IDataLoader.

(** The members [_getInputPacket_impl] reads and writes.  Of the
    [cv::VideoCapture] the model keeps whether it is opened and the position
    of the next frame ([CAP_PROP_POS_FRAMES]); [seeks] logs the calls of
    [set(cv::CAP_PROP_POS_FRAMES,.)]. *)
Record state : Type := mk {
  isOpened : bool;
  pos_frames : Z;
  m_nNextExpectedVideoReaderFrameIdx : Z;
  seeks : list Z
}.

Inductive result : Type :=
| Frame (oFrame : Mat) (s : state)
| AssertionFailed.

(** the members as the constructor leaves them *)
Definition constructed : state :=
  {| isOpened := false; pos_frames := 0;
     m_nNextExpectedVideoReaderFrameIdx := SIZE_MAX; seeks := [] |}.

(** the members as [parseData] leaves them when it could open the video:
    the reader is rewound (twice) and the expected index is reset *)
Definition parsed : state :=
  {| isOpened := true; pos_frames := 0;
     m_nNextExpectedVideoReaderFrameIdx := 0; seeks := [0; 0] |}.

Section Video.

Variable m_nFrameCount : Z.
(** the frame the opened video holds at a position *)
Variable video_frame : Z -> Mat.
(** [cv::imread(m_vsInputPaths[nFrameIdx],..)] *)
Variable imread_input : Z -> Mat.

(** [IDataProducer_<DatasetSource_Video>::_getInputPacket_impl] *)
Definition _getInputPacket_impl (nFrameIdx : Z) (s : state) : result :=
  if nFrameIdx <? m_nFrameCount then
    if negb (isOpened s) then Frame (imread_input nFrameIdx) s
    else
      let s1 :=
        if negb (m_nNextExpectedVideoReaderFrameIdx s =? nFrameIdx) then
          {| isOpened := isOpened s; pos_frames := nFrameIdx;
             m_nNextExpectedVideoReaderFrameIdx := wrap (nFrameIdx + 1);
             seeks := seeks s ++ [nFrameIdx] |}
        else
          {| isOpened := isOpened s; pos_frames := pos_frames s;
             m_nNextExpectedVideoReaderFrameIdx :=
               wrap (m_nNextExpectedVideoReaderFrameIdx s + 1);
             seeks := seeks s |} in
      (* m_voVideoReader >> oFrame *)
      Frame (video_frame (pos_frames s1))
        {| isOpened := isOpened s1; pos_frames := pos_frames s1 + 1;
           m_nNextExpectedVideoReaderFrameIdx :=
             m_nNextExpectedVideoReaderFrameIdx s1;
           seeks := seeks s1 |}
  else AssertionFailed.

(** a series of requests, as the precacher or a caller issues them *)
Fixpoint fetch_all (idxs : list Z) (s : state) : option (list Mat * state) :=
  match idxs with
  | [] => Some ([], s)
  | nFrameIdx :: idxs' =>
      match _getInputPacket_impl nFrameIdx s with
      | Frame oFrame s' =>
          match fetch_all idxs' s' with
          | Some (frames, s'') => Some (oFrame :: frames, s'')
          | None => None
          end
      | AssertionFailed => None
      end
  end.

End Video.

(** the requests of a series that do not follow the one before them *)
Fixpoint jumps (nExpected : Z) (idxs : list Z) : list Z :=
  match idxs with
  | [] => []
  | nFrameIdx :: idxs' =>
      (if nFrameIdx =? nExpected then [] else [nFrameIdx])
      ++ jumps (nFrameIdx + 1) idxs'
  end.

End VideoProducer.

(** ** The image producer: parsing a directory of images *)

Module ImageProducer.
Import IDataLoader.

(** the members [parseData] sets and the getters read *)
Record state : Type := mk {
  m_vsInputPaths : list (list ascii);
  m_voInputSizes : list Size;
  m_voGTSizes : list Size;
  m_voInputOrigSizes : list Size;
  m_voGTOrigSizes : list Size;
  m_vbInputTransposed : list bool;
  m_vbGTTransposed : list bool;
  m_oInputMaxSize : Size;
  m_oGTMaxSize : Size;
  m_bIsInputConstantSize : bool;
  m_bIsGTConstantSize : bool;
  m_nImageCount : Z
}.

Inductive parse_result : Type :=
| Parsed (s : state)
| ParseError.          (* [lvError_], or an [lvAssert_] failed *)

Section Producer.

(** [cv::imread(sPath, isGrayscale()?cv::IMREAD_GRAYSCALE:cv::IMREAD_COLOR)];
    the empty matrix for a file that cannot be read *)
Variable imread : list ascii -> Mat.

(** the rescaling of [parseData]: [cv::resize] by the dataset's scale
    factor when that is not 1, nothing otherwise *)
Variable rescale : Mat -> Mat.

(** The [while] loop of [parseData]: the path at [n] is erased as long as
    the image read from it is empty; the loop is left also when [n] has
    reached the end of the paths.  [fuel] bounds the unfolding. *)
Fixpoint skip_unreadable (fuel : nat) (n : nat) (paths : list (list ascii))
    (oCurrInput : Mat) : list (list ascii) * Mat :=
  match fuel with
  | O => (paths, oCurrInput)
  | S fuel' =>
      if empty oCurrInput then
        let paths' := delete n paths in
        if (length paths' <=? n)%nat then (paths', oCurrInput)
        else skip_unreadable fuel' n paths' (imread (nth n paths' []))
      else (paths, oCurrInput)
  end.

(** the paths after the [while] loop has erased some of them *)
Definition with_paths (paths : list (list ascii)) (s : state) : state :=
  {| m_vsInputPaths := paths;
     m_voInputSizes := m_voInputSizes s;
     m_voGTSizes := m_voGTSizes s;
     m_voInputOrigSizes := m_voInputOrigSizes s;
     m_voGTOrigSizes := m_voGTOrigSizes s;
     m_vbInputTransposed := m_vbInputTransposed s;
     m_vbGTTransposed := m_vbGTTransposed s;
     m_oInputMaxSize := m_oInputMaxSize s;
     m_oGTMaxSize := m_oGTMaxSize s;
     m_bIsInputConstantSize := m_bIsInputConstantSize s;
     m_bIsGTConstantSize := m_bIsGTConstantSize s;
     m_nImageCount := m_nImageCount s |}.

(** The rest of the body of the [for] loop, for an image that was read:
    the sizes are pushed, the maximal size and the constant-size flag are
    brought up to date. *)
Definition push_image (oCurrInput oLastInput : Mat) (s : state) : state :=
  let oScaled := rescale oCurrInput in
  let nMaxWidth :=
    if width (m_oInputMaxSize s) <? width (size oScaled)
    then width (size oScaled) else width (m_oInputMaxSize s) in
  let nMaxHeight :=
    if height (m_oInputMaxSize s) <? height (size oScaled)
    then height (size oScaled) else height (m_oInputMaxSize s) in
  {| m_vsInputPaths := m_vsInputPaths s;
     m_voInputSizes := m_voInputSizes s ++ [size oScaled];
     m_voGTSizes := m_voGTSizes s;
     m_voInputOrigSizes := m_voInputOrigSizes s ++ [size oCurrInput];
     m_voGTOrigSizes := m_voGTOrigSizes s;
     m_vbInputTransposed := m_vbInputTransposed s ++ [false];
     m_vbGTTransposed := m_vbGTTransposed s;
     m_oInputMaxSize := {| width := nMaxWidth; height := nMaxHeight |};
     m_oGTMaxSize := m_oGTMaxSize s;
     m_bIsInputConstantSize :=
       if negb (empty oLastInput)
          && negb (Size_eqb (size oScaled) (size oLastInput))
       then false else m_bIsInputConstantSize s;
     m_bIsGTConstantSize := m_bIsGTConstantSize s;
     m_nImageCount := m_nImageCount s |}.

(** The [for] loop of [parseData], with its local [oLastInput]. *)
Fixpoint parse_loop (fuel : nat) (n : nat) (oLastInput : Mat) (s : state)
  : state :=
  match fuel with
  | O => s
  | S fuel' =>
      if (n <? length (m_vsInputPaths s))%nat then
        let oCurrInput := imread (nth n (m_vsInputPaths s) []) in
        let '(paths, oCurrInput) :=
          skip_unreadable (length (m_vsInputPaths s)) n (m_vsInputPaths s)
            oCurrInput in
        if empty oCurrInput then with_paths paths s
        else
          parse_loop fuel' (S n) (rescale oCurrInput)
            (push_image oCurrInput oLastInput (with_paths paths s))
      else s
  end.

(** the loop body applied to a list of images one after the other *)
Fixpoint push_all (F : list (list ascii)) (oLastInput : Mat) (s : state)
  : state :=
  match F with
  | [] => s
  | sPath :: F' =>
      push_all F' (rescale (imread sPath))
        (push_image (imread sPath) oLastInput s)
  end.

(** [IDataProducer_<DatasetSource_Image>::parseData].  [files] is what
    [lv::GetFilesFromDir] and [lv::FilterFilePaths] leave in
    [m_vsInputPaths]; [m_nImageCount] is what the constructor or an earlier
    call has left in the member.  [cleared] is the state after the tables
    are cleared and the flags and maximal sizes reset; [with_count] is the
    final assignment of [m_nImageCount]. *)
Definition cleared (files : list (list ascii)) (nImageCount : Z) : state :=
  {| m_vsInputPaths := files;
     m_voInputSizes := []; m_voGTSizes := [];
     m_voInputOrigSizes := []; m_voGTOrigSizes := [];
     m_vbInputTransposed := []; m_vbGTTransposed := [];
     m_oInputMaxSize := {| width := 0; height := 0 |};
     m_oGTMaxSize := {| width := 0; height := 0 |};
     m_bIsInputConstantSize := true; m_bIsGTConstantSize := true;
     m_nImageCount := nImageCount |}.

Definition with_count (nCount : Z) (s : state) : state :=
  {| m_vsInputPaths := m_vsInputPaths s;
     m_voInputSizes := m_voInputSizes s;
     m_voGTSizes := m_voGTSizes s;
     m_voInputOrigSizes := m_voInputOrigSizes s;
     m_voGTOrigSizes := m_voGTOrigSizes s;
     m_vbInputTransposed := m_vbInputTransposed s;
     m_vbGTTransposed := m_vbGTTransposed s;
     m_oInputMaxSize := m_oInputMaxSize s;
     m_oGTMaxSize := m_oGTMaxSize s;
     m_bIsInputConstantSize := m_bIsInputConstantSize s;
     m_bIsGTConstantSize := m_bIsGTConstantSize s;
     m_nImageCount := nCount |}.

Definition parseData (getInputPacketType : PacketPolicy)
    (files : list (list ascii)) (nImageCount : Z) : parse_result :=
  if PacketPolicy_eqb getInputPacketType ImagePacket then
    match files with
    | [] => ParseError
    | _ :: _ =>
        let s :=
          parse_loop (length files) 0 emptyMat (cleared files nImageCount) in
        let nCount := Z.of_nat (length (m_vsInputPaths s)) in
        if 0 <? nCount then Parsed (with_count nCount s) else ParseError
    end
  else ParseError.

End Producer.

(** [getTotPackets] *)
Definition getTotPackets (s : state) : Z := m_nImageCount s.

(** [getInputSize]; an index inside the count but past the table reads
    outside the vector in the source, and the empty size here *)
Definition getInputSize (s : state) (nPacketIdx : Z) : Size :=
  if m_nImageCount s <=? nPacketIdx then emptySize
  else nth (Z.to_nat nPacketIdx) (m_voInputSizes s) emptySize.

(** [getInputOrigSize] *)
Definition getInputOrigSize (s : state) (nPacketIdx : Z) : Size :=
  if m_nImageCount s <=? nPacketIdx then emptySize
  else nth (Z.to_nat nPacketIdx) (m_voInputOrigSizes s) emptySize.

(** [getInputMaxSize] *)
Definition getInputMaxSize (s : state) : Size := m_oInputMaxSize s.

(** [isInputConstantSize] *)
Definition isInputConstantSize (s : state) : bool := m_bIsInputConstantSize s.

(** [isInputTransposed]; [None] when the assertion on the index fails or
    the vector is read past its end *)
Definition isInputTransposed (s : state) (nPacketIdx : Z) : option bool :=
  if nPacketIdx <? m_nImageCount s
  then m_vbInputTransposed s !! Z.to_nat nPacketIdx else None.

(** whether a file reads as an image *)
Definition readable (imread : list ascii -> Mat) (sPath : list ascii) : bool :=
  negb (empty (imread sPath)).

(** the maximal size bounds the sizes in the table, and each of its sides
    is the side of a size in the table, or 0 *)
Definition max_ok (s : state) : Prop :=
  0 <= width (m_oInputMaxSize s) /\ 0 <= height (m_oInputMaxSize s) /\
  Forall (fun sz => width sz <= width (m_oInputMaxSize s) /\
                    height sz <= height (m_oInputMaxSize s))
         (m_voInputSizes s) /\
  In (width (m_oInputMaxSize s)) (0 :: map width (m_voInputSizes s)) /\
  In (height (m_oInputMaxSize s)) (0 :: map height (m_voInputSizes s)).

(** the constant-size flag tells whether the sizes pushed so far are all
    the size of the image pushed last *)
Definition flag_ok (oLastInput : Mat) (s : state) : Prop :=
  (m_voInputSizes s = [] /\ empty oLastInput = true /\
   m_bIsInputConstantSize s = true) \/
  (empty oLastInput = false /\
   (exists sizes, m_voInputSizes s = sizes ++ [size oLastInput]) /\
   (m_bIsInputConstantSize s = true <->
    Forall (fun sz => sz = size oLastInput) (m_voInputSizes s))).

(** three files, the second of which is not an image *)
Definition file_a : list ascii := ["a"%char].
Definition file_b : list ascii := ["b"%char].
Definition file_c : list ascii := ["c"%char].

Definition imread_abc (sPath : list ascii) : Mat :=
  match sPath with
  | [c] =>
      if Ascii.eqb c "a"%char then
        {| size := {| width := 2; height := 2 |}; channels := 1;
           data := repeat Byte.x01 4 |}
      else if Ascii.eqb c "c"%char then
        {| size := {| width := 3; height := 1 |}; channels := 1;
           data := repeat Byte.x02 3 |}
      else emptyMat
  | _ => emptyMat
  end.

End ImageProducer.

(** ** Loading ground truth packets: the two producers *)

Module GroundTruth.
Import IDataLoader.

(** [m_mGTIndexLUT], a [std::unordered_map<size_t,size_t>] *)
Definition lut : Type := Z -> option Z.

Definition lut_insert (k v : Z) (m : lut) : lut :=
  fun k' => if k' =? k then Some v else m k'.

(** [operator[]]: the mapped value, a zero being inserted for a new key *)
Definition lut_index (m : lut) (k : Z) : Z * lut :=
  match m k with
  | Some v => (v, m)
  | None => (0, lut_insert k 0 m)
  end.

Inductive result : Type :=
| GTPacket (oPacket : Mat) (m_mGTIndexLUT : lut)
| AssertionFailed
| OutOfRange.        (* [m_vsGTPaths] indexed past its end *)

Section GT.

Variable getTotPackets : Z.
Variable getGTMappingType : MappingPolicy.
Variable m_vsGTPaths : list (list ascii).
(** [cv::imread(.,cv::IMREAD_GRAYSCALE)] *)
Variable imread : list ascii -> Mat.

(** [IDataProducer_<DatasetSource_Video>::_getGTPacket_impl] *)
Definition Video_getGTPacket_impl (nFrameIdx : Z) (m_mGTIndexLUT : lut)
  : result :=
  if nFrameIdx <? getTotPackets then
    match m_mGTIndexLUT nFrameIdx with
    | Some _ =>
        let '(nGTIdx, m1) := lut_index m_mGTIndexLUT nFrameIdx in
        if nGTIdx <? Z.of_nat (length m_vsGTPaths) then
          if MappingPolicy_eqb getGTMappingType PixelMapping then
            match m_vsGTPaths !! Z.to_nat nGTIdx with
            | Some sPath => GTPacket (imread sPath) m1
            | None => OutOfRange
            end
          else AssertionFailed
        else GTPacket emptyMat m1
    | None => GTPacket emptyMat m_mGTIndexLUT
    end
  else AssertionFailed.

(** [IDataProducer_<DatasetSource_Image>::_getGTPacket_impl]: the path is
    taken at [m_mGTIndexLUT[nGTIdx]], not at [nGTIdx] *)
Definition Image_getGTPacket_impl (nImageIdx : Z) (m_mGTIndexLUT : lut)
  : result :=
  if nImageIdx <? getTotPackets then
    match m_mGTIndexLUT nImageIdx with
    | Some _ =>
        let '(nGTIdx, m1) := lut_index m_mGTIndexLUT nImageIdx in
        if nGTIdx <? Z.of_nat (length m_vsGTPaths) then
          if MappingPolicy_eqb getGTMappingType PixelMapping then
            let '(nPathIdx, m2) := lut_index m1 nGTIdx in
            match m_vsGTPaths !! Z.to_nat nPathIdx with
            | Some sPath => GTPacket (imread sPath) m2
            | None => OutOfRange
            end
          else AssertionFailed
        else GTPacket emptyMat m1
    | None => GTPacket emptyMat m_mGTIndexLUT
    end
  else AssertionFailed.

End GT.

(** a table that maps each of the first [n] packets to the ground truth
    file of the same index *)
Definition identity_lut (n : Z) : lut :=
  fun k => if (0 <=? k) && (k <? n) then Some k else None.

End GroundTruth.

(** ** The asynchronous data consumer: the packet pipeline around the
    algorithm *)

Module AsyncDataConsumer.
Import DataPrecacher.

(** The three packets kept for the input, and likewise for the ground
    truth, with the precacher they are fetched from.  The last and the
    current packet own their bytes ([clone], [copyTo]); the next packet is
    the header [getPacket] returned, which may be a view into the
    precacher's buffer. *)
Record channel : Type := mkChannel {
  m_oLast : Packet;
  m_oCurr : Packet;
  m_oNext : Mat;
  m_oPrecacher : state
}.

Record state : Type := mk {
  m_nLastIdx : Z;
  m_nCurrIdx : Z;
  m_nNextIdx : Z;
  input : channel;
  gt : channel;
  (** what [pAlgo->apply_gl] was given, with the index it was given for *)
  applied : list (Z * Packet);
  (** the calls of [m_lDataCallback]: last input, last ground truth, index *)
  called_back : list (Packet * Packet * Z)
}.

(** the outcome of a call: done, an [lvAssert_] failed, or the call waits
    for a packet for ever *)
Inductive outcome (A : Type) : Type :=
| Done (a : A)
| AssertionFailed
| Blocked.

Arguments Done {A} a.
Arguments AssertionFailed {A}.
Arguments Blocked {A}.

Definition bind {A B} (x : outcome A) (f : A -> outcome B) : outcome B :=
  match x with
  | Done a => f a
  | AssertionFailed => AssertionFailed
  | Blocked => Blocked
  end.

(** the schedules of the precacher's worker during the fetches of one call *)
Record schedules : Type := mkSchedules {
  first_input : list wake;
  first_gt : list wake;
  second_input : list wake;
  second_gt : list wake
}.

(** the constructor, over the precachers of the loader *)
Definition IAsyncDataConsumer_ (pInput pGT : DataPrecacher.state) : state :=
  {| m_nLastIdx := 0; m_nCurrIdx := 0; m_nNextIdx := 1;
     input := {| m_oLast := []; m_oCurr := []; m_oNext := MatData [];
                 m_oPrecacher := pInput |};
     gt := {| m_oLast := []; m_oCurr := []; m_oNext := MatData [];
              m_oPrecacher := pGT |};
     applied := []; called_back := [] |}.

Section Consumer.

Variable getTotPackets : Z.
(** the callbacks of the two precachers *)
Variable load_input : Z -> Packet.
Variable load_gt : Z -> Packet.
(** [getDatasetInfo()->isUsingEvaluator()], [m_pAlgo->m_pDisplayHelper] and
    [m_lDataCallback] as conditions *)
Variable isUsingEvaluator : bool.
Variable bDisplayHelper : bool.
Variable bDataCallback : bool.

(** [m_oNext = getPacket(nIdx)] *)
Definition fetch_next (load : Z -> Packet) (nIdx : Z) (sched : list wake)
    (ch : channel) : outcome channel :=
  match getPacket load nIdx sched (m_oPrecacher ch) with
  | Some (m, p) =>
      Done {| m_oLast := m_oLast ch; m_oCurr := m_oCurr ch; m_oNext := m;
              m_oPrecacher := p |}
  | None => Blocked
  end.

(** [m_oCurr = getPacket(nCurrIdx).clone(); m_oNext = getPacket(nNextIdx).clone();
    m_oLast = m_oCurr.clone()] and the assertion that the current packet is
    not empty; the assertions on its continuity and on its channels concern
    the shape header, which is not part of a packet here *)
Definition fetch_first (load : Z -> Packet) (nCurrIdx nNextIdx : Z)
    (sched1 sched2 : list wake) (ch : channel) : outcome channel :=
  match getPacket load nCurrIdx sched1 (m_oPrecacher ch) with
  | Some (m1, p1) =>
      let oCurr := mat_bytes p1 m1 in
      match getPacket load nNextIdx sched2 p1 with
      | Some (m2, p2) =>
          if packet_size oCurr =? 0 then AssertionFailed
          else
            Done {| m_oLast := oCurr; m_oCurr := oCurr;
                    m_oNext := MatData (mat_bytes p2 m2);
                    m_oPrecacher := p2 |}
      | None => Blocked
      end
  | None => Blocked
  end.

(** [m_oCurr.copyTo(m_oLast); m_oNext.copyTo(m_oCurr)] *)
Definition shift (ch : channel) : channel :=
  {| m_oLast := m_oCurr ch;
     m_oCurr := mat_bytes (m_oPrecacher ch) (m_oNext ch);
     m_oNext := m_oNext ch;
     m_oPrecacher := m_oPrecacher ch |}.

(** [pre_initialize_gl] *)
Definition pre_initialize_gl (sched : schedules) (c : state) : outcome state :=
  if 1 <? getTotPackets then
    bind (fetch_first load_input (m_nCurrIdx c) (m_nNextIdx c)
            (first_input sched) (second_input sched) (input c))
      (fun chInput =>
         bind (if isUsingEvaluator
               then fetch_first load_gt (m_nCurrIdx c) (m_nNextIdx c)
                      (first_gt sched) (second_gt sched) (gt c)
               else Done (gt c))
           (fun chGT =>
              Done {| m_nLastIdx := m_nLastIdx c; m_nCurrIdx := m_nCurrIdx c;
                      m_nNextIdx := m_nNextIdx c;
                      input := chInput; gt := chGT;
                      applied := applied c; called_back := called_back c |}))
  else AssertionFailed.

(** [pre_apply_gl] *)
Definition pre_apply_gl (nNextIdx : Z) (sched : schedules) (c : state)
  : outcome state :=
  bind (if negb (nNextIdx =? m_nNextIdx c)
        then fetch_next load_input nNextIdx (first_input sched) (input c)
        else Done (input c))
    (fun chInput =>
       bind (if isUsingEvaluator && negb (nNextIdx =? m_nNextIdx c)
             then fetch_next load_gt nNextIdx (first_gt sched) (gt c)
             else Done (gt c))
         (fun chGT =>
            Done {| m_nLastIdx := m_nLastIdx c; m_nCurrIdx := m_nCurrIdx c;
                    m_nNextIdx := m_nNextIdx c;
                    input := chInput; gt := chGT;
                    applied := applied c; called_back := called_back c |})).

(** [post_apply_gl] *)
Definition post_apply_gl (nNextIdx : Z) (sched : schedules) (c : state)
  : outcome state :=
  let nLastIdx := m_nCurrIdx c in
  let nCurrIdx := nNextIdx in
  let nNextIdx' := wrap (nNextIdx + 1) in
  let chInput :=
    if bDisplayHelper || bDataCallback then shift (input c) else input c in
  let chGT :=
    if (bDisplayHelper || bDataCallback) && isUsingEvaluator
    then shift (gt c) else gt c in
  bind (if nNextIdx' <? getTotPackets
        then fetch_next load_input nNextIdx' (second_input sched) chInput
        else Done chInput)
    (fun chInput =>
       bind (if (nNextIdx' <? getTotPackets) && isUsingEvaluator
             then fetch_next load_gt nNextIdx' (second_gt sched) chGT
             else Done chGT)
         (fun chGT =>
            Done {| m_nLastIdx := nLastIdx; m_nCurrIdx := nCurrIdx;
                    m_nNextIdx := nNextIdx';
                    input := chInput; gt := chGT;
                    applied := applied c;
                    called_back :=
                      if bDataCallback
                      then called_back c
                           ++ [(m_oLast chInput, m_oLast chGT, nLastIdx)]
                      else called_back c |})).

(** [apply_gl]: [pre_apply_gl], the algorithm on [m_oNextInput],
    [post_apply_gl] *)
Definition apply_gl (nNextIdx : Z) (sched : schedules) (c : state)
  : outcome state :=
  bind (pre_apply_gl nNextIdx sched c)
    (fun c1 =>
       post_apply_gl nNextIdx sched
         {| m_nLastIdx := m_nLastIdx c1; m_nCurrIdx := m_nCurrIdx c1;
            m_nNextIdx := m_nNextIdx c1;
            input := input c1; gt := gt c1;
            applied :=
              applied c1
              ++ [(nNextIdx,
                   mat_bytes (m_oPrecacher (input c1)) (m_oNext (input c1)))];
            called_back := called_back c1 |}).

(** the precachers' workers take turns while the consumer is elsewhere *)
Definition idle (schedInput schedGT : list wake) (c : state) : state :=
  {| m_nLastIdx := m_nLastIdx c; m_nCurrIdx := m_nCurrIdx c;
     m_nNextIdx := m_nNextIdx c;
     input := {| m_oLast := m_oLast (input c); m_oCurr := m_oCurr (input c);
                 m_oNext := m_oNext (input c);
                 m_oPrecacher :=
                   worker_run load_input schedInput (m_oPrecacher (input c)) |};
     gt := {| m_oLast := m_oLast (gt c); m_oCurr := m_oCurr (gt c);
              m_oNext := m_oNext (gt c);
              m_oPrecacher :=
                worker_run load_gt schedGT (m_oPrecacher (gt c)) |};
     applied := applied c; called_back := called_back c |}.

(** a run: for each packet index, some turns of the workers and then
    [apply_gl] *)
Fixpoint apply_all (steps : list (Z * list wake * list wake * schedules))
    (c : state) : outcome state :=
  match steps with
  | [] => Done c
  | (nNextIdx, schedInput, schedGT, sched) :: steps' =>
      bind (apply_gl nNextIdx sched (idle schedInput schedGT c))
        (apply_all steps')
  end.

End Consumer.

(** every fetch of the call is answered: the worker is notified in each *)
Definition notifying (sched : schedules) : bool :=
  existsb is_notified (first_input sched)
  && existsb is_notified (first_gt sched)
  && existsb is_notified (second_input sched)
  && existsb is_notified (second_gt sched).

Definition notified_once : schedules :=
  {| first_input := [Notified]; first_gt := [Notified];
     second_input := [Notified]; second_gt := [Notified] |}.

(** the packet index a channel's next packet was fetched for: through a
    header of its own, or through the header the precacher handed out last *)
Definition holds (load : Z -> Packet) (ch : channel) (nHeld : Z) : Prop :=
  (exists data, m_oNext ch = MatData data /\ data = load nHeld) \/
  (m_oNext ch = m_oLastReqPacket (m_oPrecacher ch) /\
   m_nLastReqIdx (m_oPrecacher ch) = nHeld /\ nHeld <> SIZE_MAX).

(** the three packets of a channel are the packets of three indices *)
Definition channel_ok (load : Z -> Packet) (ch : channel)
    (nLast nCurr nHeld : Z) : Prop :=
  PrecacherSpec.state_inv load (m_oPrecacher ch) /\
  m_oLast ch = load nLast /\ m_oCurr ch = load nCurr /\ holds load ch nHeld.

(** the consumer between two calls of [apply_gl] *)
Definition consumer_ok (getTotPackets : Z) (load_input load_gt : Z -> Packet)
    (isUsingEvaluator : bool) (c : state) : Prop :=
  0 <= m_nCurrIdx c < getTotPackets /\
  exists nHeld,
    (nHeld = m_nNextIdx c \/
     (getTotPackets <= m_nNextIdx c /\ nHeld = m_nCurrIdx c)) /\
    channel_ok load_input (input c) (m_nLastIdx c) (m_nCurrIdx c) nHeld /\
    if isUsingEvaluator
    then channel_ok load_gt (gt c) (m_nLastIdx c) (m_nCurrIdx c) nHeld
    else m_oLast (gt c) = [].

(** the packet index of a step of a run *)
Definition step_index (step : Z * list wake * list wake * schedules) : Z :=
  fst (fst (fst step)).

Definition step_schedules (step : Z * list wake * list wake * schedules)
  : schedules := snd step.

End AsyncDataConsumer.
(** * Properties *)

(** ** size_t arithmetic *)

Lemma wrap_small z : 0 <= z < SIZE_MOD -> wrap z = z.
Proof. intros H. unfold wrap. now apply Z.mod_small. Qed.

Lemma wrap_range z : 0 <= wrap z < SIZE_MOD.
Proof. unfold wrap. apply Z.mod_pos_bound. reflexivity. Qed.

Lemma SIZE_MOD_eq : SIZE_MOD = 18446744073709551616.
Proof. reflexivity. Qed.

Lemma CACHE_MAX_SIZE_eq : CACHE_MAX_SIZE = 6442450944.
Proof. reflexivity. Qed.

Lemma packet_size_nonneg p : 0 <= packet_size p.
Proof. unfold packet_size. lia. Qed.

(** ** Ordered map *)

Module OrderedMapFacts.
Import OrderedMap.

Lemma ascending_from_keys lo m k :
  ascending_from lo m -> In k (keys m) -> lo < k.
Proof.
  revert lo. induction m as [|[k' v'] m IH]; simpl; intros lo Hasc Hin; [tauto|].
  destruct Hasc as [Hlo Hasc]. destruct Hin as [->|Hin]; [assumption|].
  specialize (IH _ Hasc Hin). lia.
Qed.

Lemma assign_ascending lo k v m :
  lo < k -> ascending_from lo m -> ascending_from lo (assign k v m).
Proof.
  revert lo. induction m as [|[k' v'] m IH]; simpl; intros lo Hlo Hasc.
  - tauto.
  - destruct Hasc as [Hk' Hasc].
    destruct (Z.ltb_spec k k').
    + simpl. repeat split; assumption || lia.
    + destruct (Z.eqb_spec k k') as [->|Hne].
      * simpl. split; assumption.
      * simpl. split; [assumption|]. apply IH; [lia|assumption].
Qed.

Lemma assign_ordered k v m : 0 <= k -> ordered m -> ordered (assign k v m).
Proof.
  intros Hk. destruct m as [|[k' v'] m]; simpl; [tauto|].
  intros [Hk' Hasc].
  destruct (Z.ltb_spec k k').
  - simpl. repeat split; assumption || lia.
  - destruct (Z.eqb_spec k k') as [->|Hne].
    + simpl. split; assumption.
    + simpl. split; [assumption|]. apply assign_ascending; [lia|assumption].
Qed.

Lemma find_assign_same k v m : find k (assign k v m) = Some v.
Proof.
  induction m as [|[k' v'] m IH]; simpl.
  - now rewrite Z.eqb_refl.
  - destruct (Z.ltb_spec k k'); simpl.
    + now rewrite Z.eqb_refl.
    + destruct (Z.eqb_spec k k') as [->|Hne]; simpl.
      * now rewrite Z.eqb_refl.
      * destruct (Z.eqb_spec k k'); [contradiction|assumption].
Qed.

Lemma find_assign_other k k0 v m : k0 <> k -> find k0 (assign k v m) = find k0 m.
Proof.
  intros Hne. induction m as [|[k' v'] m IH]; simpl.
  - destruct (Z.eqb_spec k0 k); [contradiction|reflexivity].
  - destruct (Z.ltb_spec k k'); simpl.
    + destruct (Z.eqb_spec k0 k); [contradiction|reflexivity].
    + destruct (Z.eqb_spec k k') as [->|Hne']; simpl.
      * destruct (Z.eqb_spec k0 k'); [contradiction|reflexivity].
      * destruct (Z.eqb_spec k0 k'); [reflexivity|assumption].
Qed.

Lemma rank_below lo k m :
  ascending_from lo m -> k <= lo -> rank k m = 0.
Proof.
  unfold rank, keys. revert lo. induction m as [|[k' v'] m IH]; simpl; intros lo Hasc Hk.
  - reflexivity.
  - destruct Hasc as [Hlo Hasc].
    destruct (Z.ltb_spec k' k); [lia|].
    simpl. apply (IH k'); [assumption|lia].
Qed.

Lemma rank_cons k k' v m :
  rank k ((k', v) :: m) = (if k' <? k then 1 else 0) + rank k m.
Proof.
  unfold rank, keys. simpl. destruct (k' <? k); simpl; lia.
Qed.

(** in an ordered map the iterator distance of a present key is the number
    of keys below it *)
Lemma distance_to_assign_rank lo k v m :
  ascending_from lo m ->
  distance_to k (assign k v m) = rank k (assign k v m).
Proof.
  revert lo. induction m as [|[k' v'] m IH]; intros lo Hasc.
  - simpl. rewrite rank_cons, Z.eqb_refl, Z.ltb_irrefl. reflexivity.
  - simpl in Hasc. destruct Hasc as [Hlo Hasc]. simpl.
    destruct (Z.ltb_spec k k') as [Hlt|Hge].
    + simpl. rewrite rank_cons, Z.eqb_refl, Z.ltb_irrefl. symmetry.
      apply (rank_below k); [|lia]. simpl. split; assumption.
    + destruct (Z.eqb_spec k k') as [->|Hne].
      * simpl. rewrite rank_cons, Z.eqb_refl, Z.ltb_irrefl. symmetry.
        apply (rank_below k'); [assumption|lia].
      * simpl. destruct (Z.eqb_spec k k'); [contradiction|].
        rewrite (IH k' Hasc), rank_cons.
        destruct (Z.ltb_spec k' k); [reflexivity|lia].
Qed.

Lemma find_above lo k m : ascending_from lo m -> k <= lo -> find k m = None.
Proof.
  revert lo. induction m as [|[k' v'] m IH]; simpl; intros lo Hasc Hk; [reflexivity|].
  destruct Hasc as [Hlo Hasc].
  destruct (Z.eqb_spec k k'); [lia|]. apply (IH k'); [assumption|lia].
Qed.

Lemma ordered_tail k v m : ordered ((k, v) :: m) -> ordered m.
Proof.
  simpl. intros [Hk Hasc]. destruct m as [|[k' v'] m]; simpl in *; [exact I|].
  destruct Hasc. split; [lia|assumption].
Qed.

End OrderedMapFacts.

(** ** Writer *)

Module WriterFacts.
Import OrderedMap OrderedMapFacts DataWriter.

Ltac writer_sizes :=
  pose proof SIZE_MOD_eq; pose proof CACHE_MAX_SIZE_eq;
  unfold SIZE_MAX, is_size_t in *;
  change (2 ^ 63) with 9223372036854775808 in *.

(** [queue] keeps states well-formed *)
Lemma queue_wf sink oPacket nIdx w nPos w' :
  wf w -> is_size_t nIdx ->
  queue sink oPacket nIdx w = Returned nPos w' -> wf w'.
Proof.
  intros (Hord & Hsz & Hcnt & Hact) Hidx. unfold queue, queue_insert.
  destruct (m_bIsActive w) eqn:Ha; simpl.
  - destruct (negb (m_bAllowPacketDrop w)
              && (m_nQueueMaxSize w <? wrap (m_nQueueSize w + packet_size oPacket)));
      [discriminate|].
    destruct (Z.leb_spec (wrap (m_nQueueSize w + packet_size oPacket))
                (m_nQueueMaxSize w)) as [Hfit|].
    + intros Heq; inversion Heq; subst; clear Heq.
      unfold wf; simpl. split; [apply assign_ordered; [apply Hidx|exact Hord]|].
      split; [apply wrap_range|]. split; [apply wrap_range|].
      intros _. split; [exact Hfit|now apply Hact].
    + intros Heq; inversion Heq; subst. unfold wf. rewrite Ha. auto.
  - intros Heq; inversion Heq; subst; clear Heq.
    unfold wf; simpl. rewrite Ha.
    split; [exact Hord|]. split; [exact Hsz|]. split; [exact Hcnt|].
    intros Hf; discriminate Hf.
Qed.

(** a worker turn keeps states well-formed *)
Lemma entry_step_wf w w' : wf w -> entry_step w = Sunk w' -> wf w'.
Proof.
  intros (Hord & Hsz & Hcnt & Hact). unfold entry_step.
  destruct (m_bIsActive w || (0 <? m_nQueueCount w)); [|discriminate].
  destruct (m_nQueueCount w =? 0); [discriminate|].
  destruct (m_mQueue w) as [|[k v] rest] eqn:Hq; [discriminate|].
  destruct (Z.leb_spec (packet_size v) (m_nQueueSize w)) as [Hle|]; [|discriminate].
  intros Heq; inversion Heq; subst; clear Heq.
  pose proof (packet_size_nonneg v). writer_sizes.
  unfold wf; simpl. split; [now apply ordered_tail in Hord|].
  split; [apply wrap_range|]. split; [apply wrap_range|].
  intros Ha. specialize (Hact Ha). rewrite wrap_small by lia. lia.
Qed.

Lemma drain_wf n : forall w w', wf w -> drain n w = Some w' -> wf w'.
Proof.
  induction n as [|n IH]; intros w w' Hwf; simpl;
    destruct (entry_step w) as [| | |w1] eqn:Hstep;
    try discriminate; try (intros H; inversion H; subst; exact Hwf).
  intros H. apply (IH w1); [|exact H]. now apply (entry_step_wf w).
Qed.

Lemma stopAsyncWriting_wf w w' : wf w -> stopAsyncWriting w = Some w' -> wf w'.
Proof.
  intros Hwf. unfold stopAsyncWriting.
  destruct (m_bIsActive w) eqn:Hact; [|intros H; inversion H; subst; exact Hwf].
  simpl.
  assert (Hwf1 : wf {| m_bIsActive := false;
                       m_bAllowPacketDrop := m_bAllowPacketDrop w;
                       m_nQueueMaxSize := m_nQueueMaxSize w;
                       m_nQueueSize := m_nQueueSize w;
                       m_nQueueCount := m_nQueueCount w;
                       m_mQueue := m_mQueue w; m_vhWorkers := m_vhWorkers w;
                       archived := archived w |}).
  { destruct Hwf as (H1 & H2 & H3 & _). unfold wf; simpl.
    split; [exact H1|]. split; [exact H2|]. split; [exact H3|].
    intros Hf; discriminate Hf. }
  destruct (m_vhWorkers w) as [|t ts].
  - intros H; inversion H; subst. exact Hwf1.
  - destruct (forallb (fun joinable : bool => joinable) (t :: ts)); [|discriminate].
    match goal with
    | |- context [drain ?n ?w0] =>
        destruct (drain n w0) as [w2|] eqn:Hdrain; [|discriminate]
    end.
    intros H; inversion H; subst; clear H.
    apply drain_wf in Hdrain; [|exact Hwf1].
    destruct Hdrain as (H1 & H2 & H3 & H4). unfold wf; simpl. auto.
Qed.

Lemma startAsyncWriting_wf n bDrop nWorkers w bStarted w' :
  wf w -> startAsyncWriting n bDrop nWorkers w = Some (bStarted, w') -> wf w'.
Proof.
  intros Hwf. unfold startAsyncWriting.
  assert (Hstop : forall w1,
            (if m_bIsActive w then stopAsyncWriting w else Some w) = Some w1 -> wf w1).
  { intros w1. destruct (m_bIsActive w).
    - now apply stopAsyncWriting_wf.
    - intros H; inversion H; subst; exact Hwf. }
  destruct (if m_bIsActive w then stopAsyncWriting w else Some w) as [w1|];
    [|discriminate].
  specialize (Hstop w1 eq_refl).
  destruct (Z.ltb_spec 0 n) as [Hn|Hn]; intros Heq; inversion Heq; subst; clear Heq;
    [|exact Hstop].
  writer_sizes. unfold wf, is_size_t; simpl.
  split; [exact I|]. split; [lia|]. split; [lia|]. intros _.
  destruct (Z.ltb_spec CACHE_MAX_SIZE n); lia.
Qed.

(** every state of a writer is well-formed *)
Lemma reachable_wf sink w : reachable sink w -> wf w.
Proof.
  induction 1 as [g|w n d k b w' _ IH Hs|w pkt idx pos w' _ IH Hi Hq|w w' _ IH Ht].
  - writer_sizes. unfold wf, is_size_t; simpl.
    split; [exact I|]. split; [lia|]. split; [lia|]. intros Hf; discriminate Hf.
  - now apply (startAsyncWriting_wf n d k w b w').
  - now apply (queue_wf sink pkt idx w pos w').
  - now apply (entry_step_wf w w').
Qed.

(** C2 (as the code has it): when an index that is still pending is queued
    again, the byte counter grows by the new length while the map keeps a
    single entry for the index.  After two 3-byte packets queued under
    index 7 the counter reads 6 and the packet counter 2, while the pending
    map holds one packet of 3 bytes; the worker's second turn then fails
    the assertion that a counted packet is present. *)
Theorem queue_duplicate_index_overcounts :
  m_bIsActive Examples.writer_queued_twice = true /\
  m_nQueueSize Examples.writer_queued_twice = 6 /\
  m_nQueueCount Examples.writer_queued_twice = 2 /\
  m_mQueue Examples.writer_queued_twice = [(7, [Byte.x04; Byte.x05; Byte.x06])] /\
  total_bytes (m_mQueue Examples.writer_queued_twice) = 3 /\
  (exists w, entry_step Examples.writer_queued_twice = Sunk w /\
             m_nQueueSize w = 3 /\ m_mQueue w = [] /\
             entry_step w = AssertionFailed).
Proof.
  repeat split; try reflexivity.
  eexists. split; [reflexivity|]. repeat split; reflexivity.
Qed.

(** As long as every queued index is new to the pending map, the byte
    counter is the sum of the pending lengths. *)
Lemma total_bytes_assign_fresh k v m :
  find k m = None -> total_bytes (assign k v m) = packet_size v + total_bytes m.
Proof.
  induction m as [|[k' v'] m IH]; simpl; intros Hf; [lia|].
  destruct (Z.ltb_spec k k'); simpl; [lia|].
  destruct (Z.eqb_spec k k'); [discriminate|].
  simpl. rewrite IH by assumption. lia.
Qed.

Lemma queue_fresh_byte_count sink oPacket nIdx w nPos w' :
  wf w -> byte_count_ok w -> packet_size oPacket < 2 ^ 63 ->
  find nIdx (m_mQueue w) = None ->
  queue sink oPacket nIdx w = Returned nPos w' -> byte_count_ok w'.
Proof.
  intros (_ & Hsz & _ & Hact) Hw1 Hsmall Hfresh. unfold queue, queue_insert, byte_count_ok in *.
  pose proof (packet_size_nonneg oPacket).
  destruct (m_bIsActive w) eqn:Ha; simpl.
  - destruct (negb (m_bAllowPacketDrop w)
              && (m_nQueueMaxSize w <? wrap (m_nQueueSize w + packet_size oPacket)));
      [discriminate|].
    specialize (Hact eq_refl). writer_sizes.
    rewrite (wrap_small (m_nQueueSize w + packet_size oPacket)) by lia.
    destruct (m_nQueueSize w + packet_size oPacket <=? m_nQueueMaxSize w);
      intros Heq; inversion Heq; subst; clear Heq; simpl; [|exact Hw1].
    rewrite total_bytes_assign_fresh by exact Hfresh. lia.
  - intros Heq; inversion Heq; subst. exact Hw1.
Qed.

Lemma entry_step_byte_count w w' :
  wf w -> byte_count_ok w -> entry_step w = Sunk w' -> byte_count_ok w'.
Proof.
  intros (_ & Hsz & _) Hw1. unfold entry_step, byte_count_ok in *.
  destruct (m_bIsActive w || (0 <? m_nQueueCount w)); [|discriminate].
  destruct (m_nQueueCount w =? 0); [discriminate|].
  destruct (m_mQueue w) as [|[k v] rest]; [discriminate|].
  destruct (Z.leb_spec (packet_size v) (m_nQueueSize w)); [|discriminate].
  intros Heq; inversion Heq; subst; clear Heq. simpl in *.
  pose proof (packet_size_nonneg v). writer_sizes.
  rewrite wrap_small by lia. lia.
Qed.

(** A writer without drop policy suspends the caller when the packet does
    not fit; with the drop policy it returns the sentinel. *)
Example queue_blocks_when_full :
  queue Examples.sink_idx (repeat Byte.x00 98) 9 Examples.writer_two_pending
  = Blocked Examples.writer_two_pending.
Proof. reflexivity. Qed.

Example queue_drops_when_full :
  queue Examples.sink_idx (repeat Byte.x00 101) 9 (Examples.writer_started true)
  = Returned SIZE_MAX (Examples.writer_started true).
Proof. reflexivity. Qed.

Example queue_out_of_order_positions :
  queue Examples.sink_idx [Byte.x02; Byte.x03] 8 (Examples.writer_started false)
  = Returned 0 (Examples.writer_after [Byte.x02; Byte.x03] 8
                  (Examples.writer_started false)) /\
  m_mQueue Examples.writer_two_pending
  = [(3, [Byte.x01]); (8, [Byte.x02; Byte.x03])] /\
  archived Examples.writer_after_turn = [([Byte.x01], 3)].
Proof. repeat split; reflexivity. Qed.


(** C5: a worker turn that sinks a packet took the entry with the smallest
    pending index: it removes exactly that entry, lowers the byte counter by
    its length and hands that packet and index to the sink.  If the same
    worker takes the next turn with nothing queued in between, it sinks a
    strictly larger index. *)
Theorem entry_step_takes_smallest w w' :
  wf w -> entry_step w = Sunk w' ->
  exists nPacketIdx oPacketData,
    find nPacketIdx (m_mQueue w) = Some oPacketData /\
    (forall k, In k (keys (m_mQueue w)) -> nPacketIdx <= k) /\
    find nPacketIdx (m_mQueue w') = None /\
    (forall k, k <> nPacketIdx -> find k (m_mQueue w') = find k (m_mQueue w)) /\
    m_nQueueSize w' = m_nQueueSize w - packet_size oPacketData /\
    archived w' = archived w ++ [(oPacketData, nPacketIdx)] /\
    (forall w'', entry_step w' = Sunk w'' ->
       exists nPacketIdx' oPacketData',
         archived w'' = archived w' ++ [(oPacketData', nPacketIdx')] /\
         nPacketIdx < nPacketIdx').
Proof.
  intros (Hord & Hsz & Hcnt & Hact). unfold entry_step at 1.
  destruct (m_bIsActive w || (0 <? m_nQueueCount w)); [|discriminate].
  destruct (m_nQueueCount w =? 0); [discriminate|].
  destruct (m_mQueue w) as [|[k v] rest] eqn:Hq; [discriminate|].
  destruct (Z.leb_spec (packet_size v) (m_nQueueSize w)) as [Hle|]; [|discriminate].
  intros Heq; inversion Heq; subst w'; clear Heq. simpl.
  simpl in Hord. destruct Hord as [Hk Hasc].
  pose proof (packet_size_nonneg v). writer_sizes.
  exists k, v. rewrite Z.eqb_refl.
  split; [reflexivity|].
  split.
  { intros k' [<-|Hin]; [lia|].
    pose proof (ascending_from_keys _ _ _ Hasc Hin). lia. }
  split; [apply (find_above k); [exact Hasc|lia]|].
  split.
  { intros k' Hneq. destruct (Z.eqb_spec k' k); [contradiction|reflexivity]. }
  split; [apply wrap_small; lia|].
  split; [reflexivity|].
  intros w''. unfold entry_step. simpl.
  destruct (m_bIsActive w || (0 <? wrap (m_nQueueCount w - 1))); [|discriminate].
  destruct (wrap (m_nQueueCount w - 1) =? 0); [discriminate|].
  destruct rest as [|[k2 v2] rest]; [discriminate|].
  destruct (packet_size v2 <=? wrap (m_nQueueSize w - packet_size v)); [|discriminate].
  intros Heq; inversion Heq; subst w''; clear Heq. simpl.
  exists k2, v2. split; [reflexivity|]. simpl in Hasc. tauto.
Qed.

Lemma writer_two_pending_wf : wf Examples.writer_two_pending.
Proof.
  unfold wf. vm_compute.
  repeat split; try discriminate; try reflexivity.
Qed.


Lemma entry_step_takes_smallest_witness :
  exists nPacketIdx oPacketData,
    find nPacketIdx (m_mQueue Examples.writer_two_pending) = Some oPacketData /\
    (forall k, In k (keys (m_mQueue Examples.writer_two_pending)) -> nPacketIdx <= k) /\
    find nPacketIdx (m_mQueue Examples.writer_after_turn) = None /\
    m_nQueueSize Examples.writer_after_turn
    = m_nQueueSize Examples.writer_two_pending - packet_size oPacketData /\
    archived Examples.writer_after_turn
    = archived Examples.writer_two_pending ++ [(oPacketData, nPacketIdx)].
Proof.
  destruct (entry_step_takes_smallest Examples.writer_two_pending
              Examples.writer_after_turn writer_two_pending_wf)
    as (k & v & Hfind & Hmin & Hgone & _ & Hsize & Hlog & _).
  - vm_compute. reflexivity.
  - exists k, v. auto.
Defined.

Lemma total_bytes_nonneg m : 0 <= total_bytes m.
Proof.
  induction m as [|[k v] m IH]; simpl; [lia|].
  pose proof (packet_size_nonneg v). lia.
Qed.

(** Once the writer is stopped, a worker sinks all that is pending, in the
    order of the map, that is by ascending index, provided the two counters
    agree with the map. *)
Lemma drain_ascending : forall m w,
  m_mQueue w = m -> wf w -> m_bIsActive w = false ->
  m_nQueueCount w = Z.of_nat (length m) -> byte_count_ok w ->
  exists w',
    drain (length m) w = Some w' /\
    m_mQueue w' = [] /\
    archived w' = archived w ++ map (fun kv => (snd kv, fst kv)) m.
Proof.
  induction m as [|[k v] rest IH]; intros w Hq Hwf Hact Hcnt Hbytes.
  - exists w. simpl. unfold entry_step. rewrite Hact, Hcnt. simpl.
    split; [destruct (length (A := Z * Packet) []); reflexivity|].
    split; [exact Hq|]. now rewrite app_nil_r.
  - pose proof Hwf as (_ & Hsz & Hc & _).
    pose proof (packet_size_nonneg v). pose proof (total_bytes_nonneg rest).
    unfold byte_count_ok in Hbytes. rewrite Hq in Hbytes. simpl in Hbytes.
    simpl length in *. writer_sizes.
    set (w1 := {| m_bIsActive := m_bIsActive w;
                  m_bAllowPacketDrop := m_bAllowPacketDrop w;
                  m_nQueueMaxSize := m_nQueueMaxSize w;
                  m_nQueueSize := wrap (m_nQueueSize w - packet_size v);
                  m_nQueueCount := wrap (m_nQueueCount w - 1);
                  m_mQueue := rest; m_vhWorkers := m_vhWorkers w;
                  archived := archived w ++ [(v, k)] |}).
    assert (Hstep : entry_step w = Sunk w1).
    { unfold entry_step, w1. rewrite Hq.
      destruct (Z.ltb_spec 0 (m_nQueueCount w)); [|lia].
      rewrite orb_true_r.
      destruct (Z.eqb_spec (m_nQueueCount w) 0); [lia|].
      destruct (Z.leb_spec (packet_size v) (m_nQueueSize w)); [reflexivity|lia]. }
    destruct (IH w1) as (w' & Hd & Hempty & Hlog).
    + reflexivity.
    + now apply (entry_step_wf w).
    + exact Hact.
    + unfold w1. simpl. rewrite wrap_small by lia. lia.
    + unfold byte_count_ok, w1. simpl. rewrite wrap_small by lia. lia.
    + exists w'. split; [|split; [exact Hempty|]].
      * simpl. rewrite Hstep. exact Hd.
      * rewrite Hlog. unfold w1. simpl. rewrite <- app_assoc. reflexivity.
Qed.

(** the workers' last turns change neither the flag nor the thread vector *)
Lemma drain_keeps n : forall w1 w2,
  drain n w1 = Some w2 ->
  m_bIsActive w2 = m_bIsActive w1 /\ m_vhWorkers w2 = m_vhWorkers w1.
Proof.
  induction n as [|n IH]; intros w1 w2; simpl; unfold entry_step;
    destruct (m_bIsActive w1 || (0 <? m_nQueueCount w1));
    try (intros H; inversion H; subst; auto; fail);
    destruct (m_nQueueCount w1 =? 0);
    try (intros H; inversion H; subst; auto; fail);
    destruct (m_mQueue w1) as [|[k v] rest]; try discriminate;
    destruct (packet_size v <=? m_nQueueSize w1); try discriminate.
  intros H. apply IH in H. simpl in H. exact H.
Qed.

(** a stop that returns leaves the writer inactive with as many thread
    objects as before *)
Lemma stopAsyncWriting_stops w w1 :
  m_bIsActive w = true -> stopAsyncWriting w = Some w1 ->
  m_bIsActive w1 = false /\ length (m_vhWorkers w1) = length (m_vhWorkers w).
Proof.
  intros Hact. unfold stopAsyncWriting. rewrite Hact. simpl.
  destruct (m_vhWorkers w) as [|t ts] eqn:Hts.
  - intros H; inversion H; subst. simpl. auto.
  - destruct (forallb (fun joinable : bool => joinable) (t :: ts)); [|discriminate].
    match goal with
    | |- context [drain ?n ?w0] =>
        destruct (drain n w0) as [w2|] eqn:Hdrain; [|discriminate]
    end.
    intros H; inversion H; subst; clear H. simpl.
    destruct (drain_keeps _ _ _ Hdrain) as [Ha Hv]. simpl in Ha, Hv.
    rewrite Ha, Hv, length_map. auto.
Qed.

End WriterFacts.

(** ** Precacher: the scratch buffer *)

Module PrecacherFacts.
Import DataPrecacher PrecacherSpec.

Lemma length_copyTo p o buf : length (copyTo p o buf) = length buf.
Proof. unfold copyTo. apply length_inserts. Qed.

(** a header reads back the packet that was copied through it *)
Lemma view_bytes_copyTo_same p o buf :
  0 <= o -> o + packet_size p <= Z.of_nat (length buf) ->
  view_bytes (copyTo p o buf) o (packet_size p) = p.
Proof.
  unfold view_bytes, copyTo, packet_size. intros Ho Hfit.
  rewrite Nat2Z.id. apply list_eq; intros i.
  destruct (decide (i < length p)%nat) as [Hi|Hi].
  - rewrite lookup_take_lt by assumption. rewrite lookup_drop.
    rewrite list_lookup_inserts by lia. f_equal. lia.
  - rewrite lookup_take_ge by lia. symmetry. apply lookup_ge_None_2. lia.
Qed.

(** a copy leaves every region it does not overlap as it was *)
Lemma view_bytes_copyTo_other p o buf off len :
  0 <= o -> 0 <= off -> 0 <= len ->
  off + len <= o \/ o + packet_size p <= off ->
  view_bytes (copyTo p o buf) off len = view_bytes buf off len.
Proof.
  unfold view_bytes, copyTo, packet_size. intros Ho Hoff Hlen Hdisj.
  apply list_eq; intros i.
  destruct (decide (i < Z.to_nat len)%nat) as [Hi|Hi].
  - rewrite !lookup_take_lt by assumption. rewrite !lookup_drop.
    destruct Hdisj as [Hd|Hd].
    + apply list_lookup_inserts_lt. lia.
    + apply list_lookup_inserts_ge. lia.
  - rewrite !lookup_take_ge by lia. reflexivity.
Qed.

(** ** Precacher: regions in ring order *)

Lemma asc_bounds lo hi L : asc lo hi L -> lo <= hi.
Proof.
  revert lo. induction L as [|[off len] L IH]; simpl; intros lo H; [assumption|].
  destruct H as (Hlo & Hlen & Hrest). specialize (IH _ Hrest). lia.
Qed.

Lemma asc_widen lo lo' hi hi' L :
  lo' <= lo -> hi <= hi' -> asc lo hi L -> asc lo' hi' L.
Proof.
  revert lo lo'. induction L as [|[off len] L IH]; simpl; intros lo lo' Hlo Hhi H.
  - lia.
  - destruct H as (H1 & H2 & H3). repeat split; [lia|assumption|].
    apply (IH (off + len)); [lia|assumption|assumption].
Qed.

Lemma asc_app lo hi L1 L2 :
  asc lo hi (L1 ++ L2) <-> exists mid, asc lo mid L1 /\ asc mid hi L2.
Proof.
  revert lo. induction L1 as [|[off len] L1 IH]; simpl; intros lo.
  - split.
    + intros H. exists lo. split; [lia|assumption].
    + intros (mid & Hm & H). apply (asc_widen mid lo hi hi); [assumption|lia|assumption].
  - split.
    + intros (H1 & H2 & H3). apply IH in H3 as (mid & Ha & Hb).
      exists mid. auto.
    + intros (mid & (H1 & H2 & H3) & Hb). repeat split; [assumption..|].
      apply IH. exists mid. auto.
Qed.

Lemma asc_snoc lo X L len :
  asc lo X L -> 0 < len -> asc lo (X + len) (L ++ [(X, len)]).
Proof.
  intros H Hlen. apply asc_app. exists X. split; [assumption|].
  simpl. lia.
Qed.

(** every region of an ascending layout lies inside its bounds *)
Lemma asc_inside lo hi L off len :
  asc lo hi L -> In (off, len) L -> lo <= off /\ 0 < len /\ off + len <= hi.
Proof.
  revert lo. induction L as [|[o l] L IH]; simpl; intros lo H Hin; [tauto|].
  destruct H as (H1 & H2 & H3). destruct Hin as [Heq|Hin].
  - inversion Heq; subst. apply asc_bounds in H3. lia.
  - specialize (IH _ H3 Hin). lia.
Qed.

Lemma asc_length lo hi L : asc lo hi L -> Z.of_nat (length L) <= hi - lo.
Proof.
  revert lo. induction L as [|[o l] L IH]; simpl length; intros lo H.
  - simpl in H. lia.
  - destruct H as (H1 & H2 & H3). specialize (IH _ H3). lia.
Qed.

(** the number of regions in use never exceeds the number of bytes *)
Lemma ring_ok_length B F X L :
  0 < B -> ring_ok B F X L -> Z.of_nat (length L) < B.
Proof.
  intros HB [(-> & -> & ->)|[(HF & HX & Hasc)|(HX & HXF & HF & L1 & L2 & -> & H1 & H2)]].
  - simpl. lia.
  - apply asc_length in Hasc. lia.
  - apply asc_length in H1, H2. rewrite length_app. lia.
Qed.

(** where a region in use can be *)
Lemma ring_ok_inside B F X L off len :
  ring_ok B F X L -> In (off, len) L ->
  0 < len /\
  ((0 <= F /\ F <= off /\ off + len <= X /\ X < B) \/
   (0 <= X /\ X < F /\ F < B /\
    ((F <= off /\ off + len <= B) \/ (0 <= off /\ off + len <= X)))).
Proof.
  intros [(-> & -> & ->)|[(HF & HX & Hasc)|(HX & HXF & HF & L1 & L2 & -> & H1 & H2)]] Hin.
  - destruct Hin.
  - apply (asc_inside _ _ _ _ _ Hasc) in Hin. lia.
  - apply in_app_or in Hin as [Hin|Hin].
    + apply (asc_inside _ _ _ _ _ H1) in Hin. lia.
    + apply (asc_inside _ _ _ _ _ H2) in Hin. lia.
Qed.

(** the ring after the head region is released up to the next one *)
Lemma ring_ok_tail B F X a off len L :
  ring_ok B F X (a :: (off, len) :: L) -> ring_ok B off X ((off, len) :: L).
Proof.
  intros [(_ & _ & Hnil)|[(HF & HX & Hasc)|(HX & HXF & HF & L1 & L2 & HL & H1 & H2)]].
  - discriminate.
  - right; left. destruct a as [o l]. simpl in Hasc.
    destruct Hasc as (H1 & H2 & H3 & H4 & H5).
    split; [lia|]. split; [assumption|]. simpl. repeat split; [lia|assumption..].
  - destruct L1 as [|a1 L1].
    + simpl in HL. subst L2. right; left. destruct a as [o l]. simpl in H2.
      destruct H2 as (Ha & Hb & Hc & Hd & He).
      split; [lia|]. split; [lia|]. simpl. repeat split; [lia|assumption..].
    + simpl in HL. inversion HL; subst a1. destruct a as [o l].
      simpl in H1. destruct H1 as (Ha & Hb & Hc).
      destruct L1 as [|a2 L1].
      * simpl in H3. subst L2. right; left. simpl in H2.
        destruct H2 as (Hd & He & Hf).
        split; [lia|]. split; [lia|]. simpl. repeat split; [lia|assumption..].
      * simpl in H3. inversion H3; subst a2. subst L.
        simpl in Hc. destruct Hc as (Hd & He & Hf).
        pose proof (asc_bounds _ _ _ Hf).
        right; right. split; [assumption|]. split; [lia|]. split; [lia|].
        exists ((off, len) :: L1), L2. split; [reflexivity|].
        split; [|assumption]. simpl. repeat split; [lia|assumption..].
Qed.

(** the ring with its first used position moved to its first region *)
Lemma ring_ok_head B F X off len L :
  ring_ok B F X ((off, len) :: L) -> ring_ok B off X ((off, len) :: L).
Proof.
  intros [(_ & _ & Hnil)|[(HF & HX & Hasc)|(HX & HXF & HF & L1 & L2 & HL & H1 & H2)]].
  - discriminate.
  - right; left. simpl in Hasc. destruct Hasc as (H1 & H2 & H3).
    split; [lia|]. split; [assumption|]. simpl. repeat split; [lia|assumption..].
  - destruct L1 as [|a1 L1].
    + simpl in HL. subst L2. right; left. simpl in H2.
      destruct H2 as (Ha & Hb & Hc).
      split; [lia|]. split; [lia|]. simpl. repeat split; [lia|assumption..].
    + simpl in HL. inversion HL; subst a1. subst L.
      simpl in H1. destruct H1 as (Ha & Hb & Hc).
      pose proof (asc_bounds _ _ _ Hc).
      right; right. split; [assumption|]. split; [lia|]. split; [lia|].
      exists ((off, len) :: L1), L2. split; [reflexivity|].
      split; [|assumption]. simpl. repeat split; [lia|assumption..].
Qed.


(** ** Precacher: enqueueing a packet *)

Ltac sizes :=
  pose proof SIZE_MOD_eq; pose proof CACHE_MAX_SIZE_eq;
  unfold SIZE_MAX, is_size_t in *;
  change (2 ^ 63) with 9223372036854775808 in *.

Lemma wrap_wrap_succ z : wrap (wrap z + 1) = wrap (z + 1).
Proof. unfold wrap. apply Z.add_mod_idemp_l. rewrite SIZE_MOD_eq. lia. Qed.

Lemma wrap_succ_pred z : is_size_t z -> wrap (wrap (z + 1) - 1) = z.
Proof.
  intros Hz. sizes.
  destruct (Z.eq_dec z (SIZE_MOD - 1)) as [->|Hne].
  - rewrite H. reflexivity.
  - rewrite (wrap_small (z + 1)) by lia. replace (z + 1 - 1) with z by lia.
    apply wrap_small. lia.
Qed.

Lemma wrap_add_assoc a b : wrap (wrap (a + 1) + b) = wrap (a + (1 + b)).
Proof.
  unfold wrap. rewrite Z.add_mod_idemp_l by (rewrite SIZE_MOD_eq; lia).
  f_equal. lia.
Qed.

Lemma consecutive_snoc a l :
  is_size_t a ->
  consecutive a l -> consecutive a (l ++ [wrap (a + Z.of_nat (length l))]).
Proof.
  revert a. induction l as [|x l IH]; intros a Ha H.
  - simpl. split; [|exact I]. rewrite Z.add_0_r. apply wrap_small, Ha.
  - destruct H as [-> H].
    assert (E : wrap (a + Z.of_nat (length (a :: l)))
                = wrap (wrap (a + 1) + Z.of_nat (length l))).
    { rewrite wrap_add_assoc. f_equal. simpl length. lia. }
    rewrite E. simpl. split; [reflexivity|].
    apply IH; [apply wrap_range|assumption].
Qed.

Section WorkerFacts.

Variable load : Z -> Packet.

Lemma live_spans_push req q s :
  live_spans req (q ++ [s]) = live_spans req q ++ [slot_span s].
Proof. unfold live_spans. rewrite map_app, app_assoc. reflexivity. Qed.

Lemma slot_span_live req q s : In s q -> In (slot_span s) (live_spans req q).
Proof.
  intros H. unfold live_spans. apply in_or_app. right. now apply in_map.
Qed.

Lemma req_span_live req q nOffset nSize :
  req = MatView nOffset nSize -> In (nOffset, nSize) (live_spans req q).
Proof. intros ->. unfold live_spans. simpl. now left. Qed.

(** Enqueueing the next packet at a place that is free keeps the worker's
    invariant and leaves the published packet as it was. *)
Lemma cache_push_inv w req o F' X' :
  worker_inv load w req ->
  0 < packet_size (load (nNextPrecacheIdx w)) -> 0 <= o ->
  o + packet_size (load (nNextPrecacheIdx w)) <= nBufferSize w ->
  ring_ok (nBufferSize w) F' X'
    (live_spans req (qoCache w) ++ [(o, packet_size (load (nNextPrecacheIdx w)))]) ->
  (forall off len, In (off, len) (live_spans req (qoCache w)) ->
     0 <= off /\ 0 <= len /\
     (off + len <= o \/ o + packet_size (load (nNextPrecacheIdx w)) <= off)) ->
  worker_inv load (cache_push (load (nNextPrecacheIdx w)) o F' X' w) req /\
  req_bytes (cache_push (load (nNextPrecacheIdx w)) o F' X' w) req = req_bytes w req.
Proof.
  intros (HB & Hlen & Hne & Hring & Hslots & Hcons & Hnp & Hreq) Hsz Ho Hfit Hring' Hfree.
  assert (Hreq' : req_bytes (cache_push (load (nNextPrecacheIdx w)) o F' X' w) req
                  = req_bytes w req).
  { destruct req as [data|nOffset nSize]; [reflexivity|]. simpl.
    destruct (Hfree nOffset nSize) as (? & ? & ?);
      [now apply req_span_live|].
    now apply view_bytes_copyTo_other. }
  split; [|exact Hreq'].
  unfold worker_inv. simpl.
  split; [exact HB|]. split; [rewrite length_copyTo; exact Hlen|].
  split; [exact Hne|].
  split; [rewrite live_spans_push; exact Hring'|].
  split.
  { apply Forall_app. split.
    - rewrite Forall_forall in Hslots |- *. intros s Hs.
      destruct (Hslots s Hs) as [Hl Hb]. split; [exact Hl|].
      rewrite <- Hb.
      destruct (Hfree (slot_off s) (slot_len s)) as (? & ? & ?);
        [apply (slot_span_live req _ s), list_elem_of_In, Hs|].
      now apply view_bytes_copyTo_other.
    - constructor; [|constructor]. split; simpl; [reflexivity|].
      apply view_bytes_copyTo_same; [exact Ho|lia]. }
  split.
  { rewrite map_app. simpl. rewrite Hnp.
    rewrite <- (length_map slot_idx). now apply consecutive_snoc. }
  split.
  { rewrite Hnp, length_app. simpl. rewrite wrap_wrap_succ. f_equal. lia. }
  intros Hne0. rewrite <- (Hreq Hne0). exact Hreq'.
Qed.

Hypothesis load_ok : loader_ok load.

(** the locals after a successful attempt of the fill loop *)
Lemma fill_attempt_inv w req w' :
  worker_inv load w req -> fill_attempt load w = Some w' ->
  worker_inv load w' req /\ req_bytes w' req = req_bytes w req /\
  (exists o F' X', w' = cache_push (load (nNextPrecacheIdx w)) o F' X' w) /\
  0 < packet_size (load (nNextPrecacheIdx w)) < nBufferSize w.
Proof using load_ok.
  intros Hinv Hatt.
  pose proof Hinv as (HB & Hlen & Hne & Hring & _).
  pose proof (load_ok (nNextPrecacheIdx w)) as Hsmall.
  pose proof (packet_size_nonneg (load (nNextPrecacheIdx w))) as Hnn.
  unfold fill_attempt in Hatt.
  set (sz := packet_size (load (nNextPrecacheIdx w))) in *.
  destruct (Z.eqb_spec sz 0) as [|Hsz0]; [discriminate|].
  assert (Hsz : 0 < sz) by lia.
  assert (Hin := fun off len => ring_ok_inside _ _ _ _ off len Hring).
  sizes.
  destruct Hring as [(HF & HX & HL)|[(HF & HX & Hasc)|(HX & HXF & HF & L1 & L2 & HL & H1 & H2)]].
  - (* the ring was forgotten *)
    rewrite HF, HX in Hatt.
    replace (SIZE_MOD - 1 <=? SIZE_MOD - 1) with true in Hatt
      by (symmetry; apply Z.leb_le; lia).
    rewrite Z.eqb_refl in Hatt. simpl in Hatt.
    destruct (Z.leb_spec (nBufferSize w) sz); [discriminate|].
    inversion Hatt; subst w'; clear Hatt.
    destruct (cache_push_inv w req 0 0 sz Hinv) as [Hi Hr]; fold sz; try lia.
    + rewrite HL. simpl. right; left. simpl. lia.
    + rewrite HL. simpl. tauto.
    + split; [exact Hi|]. split; [exact Hr|]. split; [eauto|lia].
  - (* no wrap-around pending *)
    pose proof (asc_bounds _ _ _ Hasc) as HFX.
    destruct (Z.leb_spec (nFirstBufferIdx w) (nNextBufferIdx w)); [|lia].
    destruct (Z.eqb_spec (nNextBufferIdx w) (SIZE_MOD - 1)); [lia|].
    rewrite (wrap_small (nNextBufferIdx w + sz)) in Hatt by lia.
    simpl in Hatt.
    destruct (Z.leb_spec (nBufferSize w) (nNextBufferIdx w + sz)).
    + destruct (Z.eqb_spec (nFirstBufferIdx w) (SIZE_MOD - 1)); [lia|].
      simpl in Hatt.
      destruct (Z.leb_spec (nFirstBufferIdx w) sz); [discriminate|].
      simpl in Hatt.
      destruct (Z.leb_spec (nBufferSize w) sz); [discriminate|].
      inversion Hatt; subst w'; clear Hatt.
      destruct (cache_push_inv w req 0 (nFirstBufferIdx w) sz Hinv) as [Hi Hr];
        fold sz; try lia.
      * right; right. repeat split; try lia.
        exists (live_spans req (qoCache w)), [(0, sz)].
        split; [reflexivity|]. split.
        -- apply (asc_widen _ _ _ _ _ (Z.le_refl _) (Z.lt_le_incl _ _ HX) Hasc).
        -- simpl. lia.
      * intros off len Hol. specialize (Hin off len Hol). lia.
      * split; [exact Hi|]. split; [exact Hr|]. split; [eauto|lia].
    + inversion Hatt; subst w'; clear Hatt.
      destruct (cache_push_inv w req (nNextBufferIdx w) (nFirstBufferIdx w)
                  (nNextBufferIdx w + sz) Hinv) as [Hi Hr]; fold sz; try lia.
      * right; left. repeat split; try lia. now apply asc_snoc.
      * intros off len Hol. specialize (Hin off len Hol). lia.
      * split; [exact Hi|]. split; [exact Hr|]. split; [eauto|lia].
  - (* a wrap-around is pending *)
    destruct (Z.leb_spec (nFirstBufferIdx w) (nNextBufferIdx w)); [lia|].
    rewrite (wrap_small (nNextBufferIdx w + sz)) in Hatt by lia.
    destruct (Z.ltb_spec (nNextBufferIdx w + sz) (nFirstBufferIdx w)); [|discriminate].
    inversion Hatt; subst w'; clear Hatt.
    destruct (cache_push_inv w req (nNextBufferIdx w) (nFirstBufferIdx w)
                (nNextBufferIdx w + sz) Hinv) as [Hi Hr]; fold sz; try lia.
    + right; right. repeat split; try lia.
      exists L1, (L2 ++ [(nNextBufferIdx w, sz)]).
      split; [rewrite HL, app_assoc; reflexivity|].
      split; [assumption|]. now apply asc_snoc.
    + intros off len Hol. specialize (Hin off len Hol). lia.
    + split; [exact Hi|]. split; [exact Hr|]. split; [eauto|lia].
Qed.

(** the fill loop, one attempt at a time *)
Lemma fill_loop_unfold fuel nUsed nFillCount w log :
  fill_loop load (S fuel) nUsed nFillCount w log =
  if (nUsed <? nBufferSize w) && (nFillCount <? 10) then
    match fill_attempt load w with
    | Some w' =>
        fill_loop load fuel
          (wrap (nUsed + packet_size (load (nNextPrecacheIdx w)))) nFillCount w'
          (log ++ [nNextPrecacheIdx w])
    | None => (w, log ++ [nNextPrecacheIdx w])
    end
  else (w, log).
Proof.
  unfold fill_attempt. simpl.
  destruct ((nUsed <? nBufferSize w) && (nFillCount <? 10)); [|reflexivity].
  destruct (packet_size (load (nNextPrecacheIdx w)) =? 0); [reflexivity|].
  destruct (nFirstBufferIdx w <=? nNextBufferIdx w).
  - destruct ((nNextBufferIdx w =? SIZE_MAX)
              || (nBufferSize w
                  <=? wrap (nNextBufferIdx w + packet_size (load (nNextPrecacheIdx w)))));
      [|reflexivity].
    destruct (negb (nFirstBufferIdx w =? SIZE_MAX)
              && (nFirstBufferIdx w <=? packet_size (load (nNextPrecacheIdx w)))
              || (nBufferSize w <=? packet_size (load (nNextPrecacheIdx w))));
      reflexivity.
  - destruct (wrap (nNextBufferIdx w + packet_size (load (nNextPrecacheIdx w)))
              <? nFirstBufferIdx w); reflexivity.
Qed.

(** The fill loop keeps the worker's invariant, the published packet, the
    buffer size and the next expected index, whatever the bound on its
    unfolding. *)
Lemma fill_loop_inv fuel : forall nUsed nFillCount w req log,
  worker_inv load w req ->
  worker_inv load (fst (fill_loop load fuel nUsed nFillCount w log)) req /\
  req_bytes (fst (fill_loop load fuel nUsed nFillCount w log)) req = req_bytes w req /\
  nBufferSize (fst (fill_loop load fuel nUsed nFillCount w log)) = nBufferSize w /\
  nNextExpectedReqIdx (fst (fill_loop load fuel nUsed nFillCount w log))
  = nNextExpectedReqIdx w.
Proof using load_ok.
  induction fuel as [|fuel IH]; intros nUsed nFillCount w req log Hinv.
  - simpl. auto.
  - rewrite fill_loop_unfold.
    destruct ((nUsed <? nBufferSize w) && (nFillCount <? 10)); [|simpl; auto].
    destruct (fill_attempt load w) as [w'|] eqn:Hatt; [|simpl; auto].
    destruct (fill_attempt_inv w req w' Hinv Hatt)
      as (Hinv' & Hreq' & (o & F' & X' & Hw') & _).
    destruct (IH (wrap (nUsed + packet_size (load (nNextPrecacheIdx w))))
                nFillCount w' req (log ++ [nNextPrecacheIdx w]) Hinv')
      as (H1 & H2 & H3 & H4).
    split; [exact H1|]. split; [congruence|].
    rewrite H3, H4, Hw'. split; reflexivity.
Qed.

(** The bound on the unfolding of the fill loop is immaterial once it
    exceeds the number of bytes still unaccounted for. *)
Lemma fill_loop_fuel fuel1 : forall fuel2 nUsed nFillCount w req log,
  worker_inv load w req -> 0 <= nUsed ->
  (Z.to_nat (nBufferSize w - nUsed) < fuel1)%nat ->
  (Z.to_nat (nBufferSize w - nUsed) < fuel2)%nat ->
  fill_loop load fuel1 nUsed nFillCount w log
  = fill_loop load fuel2 nUsed nFillCount w log.
Proof using load_ok.
  induction fuel1 as [|fuel1 IH]; intros fuel2 nUsed nFillCount w req log Hinv Hu H1 H2.
  - lia.
  - destruct fuel2 as [|fuel2]; [lia|].
    rewrite !fill_loop_unfold.
    destruct (Z.ltb_spec nUsed (nBufferSize w)) as [Hlt|]; [|reflexivity].
    destruct (nFillCount <? 10); [|reflexivity]. simpl.
    destruct (fill_attempt load w) as [w'|] eqn:Hatt; [|reflexivity].
    destruct (fill_attempt_inv w req w' Hinv Hatt)
      as (Hinv' & _ & (o & F' & X' & Hw') & Hsz).
    pose proof Hinv as (HB & _). sizes.
    assert (HB' : nBufferSize w' = nBufferSize w) by (rewrite Hw'; reflexivity).
    rewrite (wrap_small (nUsed + _)) by lia.
    apply (IH fuel2 _ nFillCount w' req); [exact Hinv'|lia|rewrite HB'; lia..].
Qed.


(** ** Precacher: the turns of the worker *)

Lemma timeout_pass_inv w req log :
  worker_inv load w req ->
  worker_inv load (fst (timeout_pass load w log)) req /\
  req_bytes (fst (timeout_pass load w log)) req = req_bytes w req /\
  nBufferSize (fst (timeout_pass load w log)) = nBufferSize w /\
  nNextExpectedReqIdx (fst (timeout_pass load w log)) = nNextExpectedReqIdx w.
Proof using load_ok.
  intros Hinv. unfold timeout_pass.
  destruct (used_buffer_size w <? nBufferSize w / 4).
  - now apply fill_loop_inv.
  - simpl. auto.
Qed.

Lemma used_buffer_size_nonneg w : 0 <= used_buffer_size w.
Proof.
  unfold used_buffer_size.
  destruct (nFirstBufferIdx w =? SIZE_MAX); [lia|].
  destruct (nFirstBufferIdx w <? nNextBufferIdx w); apply wrap_range.
Qed.

(** the bound [timeout_pass] puts on the fill loop is never reached *)
Lemma timeout_pass_fuel w req log fuel :
  worker_inv load w req ->
  (Z.to_nat (nBufferSize w) < fuel)%nat ->
  fill_loop load fuel (used_buffer_size w) 0 w log
  = fill_loop load (S (Z.to_nat (nBufferSize w))) (used_buffer_size w) 0 w log.
Proof using load_ok.
  intros Hinv Hfuel. pose proof (used_buffer_size_nonneg w).
  apply (fill_loop_fuel _ _ _ _ _ req); [assumption|assumption|lia|lia].
Qed.

Lemma entry_init_inv B :
  0 < B <= CACHE_MAX_SIZE ->
  worker_inv load (entry_init B) (MatData emptyMat) /\
  nonwrapped (entry_init B) (MatData emptyMat).
Proof.
  intros HB. sizes. split.
  - unfold worker_inv. simpl.
    split; [lia|]. split; [rewrite repeat_length; lia|].
    split; [unfold is_size_t; lia|]. split; [right; left; simpl; lia|].
    split; [constructor|]. split; [exact I|]. split; [reflexivity|].
    intros Hne. now contradiction Hne.
  - unfold nonwrapped. simpl. lia.
Qed.

(** the prefill loop keeps the worker's invariant *)
Lemma prefill_inv ticks : forall w req log,
  worker_inv load w req -> nonwrapped w req ->
  worker_inv load (fst (prefill load ticks w log)) req.
Proof using load_ok.
  induction ticks as [|ticks IH]; intros w req log Hinv Hnw; [exact Hinv|].
  simpl.
  pose proof (load_ok (nNextPrecacheIdx w)) as Hsmall.
  pose proof Hinv as (HB & _).
  destruct Hnw as (HF & HX & Hasc).
  pose proof (asc_bounds _ _ _ Hasc) as HFX.
  set (sz := packet_size (load (nNextPrecacheIdx w))) in *.
  sizes.
  destruct (Z.ltb_spec 0 sz) as [Hsz|]; [|exact Hinv].
  rewrite (wrap_small (nNextBufferIdx w + sz)) by lia.
  destruct (Z.ltb_spec (nNextBufferIdx w + sz) (nBufferSize w)) as [Hfit|];
    [|exact Hinv].
  simpl.
  destruct (cache_push_inv w req (nNextBufferIdx w) (nFirstBufferIdx w)
              (nNextBufferIdx w + sz) Hinv) as [Hi _]; fold sz; try lia.
  - right; left. repeat split; try lia. now apply asc_snoc.
  - intros off len Hol. apply (asc_inside _ _ _ _ _ Hasc) in Hol. lia.
  - apply IH; [exact Hi|].
    unfold nonwrapped. simpl. rewrite live_spans_push.
    repeat split; try lia. now apply asc_snoc.
Qed.

(** popping the front of the cache and publishing it *)
Lemma pop_one_inv B buf s q' ne np F X req :
  worker_inv load (mkWorker B buf (s :: q') ne np F X) req ->
  ne + 1 < SIZE_MOD ->
  worker_inv load (mkWorker B buf q' (ne + 1) np (slot_off s) X)
             (MatView (slot_off s) (slot_len s)).
Proof.
  unfold worker_inv. simpl.
  intros (HB & Hlen & Hne & Hring & Hslots & (Hidx & Hcons) & Hnp & Hreq) Hne1.
  apply Forall_cons in Hslots as [[Hsl Hsb] Hslots'].
  split; [exact HB|]. split; [exact Hlen|].
  split; [unfold is_size_t in *; lia|].
  split.
  { unfold live_spans in *. simpl in *.
    destruct req as [data|nOffset nSize]; simpl in Hring.
    - now apply ring_ok_head in Hring.
    - now apply ring_ok_tail in Hring. }
  split; [exact Hslots'|].
  split.
  { rewrite wrap_small in Hcons by (unfold is_size_t in *; lia). exact Hcons. }
  split.
  { rewrite Hnp. f_equal. lia. }
  intros _. replace (ne + 1 - 1) with ne by lia.
  rewrite wrap_small by exact Hne. rewrite Hsb, Hidx. reflexivity.
Qed.

(** The pop loop ends with the requested packet published and the next
    expected index just past it; it never looks at the front of an empty
    queue. *)
Lemma pop_until_serves r : forall q B buf np X ne F req,
  r + 1 < SIZE_MOD ->
  worker_inv load (mkWorker B buf q ne np F X) req ->
  ne <= r + 1 -> r + 1 - ne <= Z.of_nat (length q) ->
  exists q' F' req',
    pop_until r q ne F req = (q', r + 1, F', req') /\
    worker_inv load (mkWorker B buf q' (r + 1) np F' X) req'.
Proof.
  induction q as [|s q' IH]; intros B buf np X ne F req Hr Hinv Hle Hlen.
  - simpl in Hlen. assert (ne = r + 1) as -> by lia.
    simpl. replace (r - (r + 1) + 1) with 0 by lia.
    change (wrap 0) with 0. simpl. eauto.
  - pose proof Hinv as (_ & _ & Hne & _). simpl in Hne. sizes.
    destruct (Z.eq_dec ne (r + 1)) as [->|Hneq].
    + simpl. replace (r - (r + 1) + 1) with 0 by lia.
      change (wrap 0) with 0. simpl. eauto.
    + simpl. rewrite (wrap_small (r - ne + 1)) by lia.
      destruct (Z.ltb_spec 0 (r - ne + 1)); [|lia].
      rewrite (wrap_small (ne + 1)) by lia.
      apply (IH B buf np X); [lia| |lia|simpl length in Hlen; lia].
      apply (pop_one_inv _ _ _ _ _ _ F _ req); [exact Hinv|lia].
Qed.

#[local] Arguments pop_until : simpl never.

Lemma answer_manually_inv r w req log :
  worker_inv load w req -> is_size_t r ->
  worker_inv load (fst (fst (answer_manually load r w log)))
             (snd (fst (answer_manually load r w log))) /\
  nNextExpectedReqIdx (fst (fst (answer_manually load r w log))) = wrap (r + 1).
Proof.
  unfold worker_inv, answer_manually. simpl.
  intros (HB & Hlen & _) Hr.
  split; [|reflexivity].
  split; [exact HB|]. split; [exact Hlen|]. split; [apply wrap_range|].
  split; [left; auto|]. split; [constructor|]. split; [exact I|].
  split.
  { rewrite Z.add_0_r. symmetry. apply wrap_small, wrap_range. }
  intros _. now rewrite wrap_succ_pred.
Qed.

Lemma live_spans_length req q :
  (length q <= length (live_spans req q))%nat.
Proof. unfold live_spans. rewrite length_app, length_map. lia. Qed.

(** Serving a request keeps the worker's invariant and leaves the next
    expected index just past the request. *)
Lemma serve_inv r w req log :
  worker_inv load w req -> is_size_t r ->
  worker_inv load (fst (fst (serve load r w req log)))
             (snd (fst (serve load r w req log))) /\
  nNextExpectedReqIdx (fst (fst (serve load r w req log))) = wrap (r + 1) /\
  nBufferSize (fst (fst (serve load r w req log))) = nBufferSize w.
Proof.
  intros Hinv Hr. unfold serve.
  pose proof Hinv as (HB & _ & Hne & Hring & _ & _ & Hnp & _).
  pose proof (answer_manually_inv r w req log Hinv Hr) as [Hm1 Hm2].
  destruct (Z.eqb_spec r (wrap (nNextExpectedReqIdx w - 1))) as [Heq|Hneq]; simpl.
  { split; [exact Hinv|]. split; [|reflexivity]. rewrite Heq.
    unfold wrap. rewrite Z.add_mod_idemp_l by (rewrite SIZE_MOD_eq; lia).
    replace (nNextExpectedReqIdx w - 1 + 1) with (nNextExpectedReqIdx w) by lia.
    symmetry. apply Z.mod_small. exact Hne. }
  pose proof (ring_ok_length _ _ _ _ (proj1 HB) Hring) as Hlen.
  pose proof (live_spans_length req (qoCache w)) as Hlen'.
  pose proof (wrap_range (nNextExpectedReqIdx w + Z.of_nat (length (qoCache w)))) as Hnpr.
  rewrite <- Hnp in Hnpr.
  destruct w as [B buf q ne np F X]. simpl in *.
  destruct q as [|s q'].
  { split; [exact Hm1|]. split; [exact Hm2|reflexivity]. }
  destruct (Z.ltb_spec r np) as [Hlt|]; simpl;
    [|split; [exact Hm1|]; split; [exact Hm2|reflexivity]].
  destruct (Z.leb_spec ne r) as [Hge|]; simpl;
    [|split; [exact Hm1|]; split; [exact Hm2|reflexivity]].
  (* the request is in the cache *)
  assert (Hcount : r + 1 - ne <= Z.of_nat (length (s :: q'))).
  { sizes.
    destruct (Z.lt_ge_cases (ne + Z.of_nat (length (s :: q'))) SIZE_MOD)
      as [Hsmall|Hbig].
    - rewrite wrap_small in Hnp by lia. lia.
    - exfalso. unfold wrap in Hnp.
      rewrite <- (Z.mod_add _ (-1)) in Hnp by lia.
      rewrite Z.mod_small in Hnp by lia. lia. }
  assert (Hr1 : r + 1 < SIZE_MOD) by (sizes; lia).
  destruct (pop_until_serves r (s :: q') B buf np X ne F req Hr1 Hinv)
    as (q'' & F' & req' & Hpop & Hinv'); [lia|exact Hcount|].
  rewrite Hpop. simpl.
  split; [exact Hinv'|]. split; [|reflexivity].
  symmetry. apply wrap_small. sizes. lia.
Qed.

(** every configuration of the worker satisfies the invariant *)
Lemma worker_reachable_inv w req :
  worker_reachable load w req -> worker_inv load w req.
Proof using load_ok.
  induction 1 as [B ticks log HB|w req r log Hreach IH Hr|w req log Hreach IH].
  - destruct (entry_init_inv B HB) as [Hi Hn]. now apply prefill_inv.
  - now apply serve_inv.
  - now apply timeout_pass_inv.
Qed.

(** ** Precacher: the state between two calls *)

Lemma prefill_next_expected ticks : forall w log,
  nNextExpectedReqIdx (fst (prefill load ticks w log)) = nNextExpectedReqIdx w.
Proof.
  induction ticks as [|ticks IH]; intros w log; [reflexivity|].
  simpl.
  destruct ((0 <? packet_size (load (nNextPrecacheIdx w)))
            && (wrap (nNextBufferIdx w + packet_size (load (nNextPrecacheIdx w)))
                <? nBufferSize w)); [|reflexivity].
  rewrite IH. reflexivity.
Qed.

Lemma mat_bytes_worker p w m :
  m_hWorker p = Some w -> mat_bytes p m = req_bytes w m.
Proof. intros H. unfold mat_bytes, req_bytes. now rewrite H. Qed.

(** a request that was just served is answered again as it was *)
Lemma serve_again r w req log :
  r = wrap (nNextExpectedReqIdx w - 1) -> serve load r w req log = (w, req, log).
Proof.
  intros ->. unfold serve. now rewrite Z.eqb_refl.
Qed.

Lemma worker_wakeup_call_inv e nIdx p :
  is_size_t nIdx -> call_inv load nIdx p -> call_inv load nIdx (worker_wakeup load e p).
Proof.
  intros Hi (Hact & Hreq & w & Hw & Hreach).
  unfold worker_wakeup. rewrite Hw, Hact.
  destruct e.
  - pose proof (after_serve load w (m_oReqPacket p) (m_nReqIdx p) (loaded p) Hreach) as Hs.
    rewrite Hreq in *. specialize (Hs Hi).
    destruct (serve load nIdx w (m_oReqPacket p) (loaded p)) as [[w' req'] log'].
    simpl in *. unfold call_inv. simpl. eauto 6.
  - pose proof (after_timeout load w (m_oReqPacket p) (loaded p) Hreach) as Hs.
    destruct (timeout_pass load w (loaded p)) as [w' log'].
    simpl in *. unfold call_inv. simpl. eauto 6.
Qed.

Lemma worker_wakeup_notified_served nIdx p :
  is_size_t nIdx -> call_inv load nIdx p -> served load nIdx (worker_wakeup load Notified p).
Proof using load_ok.
  intros Hi Hc. split; [now apply worker_wakeup_call_inv|].
  destruct Hc as (Hact & Hreq & w & Hw & Hreach).
  unfold worker_wakeup. rewrite Hw, Hact, Hreq.
  pose proof (serve_inv nIdx w (m_oReqPacket p) (loaded p)
                (worker_reachable_inv _ _ Hreach) Hi) as (_ & Hne & _).
  destruct (serve load nIdx w (m_oReqPacket p) (loaded p)) as [[w' req'] log'].
  simpl in *. eauto.
Qed.

Lemma worker_wakeup_served e nIdx p :
  is_size_t nIdx -> served load nIdx p -> served load nIdx (worker_wakeup load e p).
Proof using load_ok.
  intros Hi [Hc (w & Hw & Hne)].
  destruct e; [now apply worker_wakeup_notified_served|].
  split; [now apply worker_wakeup_call_inv|].
  destruct Hc as (Hact & Hreq & w0 & Hw0 & Hreach).
  rewrite Hw in Hw0. inversion Hw0; subst w0.
  unfold worker_wakeup. rewrite Hw, Hact.
  pose proof (timeout_pass_inv w (m_oReqPacket p) (loaded p)
                (worker_reachable_inv _ _ Hreach)) as (_ & _ & _ & Hne').
  destruct (timeout_pass load w (loaded p)) as [w' log'].
  simpl in *. exists w'. split; [reflexivity|congruence].
Qed.

Lemma worker_run_served sched : forall nIdx p,
  is_size_t nIdx -> served load nIdx p -> served load nIdx (worker_run load sched p).
Proof using load_ok.
  induction sched as [|e sched IH]; intros nIdx p Hi Hs; [exact Hs|].
  simpl. apply IH; [exact Hi|]. now apply worker_wakeup_served.
Qed.

(** once the worker has been notified, the request is served *)
Lemma worker_run_serves sched : forall nIdx p,
  is_size_t nIdx -> call_inv load nIdx p -> existsb is_notified sched = true ->
  served load nIdx (worker_run load sched p).
Proof using load_ok.
  induction sched as [|e sched IH]; intros nIdx p Hi Hc Hex; [discriminate|].
  simpl. destruct e.
  - apply worker_run_served; [exact Hi|]. now apply worker_wakeup_notified_served.
  - apply IH; [exact Hi| |exact Hex]. now apply worker_wakeup_call_inv.
Qed.

(** the packet the worker has published for a served request *)
Lemma served_bytes nIdx p :
  is_size_t nIdx -> nIdx <> SIZE_MAX -> served load nIdx p ->
  mat_bytes p (m_oReqPacket p) = load nIdx.
Proof using load_ok.
  intros Hi Hmax [(Hact & Hreq & w & Hw & Hreach) (w0 & Hw0 & Hne)].
  rewrite Hw in Hw0. inversion Hw0; subst w0.
  rewrite (mat_bytes_worker p w _ Hw).
  pose proof (worker_reachable_inv _ _ Hreach) as (_ & _ & _ & _ & _ & _ & _ & Hb).
  rewrite Hb.
  - rewrite Hne. now rewrite wrap_succ_pred.
  - rewrite Hne. sizes. rewrite wrap_small by lia. lia.
Qed.

(** A turn of the worker while no call is in progress keeps the state
    invariant and everything the caller can see. *)
Lemma worker_wakeup_idle e p :
  state_inv load p ->
  state_inv load (worker_wakeup load e p) /\
  m_oLastReqPacket (worker_wakeup load e p) = m_oLastReqPacket p /\
  m_nLastReqIdx (worker_wakeup load e p) = m_nLastReqIdx p /\
  m_bIsActive (worker_wakeup load e p) = m_bIsActive p /\
  mat_bytes (worker_wakeup load e p) (m_oLastReqPacket p)
  = mat_bytes p (m_oLastReqPacket p).
Proof using load_ok.
  intros Hinv. pose proof Hinv as (Hlast & Hmemo & Hw).
  unfold worker_wakeup.
  destruct (m_hWorker p) as [w|] eqn:Hwk; [|auto].
  destruct Hw as (Hact & Hreach & Hreq & Hkind). rewrite Hact.
  destruct e.
  - rewrite serve_again by exact Hreq.
    assert (Hp : {| m_bIsActive := true; m_nReqIdx := m_nReqIdx p;
                    m_nLastReqIdx := m_nLastReqIdx p; m_oReqPacket := m_oReqPacket p;
                    m_oLastReqPacket := m_oLastReqPacket p; m_hWorker := Some w;
                    loaded := loaded p |} = p).
    { destruct p; simpl in *. now subst. }
    rewrite Hp. auto.
  - pose proof (timeout_pass_inv w (m_oReqPacket p) (loaded p)
                  (worker_reachable_inv _ _ Hreach)) as (_ & Hb & _ & Hne).
    pose proof (after_timeout load w (m_oReqPacket p) (loaded p) Hreach) as Hreach'.
    destruct (timeout_pass load w (loaded p)) as [w' log']. simpl in *.
    assert (Hbytes :
      mat_bytes {| m_bIsActive := true; m_nReqIdx := m_nReqIdx p;
                   m_nLastReqIdx := m_nLastReqIdx p; m_oReqPacket := m_oReqPacket p;
                   m_oLastReqPacket := m_oLastReqPacket p; m_hWorker := Some w';
                   loaded := log' |} (m_oLastReqPacket p)
      = mat_bytes p (m_oLastReqPacket p)).
    { destruct Hkind as [[data Hd]|Hsame].
      - rewrite Hd. reflexivity.
      - rewrite Hsame. rewrite (mat_bytes_worker p w _ Hwk).
        unfold mat_bytes, req_bytes in *. simpl. exact Hb. }
    split.
    { unfold state_inv.
      cbn [m_nLastReqIdx m_oLastReqPacket m_hWorker m_bIsActive m_oReqPacket m_nReqIdx].
      split; [exact Hlast|].
      split; [intros Hne0; rewrite Hbytes; now apply Hmemo|].
      split; [reflexivity|]. split; [exact Hreach'|].
      split; [congruence|exact Hkind]. }
    split; [reflexivity|]. split; [reflexivity|]. split; [reflexivity|exact Hbytes].
Qed.

Lemma worker_run_idle sched : forall p,
  state_inv load p ->
  state_inv load (worker_run load sched p) /\
  m_oLastReqPacket (worker_run load sched p) = m_oLastReqPacket p /\
  m_nLastReqIdx (worker_run load sched p) = m_nLastReqIdx p /\
  m_bIsActive (worker_run load sched p) = m_bIsActive p /\
  mat_bytes (worker_run load sched p) (m_oLastReqPacket p)
  = mat_bytes p (m_oLastReqPacket p).
Proof using load_ok.
  induction sched as [|e sched IH]; intros p Hinv; [simpl; auto|].
  simpl.
  destruct (worker_wakeup_idle e p Hinv) as (H1 & H2 & H3 & H4 & H5).
  destruct (IH _ H1) as (G1 & G2 & G3 & G4 & G5).
  split; [exact G1|]. split; [congruence|]. split; [congruence|].
  split; [congruence|]. rewrite <- H5, <- H2. exact G5.
Qed.

(** [getPacket] keeps the state invariant; it returns [m_oLastReqPacket],
    which then holds the bytes of the requested packet. *)
Lemma getPacket_inv nIdx sched p m p' :
  state_inv load p -> is_size_t nIdx ->
  getPacket load nIdx sched p = Some (m, p') ->
  state_inv load p' /\ m = m_oLastReqPacket p' /\ m_nLastReqIdx p' = nIdx /\
  (nIdx <> SIZE_MAX -> mat_bytes p' m = load nIdx).
Proof using load_ok.
  intros Hinv Hi Hget. pose proof Hinv as (Hlast & Hmemo & Hw).
  unfold getPacket in Hget.
  destruct (Z.eqb_spec nIdx (m_nLastReqIdx p)) as [Heq|Hneq].
  { inversion Hget; subst m p'. rewrite <- Heq in Hmemo. auto. }
  destruct (m_bIsActive p) eqn:Hact; simpl in Hget.
  - (* the request goes to the worker *)
    destruct (existsb is_notified sched) eqn:Hex; [|discriminate].
    destruct (m_hWorker p) as [w|] eqn:Hwk; [|destruct Hw; congruence].
    destruct Hw as (_ & Hreach & _ & _).
    set (p1 := {| m_bIsActive := true; m_nReqIdx := nIdx;
                  m_nLastReqIdx := m_nLastReqIdx p; m_oReqPacket := m_oReqPacket p;
                  m_oLastReqPacket := m_oLastReqPacket p; m_hWorker := Some w;
                  loaded := loaded p |}) in *.
    assert (Hc : call_inv load nIdx p1).
    { unfold call_inv, p1. simpl. eauto. }
    pose proof (worker_run_serves sched nIdx p1 Hi Hc Hex) as Hs.
    set (p2 := worker_run load sched p1) in *.
    inversion Hget; subst m p'; clear Hget.
    pose proof Hs as [(Hact2 & Hreq2 & w2 & Hw2 & Hreach2) (w3 & Hw3 & Hne3)].
    rewrite Hw2 in Hw3. inversion Hw3; subst w3. clear Hw3.
    assert (Hb : nIdx <> SIZE_MAX ->
                 mat_bytes {| m_bIsActive := m_bIsActive p2; m_nReqIdx := m_nReqIdx p2;
                              m_nLastReqIdx := nIdx; m_oReqPacket := m_oReqPacket p2;
                              m_oLastReqPacket := m_oReqPacket p2;
                              m_hWorker := m_hWorker p2; loaded := loaded p2 |}
                           (m_oReqPacket p2) = load nIdx).
    { intros Hmax. rewrite <- (served_bytes nIdx p2 Hi Hmax Hs).
      unfold mat_bytes. simpl. reflexivity. }
    split; [|auto].
    unfold state_inv. simpl. split; [exact Hi|]. split; [exact Hb|].
    rewrite Hw2. split; [exact Hact2|]. split; [exact Hreach2|].
    split; [|now right].
    rewrite Hreq2, Hne3. symmetry. now apply wrap_succ_pred.
  - (* no precaching: the callback is called directly *)
    inversion Hget; subst m p'; clear Hget.
    split; [|auto].
    unfold state_inv. simpl. split; [exact Hi|]. split; [auto|].
    destruct (m_hWorker p) as [w|]; [destruct Hw; congruence|].
    destruct Hw as (_ & Hreq & _). eauto.
Qed.

Lemma startAsyncPrecaching_inv n ticks p :
  state_inv load p -> m_bIsActive p = false -> 0 < n ->
  state_inv load (snd (startAsyncPrecaching load n ticks p)).
Proof using load_ok.
  intros (Hlast & Hmemo & Hw) Hact Hn.
  destruct (m_hWorker p) as [w|] eqn:Hwk; [destruct Hw; congruence|].
  destruct Hw as (_ & Hreq & data & Hdata).
  unfold startAsyncPrecaching. rewrite Hact.
  destruct (Z.ltb_spec 0 n); [|lia].
  set (B := if CACHE_MAX_SIZE <? n then CACHE_MAX_SIZE else n).
  assert (HB : 0 < B <= CACHE_MAX_SIZE).
  { unfold B. sizes. destruct (Z.ltb_spec CACHE_MAX_SIZE n); lia. }
  pose proof (after_prefill load B ticks (loaded p) HB) as Hreach.
  pose proof (prefill_next_expected ticks (entry_init B) (loaded p)) as Hne.
  destruct (prefill load ticks (entry_init B) (loaded p)) as [w log].
  simpl in *. unfold state_inv. simpl.
  split; [exact Hlast|]. split.
  { intros Hne0. rewrite Hdata in *. simpl. apply Hmemo in Hne0.
    unfold mat_bytes in Hne0. exact Hne0. }
  split; [reflexivity|]. split; [rewrite Hreq; exact Hreach|].
  split; [rewrite Hne; reflexivity|]. left. eauto.
Qed.

(** every state between two calls satisfies the state invariant *)
Lemma reachable_inv p : reachable load p -> state_inv load p.
Proof using load_ok.
  induction 1 as [|p nIdx sched m p' Hreach IH Hi Hget|p sched Hreach IH
                  |p n ticks Hreach IH Hact Hn].
  - unfold state_inv. simpl. sizes.
    split; [lia|]. split; [intros Hne; now contradiction Hne|]. eauto.
  - now apply (getPacket_inv nIdx sched p m p' IH Hi Hget).
  - now apply worker_run_idle.
  - now apply startAsyncPrecaching_inv.
Qed.

End WorkerFacts.

(** ** Precacher: the properties of the packet pipeline *)

Lemma getPacket_returns load nIdx sched p :
  m_bIsActive p = false \/ existsb is_notified sched = true ->
  exists m p', getPacket load nIdx sched p = Some (m, p').
Proof.
  intros Hret. unfold getPacket.
  destruct (nIdx =? m_nLastReqIdx p); [eauto|].
  destruct (m_bIsActive p); simpl; [|eauto].
  destruct Hret as [Hf | Hex]; [discriminate|rewrite Hex; eauto].
Qed.


Lemma load4_ok : loader_ok Examples.load4.
Proof.
  intros i. unfold Examples.load4, packet_size.
  destruct ((0 <=? i) && (i <? 10)); [rewrite repeat_length|]; simpl; lia.
Qed.

Lemma precacher_after_5_reachable :
  reachable Examples.load4 Examples.precacher_after_5.
Proof.
  eapply (reach_get Examples.load4 Examples.precacher_after_0 5
            [TimedOut; Notified]);
    [|vm_compute; split; [discriminate|reflexivity]|vm_compute; reflexivity].
  eapply (reach_get Examples.load4 Examples.precacher_started 0 [Notified]);
    [|vm_compute; split; [discriminate|reflexivity]|vm_compute; reflexivity].
  apply (reach_start Examples.load4 (DataPrecacher) 16 5);
    [apply reach_new|reflexivity|reflexivity].
Qed.


(** A fetch that finds its packet in the cache calls no loader; a fetch past
    the last packet yields the loader's empty packet. *)
Example getPacket_from_cache :
  getPacket Examples.load4 0 [Notified] Examples.precacher_started
  = Some (MatView 0 4, Examples.precacher_after_0) /\
  loaded Examples.precacher_after_0 = loaded Examples.precacher_started /\
  mat_bytes Examples.precacher_after_0 (MatView 0 4)
  = [Byte.x00; Byte.x00; Byte.x00; Byte.x00].
Proof. repeat split; reflexivity. Qed.

Example getPacket_end_of_stream :
  exists p', getPacket Examples.load4 12 [Notified] Examples.precacher_after_5
             = Some (MatData [], p').
Proof. eexists. vm_compute. reflexivity. Qed.

(** The fill pass wraps to the start of the buffer while the packet last
    delivered still sits at its end; the next fetch is served from offset 0. *)
Example fill_wraps_around :
  m_oLastReqPacket Examples.precacher_wrapped = MatView 24 4 /\
  map (fun s => (slot_idx s, slot_off s))
      (qoCache (Examples.worker_of Examples.precacher_wrapped))
  = [(7, 0); (8, 4); (9, 8)] /\
  nFirstBufferIdx (Examples.worker_of Examples.precacher_wrapped) = 24 /\
  nNextBufferIdx (Examples.worker_of Examples.precacher_wrapped) = 12 /\
  mat_bytes Examples.precacher_wrapped (MatView 24 4) = Examples.load4 6 /\
  exists p',
    getPacket Examples.load4 7 [Notified] Examples.precacher_wrapped
    = Some (MatView 0 4, p') /\
    mat_bytes p' (MatView 0 4) = Examples.load4 7.
Proof.
  repeat split; try (vm_compute; reflexivity).
  eexists. split; vm_compute; reflexivity.
Qed.

(** C3 (as the code has it): the fill loop tests [nFillCount<10] but never
    changes [nFillCount], so a fill pass is only ended by the buffer.  With
    one-byte packets, a 64-byte buffer and nothing in use (0 < 64/4), a
    single timeout enqueues 63 packets before the worker waits again. *)
Theorem fill_pass_exceeds_ten :
  let w := Examples.worker_of Examples.precacher_flushed in
  let w' := fst (timeout_pass Examples.load1 w []) in
  nBufferSize w = 64 /\
  used_buffer_size w < nBufferSize w / 4 /\
  qoCache w = [] /\
  length (qoCache w') = 63%nat /\
  (10 < length (qoCache w'))%nat.
Proof.
  vm_compute. repeat split; try reflexivity; try lia.
Qed.

Lemma consecutive_range l : forall a,
  is_size_t a -> consecutive a l ->
  l = map (fun k => wrap (a + Z.of_nat k)) (seq 0 (length l)).
Proof.
  induction l as [|x l IH]; intros a Ha Hc; [reflexivity|].
  destruct Hc as [-> Hc]. simpl length. simpl seq. simpl map.
  rewrite Z.add_0_r, (wrap_small a Ha). f_equal.
  rewrite (IH _ (wrap_range _) Hc) at 1.
  rewrite <- seq_shift, map_map. apply map_ext. intros k.
  rewrite wrap_add_assoc. f_equal. lia.
Qed.

(** C6: after the prefill and after every turn of the worker loop (a request
    served in any of its branches, a timeout with or without a fill pass),
    the indices of the queued packets are, oldest first, the indices from
    [nNextExpectedReqIdx] up to but excluding [nNextPrecacheIdx], counted
    in [size_t]; this is the plain interval whenever
    [nNextExpectedReqIdx <= nNextPrecacheIdx]. *)
Theorem cache_covers_expected_to_precache load w req :
  loader_ok load -> worker_reachable load w req ->
  covers w /\
  (nNextExpectedReqIdx w <= nNextPrecacheIdx w ->
   map slot_idx (qoCache w)
   = seqZ (nNextExpectedReqIdx w) (nNextPrecacheIdx w - nNextExpectedReqIdx w)).
Proof.
  intros Hload Hreach.
  pose proof (worker_reachable_inv load Hload w req Hreach)
    as (HB & _ & Hne & Hring & _ & Hcons & Hnp & _).
  pose proof (ring_ok_length _ _ _ _ (proj1 HB) Hring) as Hlen.
  pose proof (live_spans_length req (qoCache w)) as Hlen'.
  pose proof (consecutive_range _ _ Hne Hcons) as Hrange.
  rewrite length_map in Hrange.
  set (n := length (qoCache w)) in *.
  assert (Hcount : wrap (nNextPrecacheIdx w - nNextExpectedReqIdx w) = Z.of_nat n).
  { rewrite Hnp. unfold wrap. sizes.
    rewrite Zminus_mod_idemp_l.
    replace (nNextExpectedReqIdx w + Z.of_nat n - nNextExpectedReqIdx w)
      with (Z.of_nat n) by lia.
    apply Z.mod_small. lia. }
  split.
  - unfold covers, index_range. rewrite Hcount, Nat2Z.id. exact Hrange.
  - intros Hle.
    pose proof (wrap_range (nNextExpectedReqIdx w + Z.of_nat n)) as Hnpr.
    rewrite <- Hnp in Hnpr. sizes.
    assert (Hplain : nNextPrecacheIdx w = nNextExpectedReqIdx w + Z.of_nat n).
    { destruct (Z.lt_ge_cases (nNextExpectedReqIdx w + Z.of_nat n) SIZE_MOD)
        as [Hs|Hb].
      - rewrite Hnp. apply wrap_small. lia.
      - exfalso. unfold wrap in Hnp.
        rewrite <- (Z.mod_add _ (-1)) in Hnp by lia.
        rewrite Z.mod_small in Hnp by lia. lia. }
    rewrite Hrange. unfold seqZ. rewrite Hplain.
    replace (nNextExpectedReqIdx w + Z.of_nat n - nNextExpectedReqIdx w)
      with (Z.of_nat n) by lia.
    rewrite Nat2Z.id. apply map_ext_in. intros k Hk. apply in_seq in Hk.
    rewrite wrap_small by lia. lia.
Qed.

Lemma worker_after_0_reachable :
  worker_reachable Examples.load4
    (Examples.worker_of Examples.precacher_after_0) (MatView 0 4).
Proof.
  pose proof (after_serve Examples.load4 _ _ 0 []
                (after_prefill Examples.load4 16 5 []
                   ltac:(vm_compute; split; [reflexivity|discriminate]))
                ltac:(vm_compute; split; [discriminate|reflexivity])) as H.
  vm_compute in H. vm_compute. exact H.
Qed.

Lemma cache_covers_expected_to_precache_witness :
  covers (Examples.worker_of Examples.precacher_after_0) /\
  (nNextExpectedReqIdx (Examples.worker_of Examples.precacher_after_0)
   <= nNextPrecacheIdx (Examples.worker_of Examples.precacher_after_0) ->
   map slot_idx (qoCache (Examples.worker_of Examples.precacher_after_0))
   = seqZ (nNextExpectedReqIdx (Examples.worker_of Examples.precacher_after_0))
       (nNextPrecacheIdx (Examples.worker_of Examples.precacher_after_0)
        - nNextExpectedReqIdx (Examples.worker_of Examples.precacher_after_0))).
Proof.
  apply (cache_covers_expected_to_precache Examples.load4
           (Examples.worker_of Examples.precacher_after_0) (MatView 0 4)
           load4_ok worker_after_0_reachable).
Defined.

(** C7: a fetch of the index that was fetched last returns the bytes the
    first fetch returned and leaves the state, the log of loader calls
    included, as it found it.  This holds without precaching and with it,
    whatever turns the worker takes between the two calls. *)
Theorem getPacket_twice load nIdx sched1 idle sched2 p m1 p1 :
  loader_ok load -> reachable load p -> is_size_t nIdx ->
  getPacket load nIdx sched1 p = Some (m1, p1) ->
  exists m2 p2,
    getPacket load nIdx sched2 (worker_run load idle p1) = Some (m2, p2) /\
    p2 = worker_run load idle p1 /\
    loaded p2 = loaded (worker_run load idle p1) /\
    mat_bytes p2 m2 = mat_bytes p1 m1.
Proof.
  intros Hload Hreach Hi Hget.
  destruct (getPacket_inv load Hload nIdx sched1 p m1 p1
              (reachable_inv load Hload p Hreach) Hi Hget)
    as (Hinv1 & Hm1 & Hlast1 & _).
  destruct (worker_run_idle load Hload idle p1 Hinv1)
    as (_ & Hmemo & Hlast & _ & Hbytes).
  exists (m_oLastReqPacket (worker_run load idle p1)), (worker_run load idle p1).
  split.
  - unfold getPacket. rewrite Hlast, Hlast1, Z.eqb_refl. reflexivity.
  - split; [reflexivity|]. split; [reflexivity|].
    rewrite Hmemo, Hm1. exact Hbytes.
Qed.

Lemma getPacket_twice_witness :
  exists m2 p2,
    getPacket Examples.load4 5 [Notified]
      (worker_run Examples.load4 [TimedOut] Examples.precacher_after_5)
    = Some (m2, p2) /\
    p2 = worker_run Examples.load4 [TimedOut] Examples.precacher_after_5 /\
    loaded p2 = loaded (worker_run Examples.load4 [TimedOut] Examples.precacher_after_5) /\
    mat_bytes p2 m2
    = mat_bytes Examples.precacher_after_5
        (MatData [Byte.x05; Byte.x05; Byte.x05; Byte.x05]).
Proof.
  apply (getPacket_twice Examples.load4 5 [TimedOut; Notified] [TimedOut] [Notified]
           Examples.precacher_after_0
           (MatData [Byte.x05; Byte.x05; Byte.x05; Byte.x05])
           Examples.precacher_after_5 load4_ok).
  - eapply (reach_get Examples.load4 Examples.precacher_started 0 [Notified]);
      [|vm_compute; split; [discriminate|reflexivity]|vm_compute; reflexivity].
    apply (reach_start Examples.load4 (DataPrecacher) 16 5);
      [apply reach_new|reflexivity|reflexivity].
  - vm_compute. split; [discriminate|reflexivity].
  - vm_compute. reflexivity.
Defined.

Lemma fill_attempt_empty load w :
  packet_size (load (nNextPrecacheIdx w)) = 0 -> fill_attempt load w = None.
Proof. intros H. unfold fill_attempt. rewrite H. reflexivity. Qed.

Lemma timeout_pass_empty load w log :
  packet_size (load (nNextPrecacheIdx w)) = 0 ->
  fst (timeout_pass load w log) = w.
Proof.
  intros H. unfold timeout_pass.
  destruct (used_buffer_size w <? nBufferSize w / 4); [|reflexivity].
  rewrite fill_loop_unfold, (fill_attempt_empty load w H).
  destruct ((used_buffer_size w <? nBufferSize w) && (0 <? 10)); reflexivity.
Qed.



End PrecacherFacts.

(** ** Loader facade *)

Module LoaderFacts.
Import IDataLoader.

(** C9: for an index at or past the number of packets of the batch, the
    input and the ground-truth redirections return the empty packet and
    leave the state as it is: neither the dataset-specific load function nor
    any transform is asked for, and the latest packets are kept. *)
Theorem redirect_past_the_end
    (getTotPackets : Z)
    (_getInputPacket_impl _getGTPacket_impl : Z -> Mat)
    (getInputOrigSize getGTOrigSize getInputSize getGTSize : Z -> Size)
    (isInputTransposed isGTTransposed : Z -> bool)
    (is4ByteAligned : bool)
    (m_eInputType : PacketPolicy) (m_eGTMappingType : MappingPolicy)
    (transpose cvtColor_BGR2BGRA : Mat -> Mat) (resize_nearest : Mat -> Size -> Mat)
    (nIdx : Z) (s : state) :
  getTotPackets <= nIdx ->
  _getInputPacket_redirect getTotPackets _getInputPacket_impl getInputOrigSize
    getInputSize isInputTransposed is4ByteAligned m_eInputType
    transpose cvtColor_BGR2BGRA resize_nearest nIdx s
  = Packet_ emptyMat s /\
  _getGTPacket_redirect getTotPackets _getGTPacket_impl getGTOrigSize
    getGTSize isGTTransposed is4ByteAligned m_eInputType m_eGTMappingType
    transpose cvtColor_BGR2BGRA resize_nearest nIdx s
  = Packet_ emptyMat s.
Proof.
  intros Hpast.
  unfold _getInputPacket_redirect, _getGTPacket_redirect.
  destruct (Z.leb_spec getTotPackets nIdx); [|lia].
  split; reflexivity.
Qed.

Lemma redirect_past_the_end_witness :
  _getInputPacket_redirect 3 Examples.image2x2 Examples.size2x2
    Examples.size2x2 (fun _ => false) true ImagePacket
    (fun m => m) (fun m => m) (fun m _ => m) 3 Examples.loader_fresh
  = Packet_ emptyMat Examples.loader_fresh /\
  _getGTPacket_redirect 3 Examples.image2x2 Examples.size2x2
    Examples.size2x2 (fun _ => false) true ImagePacket PixelMapping
    (fun m => m) (fun m => m) (fun m _ => m) 3 Examples.loader_fresh
  = Packet_ emptyMat Examples.loader_fresh.
Proof.
  apply (redirect_past_the_end 3 Examples.image2x2 Examples.image2x2
           Examples.size2x2 Examples.size2x2 Examples.size2x2 Examples.size2x2
           (fun _ => false) (fun _ => false) true ImagePacket PixelMapping
           (fun m => m) (fun m => m) (fun m _ => m) 3 Examples.loader_fresh).
  lia.
Defined.

(** below the number of packets the load function is asked for the packet *)
Example redirect_in_range :
  _getInputPacket_redirect 3 Examples.image2x2 Examples.size2x2
    Examples.size2x2 (fun _ => false) true ImagePacket
    (fun m => m) (fun m => m) (fun m _ => m) 2 Examples.loader_fresh
  = Packet_ (Examples.image2x2 2)
      {| m_oLatestInputPacket := Examples.image2x2 2;
         m_oLatestGTPacket := emptyMat;
         events := [InputPacketImpl 2] |}.
Proof. reflexivity. Qed.

End LoaderFacts.

(** ** Starting an engine with no room *)



(** * Further properties *)

(** ** Writer: bounded memory, exact counters, orderly shutdown *)

Module WriterExtra.
Import OrderedMap OrderedMapFacts DataWriter WriterRuns WriterFacts.

Lemma reachable_fresh_reachable sink w : reachable_fresh sink w -> reachable sink w.
Proof.
  induction 1 as [g|w n d k b w' _ IH Hs|w pkt idx pos w' _ IH Hi _ _ Hq|w w' _ IH Ht].
  - apply reach_new.
  - now apply (reach_start sink w n d k b w').
  - now apply (reach_queue sink w pkt idx pos w').
  - now apply (reach_turn sink w w').
Qed.

(** X1: an active writer never holds more bytes than its ceiling, and the
    ceiling never exceeds [CACHE_MAX_SIZE], whatever was queued and sunk. *)
Theorem writer_memory_bounded sink w :
  reachable sink w -> m_bIsActive w = true ->
  0 <= m_nQueueSize w <= m_nQueueMaxSize w /\
  m_nQueueMaxSize w <= CACHE_MAX_SIZE.
Proof.
  intros Hreach Hact.
  destruct (reachable_wf sink w Hreach) as (_ & Hsz & _ & Hbound).
  specialize (Hbound Hact). unfold is_size_t in Hsz. lia.
Qed.

Lemma writer_two_pending_reachable :
  reachable Examples.sink_idx Examples.writer_two_pending.
Proof.
  apply (reach_queue Examples.sink_idx
           (Examples.writer_after [Byte.x02; Byte.x03] 8 (Examples.writer_started false))
           [Byte.x01] 3 0 Examples.writer_two_pending);
    [|vm_compute; split; [discriminate|reflexivity]|vm_compute; reflexivity].
  apply (reach_queue Examples.sink_idx (Examples.writer_started false)
           [Byte.x02; Byte.x03] 8 0
           (Examples.writer_after [Byte.x02; Byte.x03] 8 (Examples.writer_started false)));
    [|vm_compute; split; [discriminate|reflexivity]|vm_compute; reflexivity].
  apply (reach_start Examples.sink_idx (DataWriter 0) 100 false 1 true
           (Examples.writer_started false));
    [apply reach_new|vm_compute; reflexivity].
Qed.

Lemma writer_memory_bounded_witness :
  0 <= m_nQueueSize Examples.writer_two_pending
    <= m_nQueueMaxSize Examples.writer_two_pending /\
  m_nQueueMaxSize Examples.writer_two_pending <= CACHE_MAX_SIZE.
Proof.
  apply (writer_memory_bounded Examples.sink_idx Examples.writer_two_pending
           writer_two_pending_reachable).
  reflexivity.
Defined.

Lemma entry_step_packet_count w w' :
  packet_count_ok w -> entry_step w = Sunk w' -> packet_count_ok w'.
Proof.
  unfold packet_count_ok, entry_step. intros Hc.
  destruct (m_bIsActive w || (0 <? m_nQueueCount w)); [|discriminate].
  destruct (m_nQueueCount w =? 0); [discriminate|].
  destruct (m_mQueue w) as [|[k v] rest]; [discriminate|].
  destruct (packet_size v <=? m_nQueueSize w); [|discriminate].
  intros Heq; inversion Heq; subst; clear Heq. simpl in *.
  rewrite Hc. unfold wrap. rewrite Zminus_mod_idemp_l. f_equal. lia.
Qed.

Lemma queue_packet_count sink oPacket nIdx w nPos w' :
  packet_count_ok w -> find nIdx (m_mQueue w) = None ->
  queue sink oPacket nIdx w = Returned nPos w' -> packet_count_ok w'.
Proof.
  unfold packet_count_ok, queue, queue_insert. intros Hc Hfresh.
  destruct (m_bIsActive w); simpl.
  - destruct (negb (m_bAllowPacketDrop w)
              && (m_nQueueMaxSize w <? wrap (m_nQueueSize w + packet_size oPacket)));
      [discriminate|].
    destruct (wrap (m_nQueueSize w + packet_size oPacket) <=? m_nQueueMaxSize w);
      intros Heq; inversion Heq; subst; clear Heq; simpl; [|exact Hc].
    assert (Hlen : length (assign nIdx oPacket (m_mQueue w)) = S (length (m_mQueue w))).
    { clear Hc. induction (m_mQueue w) as [|[k v] m IH]; simpl in *; [reflexivity|].
      destruct (nIdx <? k); [reflexivity|].
      destruct (nIdx =? k); [discriminate|]. simpl. now rewrite IH. }
    rewrite Hlen, Hc. unfold wrap. rewrite Zplus_mod_idemp_l. f_equal. lia.
  - intros Heq; inversion Heq; subst. exact Hc.
Qed.

Lemma drain_counters n : forall w w',
  wf w -> byte_count_ok w -> packet_count_ok w -> drain n w = Some w' ->
  byte_count_ok w' /\ packet_count_ok w'.
Proof.
  induction n as [|n IH]; intros w w' Hwf Hb Hc; simpl;
    destruct (entry_step w) as [| | |w1] eqn:Hstep;
    try discriminate; try (intros H; inversion H; subst; auto; fail).
  intros H. apply (IH w1); [| | |exact H].
  - now apply (entry_step_wf w).
  - now apply (entry_step_byte_count w).
  - now apply (entry_step_packet_count w).
Qed.

Lemma stopAsyncWriting_counters w w' :
  wf w -> byte_count_ok w -> packet_count_ok w -> stopAsyncWriting w = Some w' ->
  byte_count_ok w' /\ packet_count_ok w'.
Proof.
  intros Hwf Hb Hc. unfold stopAsyncWriting.
  destruct (m_bIsActive w) eqn:Hact; [|intros H; inversion H; subst; auto].
  simpl.
  assert (Hwf1 : wf {| m_bIsActive := false;
                       m_bAllowPacketDrop := m_bAllowPacketDrop w;
                       m_nQueueMaxSize := m_nQueueMaxSize w;
                       m_nQueueSize := m_nQueueSize w;
                       m_nQueueCount := m_nQueueCount w;
                       m_mQueue := m_mQueue w; m_vhWorkers := m_vhWorkers w;
                       archived := archived w |}).
  { destruct Hwf as (H1 & H2 & H3 & _). unfold wf; simpl.
    split; [exact H1|]. split; [exact H2|]. split; [exact H3|].
    intros Hf; discriminate Hf. }
  destruct (m_vhWorkers w) as [|t ts].
  - intros H; inversion H; subst. auto.
  - destruct (forallb (fun joinable : bool => joinable) (t :: ts)); [|discriminate].
    match goal with
    | |- context [drain ?n ?w0] =>
        destruct (drain n w0) as [w2|] eqn:Hdrain; [|discriminate]
    end.
    intros H; inversion H; subst; clear H.
    apply drain_counters in Hdrain; [|exact Hwf1|exact Hb|exact Hc].
    exact Hdrain.
Qed.

Lemma reachable_fresh_counters sink w :
  reachable_fresh sink w -> byte_count_ok w /\ packet_count_ok w.
Proof.
  induction 1 as [g|w n d k b w' Hr [IHb IHc] Hs
                  |w pkt idx pos w' Hr [IHb IHc] Hi Hsmall Hfresh Hq
                  |w w' Hr [IHb IHc] Ht].
  - split; reflexivity.
  - pose proof (reachable_wf sink w (reachable_fresh_reachable sink w Hr)) as Hwf.
    unfold startAsyncWriting in Hs.
    assert (Hstop : forall w1,
              (if m_bIsActive w then stopAsyncWriting w else Some w) = Some w1 ->
              byte_count_ok w1 /\ packet_count_ok w1).
    { intros w1. destruct (m_bIsActive w).
      - now apply stopAsyncWriting_counters.
      - intros H; inversion H; subst; auto. }
    destruct (if m_bIsActive w then stopAsyncWriting w else Some w) as [w1|];
      [|discriminate].
    specialize (Hstop w1 eq_refl).
    destruct (0 <? n); inversion Hs; subst; [split; reflexivity|exact Hstop].
  - pose proof (reachable_wf sink w (reachable_fresh_reachable sink w Hr)) as Hwf.
    split.
    + now apply (queue_fresh_byte_count sink pkt idx w pos w').
    + now apply (queue_packet_count sink pkt idx w pos w').
  - pose proof (reachable_wf sink w (reachable_fresh_reachable sink w Hr)) as Hwf.
    split.
    + now apply (entry_step_byte_count w w').
    + now apply (entry_step_packet_count w w').
Qed.

(** X2: as long as no index is queued while it is pending, the byte counter
    is the sum of the pending payload lengths, the packet counter is the
    number of pending packets (as a [size_t]), and no assertion of the
    worker loop can fail. *)
Theorem fresh_indices_keep_counters_exact sink w :
  reachable_fresh sink w ->
  m_nQueueSize w = total_bytes (m_mQueue w) /\
  m_nQueueCount w = wrap (Z.of_nat (length (m_mQueue w))) /\
  entry_step w <> AssertionFailed.
Proof.
  intros Hr. destruct (reachable_fresh_counters sink w Hr) as [Hb Hc].
  split; [exact Hb|]. split; [exact Hc|].
  unfold entry_step.
  destruct (m_bIsActive w || (0 <? m_nQueueCount w)); [|discriminate].
  destruct (Z.eqb_spec (m_nQueueCount w) 0) as [|Hne]; [discriminate|].
  unfold byte_count_ok in Hb. unfold packet_count_ok in Hc.
  destruct (m_mQueue w) as [|[k v] rest].
  - simpl in Hc. contradiction.
  - simpl in Hb. pose proof (total_bytes_nonneg rest).
    destruct (Z.leb_spec (packet_size v) (m_nQueueSize w)); [discriminate|lia].
Qed.

Lemma writer_two_pending_fresh :
  reachable_fresh Examples.sink_idx Examples.writer_two_pending.
Proof.
  apply (fresh_queue Examples.sink_idx
           (Examples.writer_after [Byte.x02; Byte.x03] 8 (Examples.writer_started false))
           [Byte.x01] 3 0 Examples.writer_two_pending);
    [|vm_compute; split; [discriminate|reflexivity]|vm_compute; reflexivity
     |vm_compute; reflexivity|vm_compute; reflexivity].
  apply (fresh_queue Examples.sink_idx (Examples.writer_started false)
           [Byte.x02; Byte.x03] 8 0
           (Examples.writer_after [Byte.x02; Byte.x03] 8 (Examples.writer_started false)));
    [|vm_compute; split; [discriminate|reflexivity]|vm_compute; reflexivity
     |vm_compute; reflexivity|vm_compute; reflexivity].
  apply (fresh_start Examples.sink_idx (DataWriter 0) 100 false 1 true
           (Examples.writer_started false));
    [apply fresh_new|vm_compute; reflexivity].
Qed.

Lemma fresh_indices_keep_counters_exact_witness :
  m_nQueueSize Examples.writer_two_pending
  = total_bytes (m_mQueue Examples.writer_two_pending) /\
  m_nQueueCount Examples.writer_two_pending
  = wrap (Z.of_nat (length (m_mQueue Examples.writer_two_pending))) /\
  entry_step Examples.writer_two_pending <> AssertionFailed.
Proof.
  apply (fresh_indices_keep_counters_exact Examples.sink_idx
           Examples.writer_two_pending writer_two_pending_fresh).
Defined.



End WriterExtra.

(** ** Writer: nothing is lost *)

Module WriterKeptFacts.
Import OrderedMap OrderedMapFacts DataWriter WriterRuns WriterKept WriterFacts
  WriterExtra.

Lemma run_kept_fresh sink kept w : run_kept sink kept w -> reachable_fresh sink w.
Proof.
  induction 1 as [g|kept w n d k b w' _ IH Hk Hs
                  |kept w pkt idx pos w' _ IH Hi Hsz Hf Hq|kept w w' _ IH Ht].
  - apply fresh_new.
  - now apply (fresh_start sink w n d k b w').
  - now apply (fresh_queue sink w pkt idx pos w').
  - now apply (fresh_turn sink w w').
Qed.

Lemma assign_fresh_permutation k v m :
  find k m = None -> Permutation (assign k v m) ((k, v) :: m).
Proof.
  induction m as [|[k' v'] m IH]; intros Hf; simpl in *; [reflexivity|].
  destruct (Z.eqb_spec k k'); [discriminate|].
  destruct (k <? k'); [reflexivity|].
  rewrite (IH Hf). apply perm_swap.
Qed.

Lemma sunk_in_order_permutation m1 m2 :
  Permutation m1 m2 -> Permutation (sunk_in_order m1) (sunk_in_order m2).
Proof. intros H. unfold sunk_in_order. now apply Permutation_map. Qed.

(** stopping an active writer that has workers empties the queue into the
    log of the sink *)
Lemma stop_active_drains w w' :
  wf w -> byte_count_ok w -> packet_count_ok w ->
  Z.of_nat (length (m_mQueue w)) < SIZE_MOD ->
  m_bIsActive w = true -> m_vhWorkers w <> [] ->
  stopAsyncWriting w = Some w' ->
  m_bIsActive w' = false /\ m_mQueue w' = [] /\
  archived w' = archived w ++ sunk_in_order (m_mQueue w).
Proof.
  intros Hwf Hb Hc Hlen Hact Hworkers Hstop.
  unfold packet_count_ok in Hc. rewrite wrap_small in Hc by lia.
  set (w1 := {| m_bIsActive := false; m_bAllowPacketDrop := m_bAllowPacketDrop w;
                m_nQueueMaxSize := m_nQueueMaxSize w;
                m_nQueueSize := m_nQueueSize w; m_nQueueCount := m_nQueueCount w;
                m_mQueue := m_mQueue w; m_vhWorkers := m_vhWorkers w;
                archived := archived w |}).
  assert (Hwf1 : wf w1).
  { destruct Hwf as (H1 & H2 & H3 & _). unfold wf, w1; simpl.
    split; [exact H1|]. split; [exact H2|]. split; [exact H3|].
    intros Hf; discriminate Hf. }
  destruct (drain_ascending (m_mQueue w) w1 eq_refl Hwf1 eq_refl Hc Hb)
    as (w2 & Hd & Hempty & Hlog).
  unfold stopAsyncWriting in Hstop. rewrite Hact in Hstop. fold w1 in Hstop.
  simpl in Hstop.
  destruct (m_vhWorkers w) as [|t ts] eqn:Hts; [contradiction|].
  destruct (forallb (fun joinable : bool => joinable) (t :: ts)); [|discriminate].
  rewrite Hc, Nat2Z.id, Hd in Hstop. inversion Hstop; subst w'; clear Hstop.
  simpl. destruct (drain_keeps _ _ _ Hd) as [Ha _].
  split; [exact Ha|]. split; [exact Hempty|exact Hlog].
Qed.

Lemma run_kept_inv sink kept w :
  run_kept sink kept w ->
  Z.of_nat (length kept) < SIZE_MOD ->
  Permutation (archived w ++ sunk_in_order (m_mQueue w)) kept /\
  (m_bIsActive w = false -> m_mQueue w = []) /\
  (m_bIsActive w = true -> m_vhWorkers w <> []).
Proof.
  induction 1 as [g|kept w n d k b w' Hr IH Hk Hs
                  |kept w pkt idx pos w' Hr IH Hi Hsz Hf Hq|kept w w' Hr IH Ht];
    intros Hlen.
  - simpl. split; [reflexivity|]. split; [reflexivity|discriminate].
  - destruct (IH Hlen) as (Hperm & Hidle & Hwork).
    pose proof (run_kept_fresh sink kept w Hr) as Hfresh.
    pose proof (reachable_wf sink w (reachable_fresh_reachable sink w Hfresh)) as Hwf.
    destruct (reachable_fresh_counters sink w Hfresh) as [Hb Hc].
    assert (Hq : Z.of_nat (length (m_mQueue w)) < SIZE_MOD).
    { apply Permutation_length in Hperm.
      rewrite length_app in Hperm. unfold sunk_in_order in Hperm.
      rewrite length_map in Hperm. lia. }
    unfold startAsyncWriting in Hs.
    destruct (m_bIsActive w) eqn:Hact.
    + destruct (stopAsyncWriting w) as [w1|] eqn:Hstop; [|discriminate].
      destruct (stop_active_drains w w1 Hwf Hb Hc Hq Hact (Hwork eq_refl) Hstop)
        as (Hact1 & Hempty1 & Hlog1).
      destruct (0 <? n); inversion Hs; subst; clear Hs; simpl.
      * rewrite Hlog1, app_nil_r. split; [exact Hperm|].
        split; [discriminate|]. intros _.
        destruct k; [lia|]. simpl.
        destruct (m_vhWorkers w1); discriminate.
      * rewrite Hlog1, Hempty1, app_nil_r. split; [exact Hperm|].
        split; [reflexivity|]. rewrite Hact1. discriminate.
    + destruct (0 <? n); inversion Hs; subst; clear Hs; simpl.
      * rewrite (Hidle eq_refl) in Hperm. split; [exact Hperm|].
        split; [discriminate|]. intros _.
        destruct k; [lia|]. simpl.
        destruct (m_vhWorkers w); discriminate.
      * split; [exact Hperm|]. split; [intros _; exact (Hidle eq_refl)|].
        rewrite Hact. discriminate.
  - assert (Hlen0 : Z.of_nat (length kept) < SIZE_MOD).
    { destruct (taken_in pkt w); [|exact Hlen].
      rewrite length_app in Hlen. simpl in Hlen. lia. }
    destruct (IH Hlen0) as (Hperm & Hidle & Hwork).
    unfold queue, queue_insert in Hq. unfold taken_in.
    destruct (m_bIsActive w) eqn:Hact; simpl in *.
    + destruct (negb (m_bAllowPacketDrop w)
                && (m_nQueueMaxSize w <? wrap (m_nQueueSize w + packet_size pkt)));
        [discriminate|].
      destruct (wrap (m_nQueueSize w + packet_size pkt) <=? m_nQueueMaxSize w);
        inversion Hq; subst; clear Hq; simpl.
      * split; [|split; [discriminate|exact Hwork]].
        rewrite (sunk_in_order_permutation _ _
                   (assign_fresh_permutation idx pkt (m_mQueue w) Hf)).
        simpl. rewrite <- Permutation_middle.
        rewrite <- Hperm. apply Permutation_cons_append.
      * split; [exact Hperm|].
        split; [rewrite Hact; discriminate|intros _; exact (Hwork eq_refl)].
    + inversion Hq; subst; clear Hq. simpl.
      rewrite (Hidle eq_refl) in *. simpl in *. rewrite app_nil_r in *.
      split; [now apply Permutation_app_tail|].
      split; [reflexivity|rewrite Hact; discriminate].
  - destruct (IH Hlen) as (Hperm & Hidle & Hwork).
    unfold entry_step in Ht.
    destruct (m_bIsActive w || (0 <? m_nQueueCount w)) eqn:Hloop; [|discriminate].
    destruct (m_nQueueCount w =? 0); [discriminate|].
    destruct (m_mQueue w) as [|[k v] rest] eqn:Hq; [discriminate|].
    destruct (packet_size v <=? m_nQueueSize w); [|discriminate].
    inversion Ht; subst; clear Ht. simpl in *.
    split; [now rewrite <- app_assoc|].
    split; [|exact Hwork].
    intros Hact. specialize (Hidle Hact). discriminate.
Qed.

(** X24: the writer loses no packet and sinks none twice.  In a run in
    which the writer is always started with at least one worker and no
    index is queued while it is pending, the packets handed to the sink so
    far together with the pending ones are, up to order, exactly the
    packets [queue] took in (all but those dropped on a full queue); once
    the writer is stopped, all of them have been handed to the sink. *)
Theorem writer_loses_nothing sink kept w :
  run_kept sink kept w ->
  Z.of_nat (length kept) < SIZE_MOD ->
  Permutation (archived w ++ sunk_in_order (m_mQueue w)) kept /\
  (m_bIsActive w = false -> Permutation (archived w) kept).
Proof.
  intros Hrun Hlen.
  destruct (run_kept_inv sink kept w Hrun Hlen) as (Hperm & Hidle & _).
  split; [exact Hperm|].
  intros Hact. rewrite (Hidle Hact) in Hperm. simpl in Hperm.
  now rewrite app_nil_r in Hperm.
Qed.

Lemma writer_two_pending_kept :
  run_kept Examples.sink_idx
    [([Byte.x02; Byte.x03], 8); ([Byte.x01], 3)] Examples.writer_two_pending.
Proof.
  pose proof (kept_start Examples.sink_idx [] (DataWriter 0) 100 false 1 true
                (Examples.writer_started false)
                (kept_new Examples.sink_idx 0) ltac:(lia) eq_refl) as H1.
  pose proof (kept_queue Examples.sink_idx [] (Examples.writer_started false)
                [Byte.x02; Byte.x03] 8 0
                (Examples.writer_after [Byte.x02; Byte.x03] 8
                   (Examples.writer_started false))
                H1 ltac:(vm_compute; split; [discriminate|reflexivity])
                ltac:(vm_compute; reflexivity) eq_refl eq_refl) as H2.
  pose proof (kept_queue Examples.sink_idx _ _ [Byte.x01] 3 0
                Examples.writer_two_pending
                H2 ltac:(vm_compute; split; [discriminate|reflexivity])
                ltac:(vm_compute; reflexivity) eq_refl eq_refl) as H3.
  exact H3.
Qed.

Lemma writer_loses_nothing_witness :
  Permutation
    (archived Examples.writer_two_pending
     ++ sunk_in_order (m_mQueue Examples.writer_two_pending))
    [([Byte.x02; Byte.x03], 8); ([Byte.x01], 3)] /\
  (m_bIsActive Examples.writer_two_pending = false ->
   Permutation (archived Examples.writer_two_pending)
     [([Byte.x02; Byte.x03], 8); ([Byte.x01], 3)]).
Proof.
  apply (writer_loses_nothing Examples.sink_idx
           [([Byte.x02; Byte.x03], 8); ([Byte.x01], 3)]
           Examples.writer_two_pending writer_two_pending_kept).
  reflexivity.
Defined.

Lemma stopped_workers_not_joinable w w1 :
  m_bIsActive w = true -> m_vhWorkers w <> [] ->
  stopAsyncWriting w = Some w1 ->
  m_bIsActive w1 = false /\
  exists t ts, m_vhWorkers w1 = false :: map (fun _ : bool => false) (t :: ts)
               \/ m_vhWorkers w1 = [false].
Proof.
  intros Hact Hworkers. unfold stopAsyncWriting. rewrite Hact. simpl.
  destruct (m_vhWorkers w) as [|t ts] eqn:Hts; [contradiction|].
  destruct (forallb (fun joinable : bool => joinable) (t :: ts)); [|discriminate].
  destruct (drain _ _) as [w2|] eqn:Hd; [|discriminate].
  intros H; inversion H; subst w1; clear H. simpl.
  destruct (drain_keeps _ _ _ Hd) as [Ha Hv]. simpl in Ha, Hv.
  split; [exact Ha|]. rewrite Hv. simpl.
  destruct ts as [|t' ts']; [exists t, []; now right|].
  exists t', ts'. now left.
Qed.

(** X27: a writer can be stopped only once.  [stopAsyncWriting] joins the
    worker threads and leaves them in [m_vhWorkers]; after a further start,
    be it after a stop or on the active writer, the next stop joins a
    thread that is not joinable any more and does not return normally. *)
Theorem writer_cannot_be_stopped_twice w nSuggestedQueueSize
    bDropPacketsIfFull nWorkers :
  m_bIsActive w = true -> m_vhWorkers w <> [] -> 0 < nSuggestedQueueSize ->
  (forall w1 bStarted w2,
     stopAsyncWriting w = Some w1 ->
     startAsyncWriting nSuggestedQueueSize bDropPacketsIfFull nWorkers w1
     = Some (bStarted, w2) ->
     bStarted = true /\ stopAsyncWriting w2 = None) /\
  (forall bStarted w2,
     startAsyncWriting nSuggestedQueueSize bDropPacketsIfFull nWorkers w
     = Some (bStarted, w2) ->
     bStarted = true /\ stopAsyncWriting w2 = None).
Proof.
  intros Hact Hworkers Hn.
  assert (Hmain : forall w1 bStarted w2,
            stopAsyncWriting w = Some w1 ->
            startAsyncWriting nSuggestedQueueSize bDropPacketsIfFull nWorkers w1
            = Some (bStarted, w2) ->
            bStarted = true /\ stopAsyncWriting w2 = None).
  { intros w1 b w2 Hstop Hstart.
    destruct (stopped_workers_not_joinable w w1 Hact Hworkers Hstop)
      as (Hact1 & t & ts & Hv).
    unfold startAsyncWriting in Hstart. rewrite Hact1 in Hstart.
    destruct (Z.ltb_spec 0 nSuggestedQueueSize); [|lia].
    inversion Hstart; subst b w2; clear Hstart.
    split; [reflexivity|].
    unfold stopAsyncWriting. simpl.
    destruct Hv as [Hv|Hv]; rewrite Hv; reflexivity. }
  split; [exact Hmain|].
  intros b w2 Hstart.
  pose proof Hstart as Hstart0.
  unfold startAsyncWriting in Hstart0. rewrite Hact in Hstart0.
  destruct (stopAsyncWriting w) as [w1|] eqn:Hstop; [|discriminate].
  apply (Hmain w1 b w2 eq_refl).
  destruct (stopped_workers_not_joinable w w1 Hact Hworkers Hstop) as (Hact1 & _).
  unfold startAsyncWriting. rewrite Hact1. exact Hstart0.
Qed.

Lemma writer_cannot_be_stopped_twice_witness :
  (forall w1 bStarted w2,
     stopAsyncWriting Examples.writer_two_pending = Some w1 ->
     startAsyncWriting 50 false 2 w1 = Some (bStarted, w2) ->
     bStarted = true /\ stopAsyncWriting w2 = None) /\
  (forall bStarted w2,
     startAsyncWriting 50 false 2 Examples.writer_two_pending
     = Some (bStarted, w2) ->
     bStarted = true /\ stopAsyncWriting w2 = None).
Proof.
  apply (writer_cannot_be_stopped_twice Examples.writer_two_pending 50 false 2).
  - reflexivity.
  - discriminate.
  - reflexivity.
Defined.

End WriterKeptFacts.

(** ** Precacher: buffer layout, cache hits, prefill of a whole batch *)

Module PrecacherExtra.
Import DataPrecacher PrecacherSpec PrecacherLayout PrecacherFacts.

Ltac psizes :=
  pose proof SIZE_MOD_eq; pose proof CACHE_MAX_SIZE_eq;
  unfold SIZE_MAX, is_size_t in *;
  change (2 ^ 63) with 9223372036854775808 in *.

Lemma wrapped_worker_reachable :
  worker_reachable Examples.load4
    (Examples.worker_of Examples.precacher_wrapped) (MatView 24 4).
Proof.
  pose proof (after_timeout Examples.load4
                (Examples.worker_of (Examples.fetch 6 (Examples.fetch 5
                   (Examples.fetch 4 (Examples.fetch 3 (Examples.fetch 2
                   (Examples.fetch 1 (Examples.fetch 0
                   (snd (startAsyncPrecaching Examples.load4 32 20
                           (DataPrecacher))))))))))) (MatView 24 4)
                [0; 1; 2; 3; 4; 5; 6; 7]) as Hstep.
  vm_compute in Hstep. vm_compute. apply Hstep. clear Hstep.
  pose proof (fun w req r Hw Hr =>
                after_serve Examples.load4 w req r [] Hw Hr) as Hserve.
  assert (Hsz : forall r, 0 <= r < 10 -> is_size_t r)
    by (intros r Hr; unfold is_size_t; rewrite SIZE_MOD_eq; lia).
  pose proof (after_prefill Examples.load4 32 20 []
                ltac:(vm_compute; split; [reflexivity|discriminate])) as H0.
  vm_compute in H0.
  pose proof (Hserve _ _ 0 H0 (Hsz 0 ltac:(lia))) as H1. vm_compute in H1.
  pose proof (Hserve _ _ 1 H1 (Hsz 1 ltac:(lia))) as H2. vm_compute in H2.
  pose proof (Hserve _ _ 2 H2 (Hsz 2 ltac:(lia))) as H3. vm_compute in H3.
  pose proof (Hserve _ _ 3 H3 (Hsz 3 ltac:(lia))) as H4. vm_compute in H4.
  pose proof (Hserve _ _ 4 H4 (Hsz 4 ltac:(lia))) as H5. vm_compute in H5.
  pose proof (Hserve _ _ 5 H5 (Hsz 5 ltac:(lia))) as H6. vm_compute in H6.
  pose proof (Hserve _ _ 6 H6 (Hsz 6 ltac:(lia))) as H7. vm_compute in H7.
  exact H7.
Defined.

(** X4: every packet in the cache lies inside the scratch buffer, without
    straddling its end, has the size of the packet the loader yields for
    its index, and holds that packet's bytes. *)
Theorem cached_packets_hold_loader_bytes load w req :
  loader_ok load -> worker_reachable load w req ->
  Forall (slot_holds load (nBufferSize w) (vcBuffer w)) (qoCache w).
Proof.
  intros Hload Hreach.
  pose proof (worker_reachable_inv load Hload w req Hreach)
    as (_ & _ & _ & Hring & Hslots & _).
  rewrite Forall_forall in Hslots |- *. intros s Hs.
  destruct (Hslots s Hs) as [Hlen Hbytes].
  pose proof (ring_ok_inside _ _ _ _ (slot_off s) (slot_len s) Hring
                (slot_span_live req (qoCache w) s (proj1 (list_elem_of_In _ _) Hs)))
    as Hin.
  unfold slot_holds. repeat split; try assumption; lia.
Qed.

Lemma cached_packets_hold_loader_bytes_witness :
  Forall (slot_holds Examples.load4 32
            (vcBuffer (Examples.worker_of Examples.precacher_wrapped)))
    (qoCache (Examples.worker_of Examples.precacher_wrapped)).
Proof.
  exact (cached_packets_hold_loader_bytes Examples.load4
           (Examples.worker_of Examples.precacher_wrapped) (MatView 24 4)
           load4_ok wrapped_worker_reachable).
Defined.

Lemma asc_bytes lo hi L : asc lo hi L -> span_bytes L <= hi - lo.
Proof.
  revert lo. induction L as [|[off len] L IH]; intros lo H; simpl in *.
  - lia.
  - destruct H as (H1 & H2 & H3). specialize (IH _ H3). lia.
Qed.

Lemma asc_after lo hi L :
  asc lo hi L -> Forall (fun s => lo <= fst s /\ fst s + snd s <= hi) L.
Proof.
  revert lo. induction L as [|[off len] L IH]; intros lo H; simpl in *.
  - constructor.
  - destruct H as (H1 & H2 & H3). constructor.
    + simpl. pose proof (asc_bounds _ _ _ H3). lia.
    + specialize (IH _ H3). eapply Forall_impl; [exact IH|].
      intros [o l] [Ho Hl]; simpl in *. lia.
Qed.

Lemma asc_disjoint lo hi L : asc lo hi L -> ForallOrdPairs span_disjoint L.
Proof.
  revert lo. induction L as [|[off len] L IH]; intros lo H; simpl in *.
  - constructor.
  - destruct H as (H1 & H2 & H3). constructor; [|exact (IH _ H3)].
    eapply Forall_impl; [exact (asc_after _ _ _ H3)|].
    intros [o l] [Ho Hl]. left. simpl in *. lia.
Qed.

Lemma span_bytes_app L1 L2 :
  span_bytes (L1 ++ L2) = span_bytes L1 + span_bytes L2.
Proof.
  induction L1 as [|[off len] L1 IH]; simpl; [reflexivity|]. rewrite IH. lia.
Qed.

Lemma disjoint_app L1 L2 :
  ForallOrdPairs span_disjoint L1 -> ForallOrdPairs span_disjoint L2 ->
  Forall (fun a => Forall (span_disjoint a) L2) L1 ->
  ForallOrdPairs span_disjoint (L1 ++ L2).
Proof.
  induction 1 as [|a L1 Ha H1 IH]; intros H2 Hx; simpl; [exact H2|].
  apply Forall_cons in Hx as [Hx1 Hx2].
  constructor; [|exact (IH H2 Hx2)].
  apply Forall_app. split; assumption.
Qed.

(** X5: the regions of the scratch buffer that are still referenced, the
    packet last handed to the caller and the cached packets, are pairwise
    disjoint, and together they take fewer bytes than the buffer has. *)
Theorem live_regions_disjoint load w req :
  loader_ok load -> worker_reachable load w req ->
  ForallOrdPairs span_disjoint (live_spans req (qoCache w)) /\
  span_bytes (live_spans req (qoCache w)) < nBufferSize w.
Proof.
  intros Hload Hreach.
  pose proof (worker_reachable_inv load Hload w req Hreach)
    as (HB & _ & _ & Hring & _).
  destruct Hring as [(_ & _ & HL) | [(HF & HX & Hasc) | (HX & HXF & HFB & L1 & L2 & HL & H1 & H2)]].
  - rewrite HL. split; [constructor|simpl; lia].
  - split; [exact (asc_disjoint _ _ _ Hasc)|].
    pose proof (asc_bytes _ _ _ Hasc). lia.
  - rewrite HL. split.
    + apply disjoint_app; [exact (asc_disjoint _ _ _ H1)|exact (asc_disjoint _ _ _ H2)|].
      eapply Forall_impl; [exact (asc_after _ _ _ H1)|].
      intros [o1 l1] [Ho1 Hl1].
      eapply Forall_impl; [exact (asc_after _ _ _ H2)|].
      intros [o2 l2] [Ho2 Hl2]. right. simpl in *. lia.
    + rewrite span_bytes_app.
      pose proof (asc_bytes _ _ _ H1). pose proof (asc_bytes _ _ _ H2). lia.
Qed.


Lemma live_regions_disjoint_witness :
  ForallOrdPairs span_disjoint
    (live_spans (MatView 24 4)
       (qoCache (Examples.worker_of Examples.precacher_wrapped))) /\
  span_bytes (live_spans (MatView 24 4)
       (qoCache (Examples.worker_of Examples.precacher_wrapped)))
  < nBufferSize (Examples.worker_of Examples.precacher_wrapped).
Proof.
  exact (live_regions_disjoint Examples.load4
           (Examples.worker_of Examples.precacher_wrapped) (MatView 24 4)
           load4_ok wrapped_worker_reachable).
Defined.

(** a request inside the cached range is served without a loader call *)
Lemma serve_hit load r w req log :
  worker_inv load w req ->
  nNextExpectedReqIdx w <= r < nNextPrecacheIdx w ->
  snd (serve load r w req log) = log.
Proof.
  intros (HB & _ & Hne & _ & _ & _ & Hnp & _) Hr.
  unfold serve.
  assert (Hneq : r <> wrap (nNextExpectedReqIdx w - 1)).
  { psizes. destruct (Z.eq_dec (nNextExpectedReqIdx w) 0) as [E|E].
    - rewrite E. change (wrap (0 - 1)) with 18446744073709551615.
      assert (nNextPrecacheIdx w < 2 ^ 64)
        by (rewrite Hnp; pose proof (wrap_range (nNextExpectedReqIdx w
              + Z.of_nat (length (qoCache w)))); psizes; lia).
      lia.
    - rewrite wrap_small by (psizes; lia). lia. }
  destruct (Z.eqb_spec r (wrap (nNextExpectedReqIdx w - 1))); [contradiction|].
  simpl negb. cbv iota.
  destruct (qoCache w) as [|s q] eqn:Hq.
  - exfalso. simpl in Hnp. rewrite Z.add_0_r in Hnp.
    rewrite wrap_small in Hnp by (psizes; lia). lia.
  - destruct (Z.ltb_spec r (nNextPrecacheIdx w)); [|lia].
    destruct (Z.leb_spec (nNextExpectedReqIdx w) r); [|lia].
    simpl andb. cbv iota.
    destruct (pop_until r (s :: q) (nNextExpectedReqIdx w) (nFirstBufferIdx w) req)
      as [[[q' ne'] F'] req'].
    reflexivity.
Qed.

Lemma served_notified_log load nIdx p :
  is_size_t nIdx -> served load nIdx p ->
  loaded (worker_wakeup load Notified p) = loaded p.
Proof.
  intros Hi [(Hact & Hreq & w & Hw & Hreach) (w0 & Hw0 & Hne)].
  rewrite Hw in Hw0. inversion Hw0; subst w0.
  unfold worker_wakeup. rewrite Hw, Hact, Hreq.
  rewrite serve_again; [reflexivity|].
  rewrite Hne. symmetry. now apply wrap_succ_pred.
Qed.

Lemma served_notified_run load (Hload : loader_ok load) n : forall nIdx p,
  is_size_t nIdx -> served load nIdx p ->
  loaded (worker_run load (repeat Notified n) p) = loaded p.
Proof.
  induction n as [|n IH]; intros nIdx p Hi Hs; [reflexivity|].
  simpl. rewrite (IH nIdx); [now apply (served_notified_log load nIdx)|exact Hi|].
  now apply worker_wakeup_served.
Qed.

Lemma precacher_after_0_reachable :
  reachable Examples.load4 Examples.precacher_after_0.
Proof.
  eapply (reach_get Examples.load4 Examples.precacher_started 0 [Notified]);
    [|vm_compute; split; [discriminate|reflexivity]|vm_compute; reflexivity].
  apply (reach_start Examples.load4 (DataPrecacher) 16 5);
    [apply reach_new|reflexivity|reflexivity].
Qed.

(** X6: a fetch of an index the cache holds, that is one from the next
    expected index up to the next index to precache, returns the loader's
    bytes for it and calls the loader not once: the log of loader calls is
    the same after the fetch, however often the worker is notified. *)
Theorem cache_hit_calls_no_loader load p w nIdx n :
  loader_ok load -> reachable load p -> m_hWorker p = Some w ->
  nNextExpectedReqIdx w <= nIdx < nNextPrecacheIdx w ->
  exists m p',
    getPacket load nIdx (repeat Notified (S n)) p = Some (m, p') /\
    loaded p' = loaded p /\ mat_bytes p' m = load nIdx.
Proof.
  intros Hload Hreach Hw Hr.
  pose proof (reachable_inv load Hload p Hreach) as Hinv.
  pose proof Hinv as (_ & _ & Hwk). rewrite Hw in Hwk.
  destruct Hwk as (Hact & Hwreach & Hreq & _).
  pose proof (worker_reachable_inv load Hload w _ Hwreach) as Hwinv.
  pose proof Hwinv as (_ & _ & Hne & _ & _ & _ & Hnp & _).
  assert (Hi : is_size_t nIdx /\ nIdx <> SIZE_MAX).
  { pose proof (wrap_range (nNextExpectedReqIdx w + Z.of_nat (length (qoCache w)))).
    psizes. lia. }
  destruct Hi as [Hi Hmax].
  destruct (getPacket_returns load nIdx (repeat Notified (S n)) p
              (or_intror eq_refl)) as (m & p' & Hget).
  exists m, p'. split; [exact Hget|]. split.
  - unfold getPacket in Hget.
    destruct (nIdx =? m_nLastReqIdx p); [now inversion Hget|].
    rewrite Hact in Hget. simpl negb in Hget. cbv iota in Hget.
    change (existsb is_notified (repeat Notified (S n))) with true in Hget.
    cbv iota in Hget. inversion Hget as [[Hm Hp']]. clear Hget Hm Hp'.
    cbn [loaded].
    set (p1 := {| m_bIsActive := true; m_nReqIdx := nIdx;
                  m_nLastReqIdx := m_nLastReqIdx p;
                  m_oReqPacket := m_oReqPacket p;
                  m_oLastReqPacket := m_oLastReqPacket p;
                  m_hWorker := m_hWorker p; loaded := loaded p |}).
    assert (Hc : call_inv load nIdx p1).
    { unfold call_inv, p1. cbn. rewrite Hw. eauto. }
    change (repeat Notified (S n)) with (Notified :: repeat Notified n).
    change (worker_run load (Notified :: repeat Notified n) p1)
      with (worker_run load (repeat Notified n) (worker_wakeup load Notified p1)).
    rewrite (served_notified_run load Hload n nIdx);
      [|exact Hi|now apply worker_wakeup_notified_served].
    unfold worker_wakeup, p1. cbn [m_hWorker m_bIsActive m_nReqIdx m_oReqPacket loaded].
    rewrite Hw.
    pose proof (serve_hit load nIdx w (m_oReqPacket p) (loaded p) Hwinv Hr) as Hlog.
    destruct (serve load nIdx w (m_oReqPacket p) (loaded p)) as [[w' req'] log'].
    exact Hlog.
  - now apply (getPacket_inv load Hload nIdx (repeat Notified (S n)) p m p' Hinv Hi Hget).
Qed.

Lemma cache_hit_calls_no_loader_witness :
  exists m p',
    getPacket Examples.load4 2 (repeat Notified 1) Examples.precacher_after_0
    = Some (m, p') /\
    loaded p' = loaded Examples.precacher_after_0 /\
    mat_bytes p' m = Examples.load4 2.
Proof.
  apply (cache_hit_calls_no_loader Examples.load4 Examples.precacher_after_0
           (Examples.worker_of Examples.precacher_after_0) 2 0
           load4_ok precacher_after_0_reachable).
  - reflexivity.
  - vm_compute. split; [discriminate|reflexivity].
Defined.

(** a worker that has served the request does nothing on further notifies *)
Lemma served_notified_same load nIdx p :
  is_size_t nIdx -> served load nIdx p -> worker_wakeup load Notified p = p.
Proof.
  intros Hi [(Hact & Hreq & w & Hw & Hreach) (w0 & Hw0 & Hne)].
  rewrite Hw in Hw0. inversion Hw0; subst w0.
  unfold worker_wakeup. rewrite Hw, Hact, Hreq.
  rewrite serve_again by (rewrite Hne; symmetry; now apply wrap_succ_pred).
  destruct p; simpl in *. congruence.
Qed.

Lemma served_notified_run_same load n : forall nIdx p,
  is_size_t nIdx -> served load nIdx p ->
  worker_run load (repeat Notified n) p = p.
Proof.
  induction n as [|n IH]; intros nIdx p Hi Hs; [reflexivity|].
  simpl. rewrite (served_notified_same load nIdx p Hi Hs). now apply (IH nIdx).
Qed.

(** X7: a fetch of an index outside the cached range, below the last served
    index or at or past the next index to precache, is answered by exactly
    one direct call of the loader; the worker forgets the whole cache and
    restarts it just past the request. *)
Theorem cache_miss_loads_once load p w nIdx n :
  loader_ok load -> reachable load p -> m_hWorker p = Some w ->
  0 <= nIdx < SIZE_MAX -> nIdx <> m_nLastReqIdx p ->
  nIdx + 1 < nNextExpectedReqIdx w \/
  nNextExpectedReqIdx w <= nNextPrecacheIdx w <= nIdx ->
  exists p' w',
    getPacket load nIdx (repeat Notified (S n)) p
    = Some (MatData (load nIdx), p') /\
    loaded p' = loaded p ++ [nIdx] /\
    m_hWorker p' = Some w' /\ qoCache w' = [] /\
    nNextExpectedReqIdx w' = nIdx + 1 /\ nNextPrecacheIdx w' = nIdx + 1.
Proof.
  intros Hload Hreach Hw Hi Hlast Hr.
  pose proof (reachable_inv load Hload p Hreach) as Hinv.
  pose proof Hinv as (_ & _ & Hwk). rewrite Hw in Hwk.
  destruct Hwk as (Hact & Hwreach & Hreq & _).
  pose proof (worker_reachable_inv load Hload w _ Hwreach) as Hwinv.
  pose proof Hwinv as (_ & _ & Hne & _ & _ & _ & Hnp & _).
  assert (Hsz : is_size_t nIdx) by (psizes; lia).
  assert (Hneq : nIdx <> wrap (nNextExpectedReqIdx w - 1)).
  { psizes. destruct (Z.eq_dec (nNextExpectedReqIdx w) 0) as [E|E].
    - rewrite E. change (wrap (0 - 1)) with 18446744073709551615. lia.
    - rewrite wrap_small by (psizes; lia). lia. }
  set (p1 := {| m_bIsActive := true; m_nReqIdx := nIdx;
                m_nLastReqIdx := m_nLastReqIdx p;
                m_oReqPacket := m_oReqPacket p;
                m_oLastReqPacket := m_oLastReqPacket p;
                m_hWorker := m_hWorker p; loaded := loaded p |}).
  assert (Hc : call_inv load nIdx p1).
  { unfold call_inv, p1. cbn. rewrite Hw. eauto. }
  assert (Hserve : serve load nIdx w (m_oReqPacket p) (loaded p)
                   = answer_manually load nIdx w (loaded p)).
  { unfold serve.
    destruct (Z.eqb_spec nIdx (wrap (nNextExpectedReqIdx w - 1))); [contradiction|].
    simpl negb. cbv iota.
    destruct (qoCache w); [reflexivity|].
    destruct (Z.ltb_spec nIdx (nNextPrecacheIdx w));
      destruct (Z.leb_spec (nNextExpectedReqIdx w) nIdx);
      try reflexivity; lia. }
  assert (Hrun : worker_run load (repeat Notified (S n)) p1
                 = worker_wakeup load Notified p1).
  { change (repeat Notified (S n)) with (Notified :: repeat Notified n).
    change (worker_run load (Notified :: repeat Notified n) p1)
      with (worker_run load (repeat Notified n) (worker_wakeup load Notified p1)).
    apply (served_notified_run_same load n nIdx); [exact Hsz|].
    now apply worker_wakeup_notified_served. }
  assert (Hwake : worker_wakeup load Notified p1
                  = {| m_bIsActive := true; m_nReqIdx := nIdx;
                       m_nLastReqIdx := m_nLastReqIdx p;
                       m_oReqPacket := MatData (load nIdx);
                       m_oLastReqPacket := m_oLastReqPacket p;
                       m_hWorker := Some (fst (fst (answer_manually load nIdx w (loaded p))));
                       loaded := loaded p ++ [nIdx] |}).
  { unfold worker_wakeup, p1.
    cbn [m_hWorker m_bIsActive m_nReqIdx m_oReqPacket loaded m_nLastReqIdx m_oLastReqPacket].
    rewrite Hw, Hserve. reflexivity. }
  eexists. exists (fst (fst (answer_manually load nIdx w (loaded p)))).
  split.
  - unfold getPacket.
    destruct (Z.eqb_spec nIdx (m_nLastReqIdx p)); [contradiction|].
    rewrite Hact. simpl negb. cbv iota.
    change (existsb is_notified (repeat Notified (S n))) with true. cbv iota.
    fold p1. rewrite Hrun, Hwake. cbn. reflexivity.
  - cbn. psizes. rewrite wrap_small by lia. auto.
Qed.

Lemma cache_miss_loads_once_witness :
  exists p' w',
    getPacket Examples.load4 5 (repeat Notified 1) Examples.precacher_after_0
    = Some (MatData (Examples.load4 5), p') /\
    loaded p' = loaded Examples.precacher_after_0 ++ [5] /\
    m_hWorker p' = Some w' /\ qoCache w' = [] /\
    nNextExpectedReqIdx w' = 5 + 1 /\ nNextPrecacheIdx w' = 5 + 1.
Proof.
  apply (cache_miss_loads_once Examples.load4 Examples.precacher_after_0
           (Examples.worker_of Examples.precacher_after_0) 5 0
           load4_ok precacher_after_0_reachable).
  - reflexivity.
  - vm_compute. split; [discriminate|reflexivity].
  - vm_compute. discriminate.
  - right. vm_compute. split; discriminate.
Defined.

Lemma serve_hit_precache load r w req log :
  worker_inv load w req ->
  nNextExpectedReqIdx w <= r < nNextPrecacheIdx w ->
  nNextPrecacheIdx (fst (fst (serve load r w req log))) = nNextPrecacheIdx w.
Proof.
  intros (HB & _ & Hne & _ & _ & _ & Hnp & _) Hr.
  unfold serve.
  destruct (negb (r =? wrap (nNextExpectedReqIdx w - 1))); [|reflexivity].
  destruct (qoCache w) as [|s q] eqn:Hq.
  - exfalso. simpl in Hnp. rewrite Z.add_0_r in Hnp.
    rewrite wrap_small in Hnp by (psizes; lia). lia.
  - destruct (Z.ltb_spec r (nNextPrecacheIdx w)); [|lia].
    destruct (Z.leb_spec (nNextExpectedReqIdx w) r); [|lia].
    simpl andb. cbv iota.
    destruct (pop_until r (s :: q) (nNextExpectedReqIdx w) (nFirstBufferIdx w) req)
      as [[[q' ne'] F'] req'].
    reflexivity.
Qed.

(** one fetch inside the cached range: no loader call, the range shrinks
    from below at most to just past the request *)
Lemma cache_hit_step load p w nIdx n :
  loader_ok load -> reachable load p -> m_hWorker p = Some w ->
  nNextExpectedReqIdx w <= nIdx < nNextPrecacheIdx w ->
  exists m p' w',
    getPacket load nIdx (repeat Notified (S n)) p = Some (m, p') /\
    reachable load p' /\
    loaded p' = loaded p /\ mat_bytes p' m = load nIdx /\
    m_hWorker p' = Some w' /\
    nNextExpectedReqIdx w' <= nIdx + 1 /\
    nNextPrecacheIdx w' = nNextPrecacheIdx w.
Proof.
  intros Hload Hreach Hw Hr.
  pose proof (reachable_inv load Hload p Hreach) as Hinv.
  pose proof Hinv as (_ & _ & Hwk). rewrite Hw in Hwk.
  destruct Hwk as (Hact & Hwreach & Hreq & _).
  pose proof (worker_reachable_inv load Hload w _ Hwreach) as Hwinv.
  pose proof Hwinv as (_ & _ & Hne & _ & _ & _ & Hnp & _).
  assert (Hi : is_size_t nIdx /\ nIdx <> SIZE_MAX).
  { pose proof (wrap_range (nNextExpectedReqIdx w + Z.of_nat (length (qoCache w)))).
    psizes. lia. }
  destruct Hi as [Hi Hmax].
  destruct (getPacket_returns load nIdx (repeat Notified (S n)) p
              (or_intror eq_refl)) as (m & p' & Hget).
  exists m, p'.
  assert (Hreach' : reachable load p')
    by exact (reach_get load p nIdx _ m p' Hreach Hi Hget).
  assert (Hbytes : mat_bytes p' m = load nIdx)
    by now apply (getPacket_inv load Hload nIdx (repeat Notified (S n)) p m p'
                    Hinv Hi Hget).
  assert (Hrest : exists w',
            m_hWorker p' = Some w' /\ loaded p' = loaded p /\
            nNextExpectedReqIdx w' <= nIdx + 1 /\
            nNextPrecacheIdx w' = nNextPrecacheIdx w).
  { clear Hreach' Hbytes. unfold getPacket in Hget.
    destruct (nIdx =? m_nLastReqIdx p).
    { inversion Hget; subst m p'. exists w.
      split; [exact Hw|]. split; [reflexivity|]. split; [lia|reflexivity]. }
    rewrite Hact in Hget. simpl negb in Hget. cbv iota in Hget.
    change (existsb is_notified (repeat Notified (S n))) with true in Hget.
    cbv iota in Hget.
    set (p1 := {| m_bIsActive := true; m_nReqIdx := nIdx;
                  m_nLastReqIdx := m_nLastReqIdx p;
                  m_oReqPacket := m_oReqPacket p;
                  m_oLastReqPacket := m_oLastReqPacket p;
                  m_hWorker := m_hWorker p; loaded := loaded p |}) in *.
    assert (Hc : call_inv load nIdx p1).
    { unfold call_inv, p1. cbn. rewrite Hw. eauto. }
    assert (Hrun : worker_run load (repeat Notified (S n)) p1
                   = worker_wakeup load Notified p1).
    { change (repeat Notified (S n)) with (Notified :: repeat Notified n).
      change (worker_run load (Notified :: repeat Notified n) p1)
        with (worker_run load (repeat Notified n) (worker_wakeup load Notified p1)).
      apply (served_notified_run_same load n nIdx); [exact Hi|].
      now apply worker_wakeup_notified_served. }
    rewrite Hrun in Hget.
    pose proof (serve_hit load nIdx w (m_oReqPacket p) (loaded p) Hwinv Hr) as Hlog.
    pose proof (serve_hit_precache load nIdx w (m_oReqPacket p) (loaded p) Hwinv Hr)
      as Hnp'.
    pose proof (serve_inv load nIdx w (m_oReqPacket p) (loaded p) Hwinv Hi)
      as (_ & Hne' & _).
    unfold worker_wakeup, p1 in Hget.
    cbn [m_hWorker m_bIsActive m_nReqIdx m_oReqPacket loaded m_nLastReqIdx
         m_oLastReqPacket] in Hget.
    rewrite Hw in Hget.
    destruct (serve load nIdx w (m_oReqPacket p) (loaded p)) as [[w' req'] log'].
    cbn [fst snd] in Hlog, Hnp', Hne'.
    cbn [m_hWorker m_bIsActive m_nReqIdx m_oReqPacket loaded m_nLastReqIdx
         m_oLastReqPacket] in Hget.
    inversion Hget; subst m p'. exists w'.
    cbn [loaded m_hWorker].
    split; [reflexivity|]. split; [exact Hlog|]. split; [|exact Hnp'].
    rewrite Hne'. psizes. rewrite wrap_small by lia. lia. }
  destruct Hrest as (w' & Hw' & Hlog & Hne' & Hnp').
  exists w'. auto 10.
Qed.

(** fetching a run of indices inside the cached range, in order *)
Lemma stream_hits load n len :
  forall p w a,
  loader_ok load -> reachable load p -> m_hWorker p = Some w ->
  nNextExpectedReqIdx w <= a -> a + Z.of_nat len <= nNextPrecacheIdx w ->
  exists p' w',
    stream load (repeat Notified (S n)) (seqZ a (Z.of_nat len)) p
    = Some (map load (seqZ a (Z.of_nat len)), p') /\
    loaded p' = loaded p /\ reachable load p' /\
    m_hWorker p' = Some w' /\ nNextPrecacheIdx w' = nNextPrecacheIdx w.
Proof.
  induction len as [|len IH]; intros p w a Hload Hreach Hw Ha Hlen.
  - exists p, w. simpl. auto.
  - rewrite seqZ_cons by lia.
    replace (Z.pred (Z.of_nat (S len))) with (Z.of_nat len) by lia.
    cbn [stream map].
    destruct (cache_hit_step load p w a n Hload Hreach Hw ltac:(lia))
      as (m & p1 & w1 & Hget & Hreach1 & Hlog1 & Hbytes1 & Hw1 & Hne1 & Hnp1).
    rewrite Hget.
    destruct (IH p1 w1 (Z.succ a) Hload Hreach1 Hw1 ltac:(lia) ltac:(lia))
      as (p' & w' & Hstream & Hlog & Hreach' & Hw' & Hnp').
    rewrite Hstream. exists p', w'. rewrite Hbytes1.
    split; [reflexivity|]. split; [congruence|]. split; [exact Hreach'|].
    split; [exact Hw'|congruence].
Qed.



End PrecacherExtra.

(** ** Starting the precachers: the loader and the producers *)

Module PrecachingExtra.
Import DataPrecacher PrecacherSpec PrecacherLayout PrecacherFacts PrecacherExtra
  Precaching.

Ltac csizes :=
  pose proof SIZE_MOD_eq; pose proof CACHE_MAX_SIZE_eq;
  unfold SIZE_MAX, is_size_t in *.

Lemma startAsyncPrecaching_active load n ticks p :
  fst (startAsyncPrecaching load n ticks p) = (0 <? n) /\
  m_bIsActive (snd (startAsyncPrecaching load n ticks p)) = (0 <? n).
Proof.
  unfold startAsyncPrecaching.
  destruct (Z.ltb_spec 0 n) as [Hn|Hn].
  - destruct (prefill load ticks _ _). split; reflexivity.
  - simpl. destruct (m_bIsActive p) eqn:Hact; [|split; exact Hact].
    unfold stopAsyncPrecaching. rewrite Hact. split; reflexivity.
Qed.

(** X8: the loader starts its precachers exactly when the buffer size is
    positive: then the input precacher is active, and the ground-truth one
    is active if asked for and untouched otherwise; with size 0 the first
    assertion fails, with the input precacher inactive and the ground-truth
    one untouched. *)
Theorem loader_start_needs_positive_size input gt bUsingGT n ticksInput ticksGT s :
  exists s',
    IDataLoader_startAsyncPrecaching input gt bUsingGT n ticksInput ticksGT s
    = (if 0 <? n then Started s' else StartAssertionFailed s') /\
    m_bIsActive (m_oInputPrecacher s') = (0 <? n) /\
    (if bUsingGT && (0 <? n) then m_bIsActive (m_oGTPrecacher s') = true
     else m_oGTPrecacher s' = m_oGTPrecacher s).
Proof.
  unfold IDataLoader_startAsyncPrecaching.
  pose proof (startAsyncPrecaching_active input n ticksInput (m_oInputPrecacher s))
    as [HbI HaI].
  pose proof (startAsyncPrecaching_active gt n ticksGT (m_oGTPrecacher s))
    as [HbG HaG].
  destruct (startAsyncPrecaching input n ticksInput (m_oInputPrecacher s))
    as [bInput pInput].
  destruct (startAsyncPrecaching gt n ticksGT (m_oGTPrecacher s)) as [bGT pGT].
  simpl in *. subst bInput bGT.
  destruct (0 <? n); [|eexists; split; [reflexivity|]; simpl; rewrite andb_false_r; auto].
  destruct bUsingGT; eexists; (split; [reflexivity|]); simpl; auto.
Qed.

Lemma producer_buffer_size_exact nArea nCount gray aligned :
  0 < nArea -> 0 <= nCount ->
  nArea * (nCount + 1) * bytes_per_pixel gray aligned < SIZE_MOD ->
  producer_buffer_size nArea nCount gray aligned
  = nArea * (nCount + 1) * bytes_per_pixel gray aligned.
Proof.
  intros Ha Hc Hfit. unfold producer_buffer_size.
  assert (Hb : 1 <= bytes_per_pixel gray aligned)
    by (unfold bytes_per_pixel; destruct gray, aligned; lia).
  assert (nArea * (nCount + 1)
          <= nArea * (nCount + 1) * bytes_per_pixel gray aligned) by nia.
  assert (nArea <= nArea * (nCount + 1)) by nia.
  assert (nCount + 1 <= nArea * (nCount + 1)) by nia.
  csizes.
  rewrite (wrap_small nArea) by lia.
  rewrite (wrap_small (nCount + 1)) by lia.
  rewrite (wrap_small (nArea * (nCount + 1))) by lia.
  rewrite wrap_small by nia. reflexivity.
Qed.

(** the prefill loop over packets of at most [smax] bytes each, in a buffer
    with room for one packet more than the batch has *)
Lemma prefill_bounded load smax N :
  (forall j, 0 <= j < N -> 0 < packet_size (load j) <= smax) ->
  packet_size (load N) = 0 ->
  forall ticks w log i,
    0 <= i <= N -> nNextPrecacheIdx w = i ->
    0 <= nNextBufferIdx w <= i * smax ->
    (N + 1) * smax <= nBufferSize w -> nBufferSize w < SIZE_MOD ->
    (Z.to_nat (N - i) <= ticks)%nat ->
    map slot_idx (qoCache (fst (prefill load ticks w log)))
    = map slot_idx (qoCache w) ++ seqZ i (N - i).
Proof.
  intros Hsz Hend.
  induction ticks as [|ticks IH]; intros w log i Hi Hnp HX HB HBmax Hticks.
  - simpl. assert (i = N) as -> by lia. rewrite Z.sub_diag.
    rewrite seqZ_nil by lia. now rewrite app_nil_r.
  - simpl. rewrite Hnp.
    destruct (Z.eq_dec i N) as [->|Hne].
    + rewrite Hend. simpl. rewrite Z.sub_diag, seqZ_nil by lia.
      now rewrite app_nil_r.
    + pose proof (Hsz i ltac:(lia)) as Hs.
      assert (Hnext : nNextBufferIdx w + packet_size (load i) <= (i + 1) * smax) by nia.
      assert (Hroom : (i + 1) * smax < (N + 1) * smax) by nia.
      csizes.
      rewrite (wrap_small (nNextBufferIdx w + packet_size (load i))) by lia.
      destruct (Z.ltb_spec 0 (packet_size (load i))); [|lia].
      destruct (Z.ltb_spec (nNextBufferIdx w + packet_size (load i)) (nBufferSize w));
        [|lia].
      simpl andb. cbv iota.
      rewrite (IH _ _ (i + 1)); cbn [cache_push nNextPrecacheIdx nNextBufferIdx
                                      nBufferSize qoCache]; try lia.
      * rewrite map_app, <- app_assoc. f_equal. simpl. rewrite Hnp.
        rewrite (seqZ_cons i) by lia. f_equal. f_equal; lia.
      * rewrite Hnp. apply wrap_small. nia.
Qed.

(** X9: the buffer size the video and image producers ask for,
    [area*(count+1)*bytes per pixel], lets the prefill cache the whole
    batch: if no packet is larger than [area*bytes per pixel], the packet
    past the end is empty, the size is within the cache limit and the
    prefill is not timed out before [count] packets, then the producer
    starts and its input cache holds the packets [0 .. count-1] in order. *)
Theorem producer_prefill_caches_whole_batch input gt nArea nCount gray aligned
    bUsingGT nUnused ticksInput ticksGT s :
  0 < nArea -> 0 <= nCount ->
  nArea * (nCount + 1) * bytes_per_pixel gray aligned <= CACHE_MAX_SIZE ->
  (forall j, 0 <= j < nCount ->
     0 < packet_size (input j) <= nArea * bytes_per_pixel gray aligned) ->
  packet_size (input nCount) = 0 ->
  (Z.to_nat nCount <= ticksInput)%nat ->
  exists s' w,
    Video_startAsyncPrecaching input gt nArea nCount gray aligned
      bUsingGT nUnused ticksInput ticksGT s = Started s' /\
    Image_startAsyncPrecaching input gt nArea nCount gray aligned
      bUsingGT nUnused ticksInput ticksGT s = Started s' /\
    m_hWorker (m_oInputPrecacher s') = Some w /\
    nBufferSize w = nArea * (nCount + 1) * bytes_per_pixel gray aligned /\
    map slot_idx (qoCache w) = seqZ 0 nCount.
Proof.
  intros Ha Hc Hfit Hsz Hend Hticks.
  assert (Hb : 1 <= bytes_per_pixel gray aligned)
    by (unfold bytes_per_pixel; destruct gray, aligned; lia).
  assert (HB : producer_buffer_size nArea nCount gray aligned
               = nArea * (nCount + 1) * bytes_per_pixel gray aligned)
    by (apply producer_buffer_size_exact; csizes; lia).
  assert (Hpos : 0 < nArea * (nCount + 1) * bytes_per_pixel gray aligned) by nia.
  unfold Video_startAsyncPrecaching, Image_startAsyncPrecaching.
  rewrite HB.
  set (B := nArea * (nCount + 1) * bytes_per_pixel gray aligned) in *.
  pose proof (prefill_bounded input (nArea * bytes_per_pixel gray aligned) nCount
                Hsz Hend ticksInput (entry_init B)
                (loaded (if m_bIsActive (m_oInputPrecacher s)
                         then stopAsyncPrecaching (m_oInputPrecacher s)
                         else m_oInputPrecacher s)) 0
                ltac:(lia) eq_refl ltac:(simpl; lia)
                ltac:(simpl; unfold B; nia) ltac:(simpl; csizes; lia)
                ltac:(lia)) as Hfill.
  pose proof (startAsyncPrecaching_active gt B ticksGT (m_oGTPrecacher s))
    as [HbG _].
  unfold IDataLoader_startAsyncPrecaching.
  destruct (startAsyncPrecaching gt B ticksGT (m_oGTPrecacher s)) as [bGT pGT].
  simpl in HbG. subst bGT.
  unfold startAsyncPrecaching at 1 2.
  destruct (Z.ltb_spec 0 B); [|lia].
  destruct (Z.ltb_spec CACHE_MAX_SIZE B); [lia|].
  assert (Hsize : forall ticks w log,
             nBufferSize (fst (prefill input ticks w log)) = nBufferSize w).
  { induction ticks as [|ticks IH]; intros w log; [reflexivity|].
    simpl. destruct (_ && _); [|reflexivity]. now rewrite IH. }
  pose proof (Hsize ticksInput (entry_init B)
                (loaded (if m_bIsActive (m_oInputPrecacher s)
                         then stopAsyncPrecaching (m_oInputPrecacher s)
                         else m_oInputPrecacher s))) as HBw.
  destruct (prefill input ticksInput (entry_init B) _) as [w log].
  simpl in Hfill, HBw. rewrite Z.sub_0_r in Hfill.
  cbn [m_bIsActive].
  destruct bUsingGT; eexists; exists w; cbn; auto.
Qed.

Lemma producer_prefill_caches_whole_batch_witness :
  exists s' w,
    Video_startAsyncPrecaching Examples.load4 Examples.load0 4 10 true false
      false 0 12 0 fresh = Started s' /\
    Image_startAsyncPrecaching Examples.load4 Examples.load0 4 10 true false
      false 0 12 0 fresh = Started s' /\
    m_hWorker (m_oInputPrecacher s') = Some w /\
    nBufferSize w = 4 * (10 + 1) * bytes_per_pixel true false /\
    map slot_idx (qoCache w) = seqZ 0 10.
Proof.
  apply (producer_prefill_caches_whole_batch Examples.load4 Examples.load0
           4 10 true false false 0 12 0 fresh).
  - reflexivity.
  - discriminate.
  - vm_compute. discriminate.
  - intros j Hj. unfold Examples.load4, packet_size.
    destruct (Z.leb_spec 0 j); [|lia]. destruct (Z.ltb_spec j 10); [|lia].
    simpl andb. cbv iota. rewrite repeat_length. simpl. lia.
  - reflexivity.
  - simpl. lia.
Defined.

(** the prefill loop when it is not timed out before the end of the batch:
    it asks the loader for each packet once, and once past the end *)
Lemma prefill_bounded_log load smax N :
  (forall j, 0 <= j < N -> 0 < packet_size (load j) <= smax) ->
  packet_size (load N) = 0 ->
  forall ticks w log i,
    0 <= i <= N -> nNextPrecacheIdx w = i ->
    0 <= nNextBufferIdx w <= i * smax ->
    (N + 1) * smax <= nBufferSize w -> nBufferSize w < SIZE_MOD ->
    (Z.to_nat (N - i) < ticks)%nat ->
    nNextPrecacheIdx (fst (prefill load ticks w log)) = N /\
    snd (prefill load ticks w log) = log ++ seqZ i (N - i + 1).
Proof.
  intros Hsz Hend.
  induction ticks as [|ticks IH]; intros w log i Hi Hnp HX HB HBmax Hticks;
    [lia|].
  simpl. rewrite Hnp.
  destruct (Z.eq_dec i N) as [->|Hne].
  - rewrite Hend. simpl. rewrite Z.sub_diag. simpl. auto.
  - pose proof (Hsz i ltac:(lia)) as Hs.
    assert (Hnext : nNextBufferIdx w + packet_size (load i) <= (i + 1) * smax) by nia.
    assert (Hroom : (i + 1) * smax < (N + 1) * smax) by nia.
    csizes.
    rewrite (wrap_small (nNextBufferIdx w + packet_size (load i))) by lia.
    destruct (Z.ltb_spec 0 (packet_size (load i))); [|lia].
    destruct (Z.ltb_spec (nNextBufferIdx w + packet_size (load i)) (nBufferSize w));
      [|lia].
    simpl andb. cbv iota.
    assert (Hw : wrap (i + 1) = i + 1) by (apply wrap_small; nia).
    destruct (IH (cache_push (load i) (nNextBufferIdx w) (nFirstBufferIdx w)
                    (nNextBufferIdx w + packet_size (load i)) w)
                (log ++ [i]) (i + 1)) as [IH1 IH2];
      cbn [cache_push nNextPrecacheIdx nNextBufferIdx nBufferSize]; try lia.
    + rewrite Hnp. exact Hw.
    + split; [exact IH1|]. rewrite IH2, <- app_assoc. f_equal.
      rewrite (seqZ_cons i) by lia. simpl. f_equal. f_equal; lia.
Qed.

Lemma start_prefill load n ticks p :
  m_bIsActive p = false -> 0 < n <= CACHE_MAX_SIZE ->
  m_hWorker (snd (startAsyncPrecaching load n ticks p))
  = Some (fst (prefill load ticks (entry_init n) (loaded p))) /\
  loaded (snd (startAsyncPrecaching load n ticks p))
  = snd (prefill load ticks (entry_init n) (loaded p)).
Proof.
  intros Hact Hn. unfold startAsyncPrecaching. rewrite Hact.
  destruct (Z.ltb_spec 0 n); [|lia].
  destruct (Z.ltb_spec CACHE_MAX_SIZE n); [lia|].
  destruct (prefill load ticks (entry_init n) (loaded p)) as [w log].
  split; reflexivity.
Qed.



End PrecachingExtra.

(** ** Loader facade: packets inside the batch *)

Module LoaderExtra.
Import IDataLoader LoaderSpec.

Lemma Size_eqb_eq a b : Size_eqb a b = true <-> a = b.
Proof.
  unfold Size_eqb. destruct a as [wa ha], b as [wb hb]. simpl.
  rewrite andb_true_iff, !Z.eqb_eq. split.
  - intros [-> ->]. reflexivity.
  - intros E. inversion E. auto.
Qed.

Lemma Size_eqb_refl a : Size_eqb a a = true.
Proof. now apply Size_eqb_eq. Qed.

Section Normalise.

Variable is4ByteAligned : bool.
Variables transpose cvtColor_BGR2BGRA : Mat -> Mat.
Variable resize_nearest : Mat -> Size -> Mat.
Hypothesis cv_ok : opencv_ok transpose cvtColor_BGR2BGRA resize_nearest.

(** what the common tail of the two redirections yields *)
Lemma normalise_spec bTransposed oPacketSize m log :
  0 < area oPacketSize ->
  exists tr,
    snd (normalise is4ByteAligned transpose cvtColor_BGR2BGRA resize_nearest
           bTransposed oPacketSize m log) = log ++ tr /\
    sublist tr [Transpose; CvtColor; Resize oPacketSize] /\
    size (fst (normalise is4ByteAligned transpose cvtColor_BGR2BGRA
                 resize_nearest bTransposed oPacketSize m log)) = oPacketSize /\
    (is4ByteAligned = true ->
     channels (fst (normalise is4ByteAligned transpose cvtColor_BGR2BGRA
                      resize_nearest bTransposed oPacketSize m log)) <> 3).
Proof using cv_ok.
  intros Harea. destruct cv_ok as (Hrs & Hrc & Htc & Hcc).
  unfold normalise.
  destruct (Z.ltb_spec 0 (area oPacketSize)); [|lia].
  destruct bTransposed, is4ByteAligned; cbn beta iota zeta delta [andb].
  - destruct (Z.eqb_spec (channels (transpose m)) 3) as [E|E]; cbn beta iota zeta delta [andb].
    + destruct (Size_eqb (size (cvtColor_BGR2BGRA (transpose m))) oPacketSize) eqn:Es;
        simpl negb; cbv iota; cbn [fst snd].
      * exists [Transpose; CvtColor]. rewrite <- app_assoc.
        split; [reflexivity|]. split; [repeat constructor|].
        split; [now apply Size_eqb_eq|]. intros _. rewrite Hcc. lia.
      * exists [Transpose; CvtColor; Resize oPacketSize]. rewrite <- !app_assoc.
        split; [reflexivity|]. split; [repeat constructor|].
        split; [apply Hrs|]. intros _. rewrite Hrc, Hcc. lia.
    + destruct (Size_eqb (size (transpose m)) oPacketSize) eqn:Es;
        simpl negb; cbv iota; cbn [fst snd].
      * exists [Transpose]. split; [reflexivity|]. split; [repeat constructor|].
        split; [now apply Size_eqb_eq|]. intros _. exact E.
      * exists [Transpose; Resize oPacketSize]. rewrite <- !app_assoc.
        split; [reflexivity|]. split; [repeat constructor|].
        split; [apply Hrs|]. intros _. rewrite Hrc. exact E.
  - destruct (Size_eqb (size (transpose m)) oPacketSize) eqn:Es;
      simpl negb; cbv iota; cbn [fst snd].
    + exists [Transpose]. split; [reflexivity|]. split; [repeat constructor|].
      split; [now apply Size_eqb_eq|]. discriminate.
    + exists [Transpose; Resize oPacketSize]. rewrite <- !app_assoc.
      split; [reflexivity|]. split; [repeat constructor|].
      split; [apply Hrs|]. discriminate.
  - destruct (Z.eqb_spec (channels m) 3) as [E|E]; cbn beta iota zeta delta [andb].
    + destruct (Size_eqb (size (cvtColor_BGR2BGRA m)) oPacketSize) eqn:Es;
        simpl negb; cbv iota; cbn [fst snd].
      * exists [CvtColor]. split; [reflexivity|]. split; [repeat constructor|].
        split; [now apply Size_eqb_eq|]. intros _. rewrite Hcc. lia.
      * exists [CvtColor; Resize oPacketSize]. rewrite <- !app_assoc.
        split; [reflexivity|]. split; [repeat constructor|].
        split; [apply Hrs|]. intros _. rewrite Hrc, Hcc. lia.
    + destruct (Size_eqb (size m) oPacketSize) eqn:Es;
        simpl negb; cbv iota; cbn [fst snd].
      * exists []. rewrite app_nil_r. split; [reflexivity|].
        split; [repeat constructor|].
        split; [now apply Size_eqb_eq|]. intros _. exact E.
      * exists [Resize oPacketSize].
        split; [reflexivity|]. split; [repeat constructor|].
        split; [apply Hrs|]. intros _. rewrite Hrc. exact E.
  - destruct (Size_eqb (size m) oPacketSize) eqn:Es;
      simpl negb; cbv iota; cbn [fst snd].
    + exists []. rewrite app_nil_r. split; [reflexivity|].
      split; [repeat constructor|].
      split; [now apply Size_eqb_eq|]. discriminate.
    + exists [Resize oPacketSize].
      split; [reflexivity|]. split; [repeat constructor|].
      split; [apply Hrs|]. discriminate.
Qed.

End Normalise.

(** X10: inside the batch, a non-empty input packet whose size is the
    declared original size is delivered, under the image policy, with the
    declared packet size, and never with three channels when 4-byte
    alignment is on; the member [m_oLatestInputPacket] is the packet that is
    returned, the ground-truth member is kept, and after the load request
    the transforms asked for are transpose, colour conversion and resize, in
    this order, each at most once. *)
Theorem input_redirect_delivers_declared_size
    (getTotPackets : Z) (_getInputPacket_impl : Z -> Mat)
    (getInputOrigSize getInputSize : Z -> Size)
    (isInputTransposed : Z -> bool) (is4ByteAligned : bool)
    (transpose cvtColor_BGR2BGRA : Mat -> Mat) (resize_nearest : Mat -> Size -> Mat)
    (nIdx : Z) (s : state) :
  opencv_ok transpose cvtColor_BGR2BGRA resize_nearest ->
  nIdx < getTotPackets ->
  empty (_getInputPacket_impl nIdx) = false ->
  size (_getInputPacket_impl nIdx) = getInputOrigSize nIdx ->
  0 < area (getInputSize nIdx) ->
  exists m' tr,
    _getInputPacket_redirect getTotPackets _getInputPacket_impl getInputOrigSize
      getInputSize isInputTransposed is4ByteAligned ImagePacket
      transpose cvtColor_BGR2BGRA resize_nearest nIdx s
    = Packet_ m' {| m_oLatestInputPacket := m';
                    m_oLatestGTPacket := m_oLatestGTPacket s;
                    events := events s ++ InputPacketImpl nIdx :: tr |} /\
    sublist tr [Transpose; CvtColor; Resize (getInputSize nIdx)] /\
    size m' = getInputSize nIdx /\
    (is4ByteAligned = true -> channels m' <> 3).
Proof.
  intros Hcv Hidx Hne Hsize Harea.
  unfold _getInputPacket_redirect.
  destruct (Z.leb_spec getTotPackets nIdx); [lia|].
  rewrite Hne, <- Hsize, Size_eqb_refl. simpl negb. cbv iota.
  cbn [PacketPolicy_eqb].
  destruct (normalise_spec is4ByteAligned transpose cvtColor_BGR2BGRA
              resize_nearest Hcv (isInputTransposed nIdx) (getInputSize nIdx)
              (_getInputPacket_impl nIdx) (events s ++ [InputPacketImpl nIdx])
              Harea) as (tr & Hlog & Hsub & Hsz & Hch).
  destruct (normalise is4ByteAligned transpose cvtColor_BGR2BGRA resize_nearest
              (isInputTransposed nIdx) (getInputSize nIdx)
              (_getInputPacket_impl nIdx) (events s ++ [InputPacketImpl nIdx]))
    as [m' log'].
  simpl in Hlog, Hsz, Hch. subst log'.
  exists m', tr. rewrite <- app_assoc. simpl. auto.
Qed.

Lemma opencv_ok_toy : opencv_ok swap_sides to_bgra set_size.
Proof. repeat split. Qed.

Lemma input_redirect_delivers_declared_size_witness :
  exists m' tr,
    _getInputPacket_redirect 3 bgr2x2 Examples.size2x2 size4x4
      (fun _ => true) true ImagePacket swap_sides to_bgra set_size
      1 Examples.loader_fresh
    = Packet_ m' {| m_oLatestInputPacket := m';
                    m_oLatestGTPacket := m_oLatestGTPacket Examples.loader_fresh;
                    events := events Examples.loader_fresh
                              ++ InputPacketImpl 1 :: tr |} /\
    sublist tr [Transpose; CvtColor; Resize (size4x4 1)] /\
    size m' = size4x4 1 /\
    (true = true -> channels m' <> 3).
Proof.
  apply (input_redirect_delivers_declared_size 3 bgr2x2 Examples.size2x2 size4x4
           (fun _ => true) true swap_sides to_bgra set_size 1
           Examples.loader_fresh opencv_ok_toy).
  - lia.
  - reflexivity.
  - reflexivity.
  - reflexivity.
Defined.

(** X11: inside the batch, a non-empty ground-truth packet of the declared
    original size is transformed only under pixel mapping with the image
    policy: then it is delivered with the declared ground-truth size, never
    with three channels under 4-byte alignment, after at most a transpose,
    a colour conversion and a resize in this order; under any other mapping
    or policy it is returned and kept exactly as the dataset loaded it,
    its declared size notwithstanding.  The input member is kept. *)
Theorem gt_redirect_normalises_under_pixel_mapping
    (getTotPackets : Z) (_getGTPacket_impl : Z -> Mat)
    (getGTOrigSize getGTSize : Z -> Size)
    (isGTTransposed : Z -> bool) (is4ByteAligned : bool)
    (m_eInputType : PacketPolicy) (m_eGTMappingType : MappingPolicy)
    (transpose cvtColor_BGR2BGRA : Mat -> Mat) (resize_nearest : Mat -> Size -> Mat)
    (nIdx : Z) (s : state) :
  opencv_ok transpose cvtColor_BGR2BGRA resize_nearest ->
  nIdx < getTotPackets ->
  empty (_getGTPacket_impl nIdx) = false ->
  size (_getGTPacket_impl nIdx) = getGTOrigSize nIdx ->
  0 < area (getGTSize nIdx) ->
  exists m' tr,
    _getGTPacket_redirect getTotPackets _getGTPacket_impl getGTOrigSize
      getGTSize isGTTransposed is4ByteAligned m_eInputType m_eGTMappingType
      transpose cvtColor_BGR2BGRA resize_nearest nIdx s
    = Packet_ m' {| m_oLatestInputPacket := m_oLatestInputPacket s;
                    m_oLatestGTPacket := m';
                    events := events s ++ GTPacketImpl nIdx :: tr |} /\
    if MappingPolicy_eqb m_eGTMappingType PixelMapping
       && PacketPolicy_eqb m_eInputType ImagePacket
    then sublist tr [Transpose; CvtColor; Resize (getGTSize nIdx)] /\
         size m' = getGTSize nIdx /\
         (is4ByteAligned = true -> channels m' <> 3)
    else tr = [] /\ m' = _getGTPacket_impl nIdx.
Proof.
  intros Hcv Hidx Hne Hsize Harea.
  unfold _getGTPacket_redirect.
  destruct (Z.leb_spec getTotPackets nIdx); [lia|].
  rewrite Hne, <- Hsize, Size_eqb_refl. simpl negb. cbv iota.
  destruct (MappingPolicy_eqb m_eGTMappingType PixelMapping
            && PacketPolicy_eqb m_eInputType ImagePacket).
  - destruct (normalise_spec is4ByteAligned transpose cvtColor_BGR2BGRA
                resize_nearest Hcv (isGTTransposed nIdx) (getGTSize nIdx)
                (_getGTPacket_impl nIdx) (events s ++ [GTPacketImpl nIdx])
                Harea) as (tr & Hlog & Hsub & Hsz & Hch).
    destruct (normalise is4ByteAligned transpose cvtColor_BGR2BGRA resize_nearest
                (isGTTransposed nIdx) (getGTSize nIdx)
                (_getGTPacket_impl nIdx) (events s ++ [GTPacketImpl nIdx]))
      as [m' log'].
    simpl in Hlog, Hsz, Hch. subst log'.
    exists m', tr. rewrite <- app_assoc. simpl. auto.
  - exists (_getGTPacket_impl nIdx), []. auto.
Qed.

Lemma gt_redirect_normalises_under_pixel_mapping_witness :
  exists m' tr,
    _getGTPacket_redirect 3 bgr2x2 Examples.size2x2 size4x4 (fun _ => true) true
      ImagePacket IdxMapping swap_sides to_bgra set_size 1 Examples.loader_fresh
    = Packet_ m' {| m_oLatestInputPacket :=
                      m_oLatestInputPacket Examples.loader_fresh;
                    m_oLatestGTPacket := m';
                    events := events Examples.loader_fresh
                              ++ GTPacketImpl 1 :: tr |} /\
    if MappingPolicy_eqb IdxMapping PixelMapping
       && PacketPolicy_eqb ImagePacket ImagePacket
    then sublist tr [Transpose; CvtColor; Resize (size4x4 1)] /\
         size m' = size4x4 1 /\
         (true = true -> channels m' <> 3)
    else tr = [] /\ m' = bgr2x2 1.
Proof.
  apply (gt_redirect_normalises_under_pixel_mapping 3 bgr2x2 Examples.size2x2
           size4x4 (fun _ => true) true ImagePacket IdxMapping swap_sides
           to_bgra set_size 1 Examples.loader_fresh opencv_ok_toy).
  - lia.
  - reflexivity.
  - reflexivity.
  - reflexivity.
Defined.

(** the packet the common tail yields does not depend on the log *)
Lemma normalise_packet is4ByteAligned transpose cvtColor_BGR2BGRA resize_nearest
    bTransposed oPacketSize m log1 log2 :
  fst (normalise is4ByteAligned transpose cvtColor_BGR2BGRA resize_nearest
         bTransposed oPacketSize m log1)
  = fst (normalise is4ByteAligned transpose cvtColor_BGR2BGRA resize_nearest
           bTransposed oPacketSize m log2).
Proof.
  unfold normalise.
  destruct bTransposed; cbn beta iota zeta;
    match goal with
    | |- context [is4ByteAligned && ?c] => destruct (is4ByteAligned && c)
    end; cbn beta iota zeta;
    match goal with
    | |- context [?a && negb ?c] => destruct (a && negb c)
    end; reflexivity.
Qed.

Section Interference.

Variable getTotPackets : Z.
Variables _getInputPacket_impl _getGTPacket_impl : Z -> Mat.
Variables getInputOrigSize getGTOrigSize getInputSize getGTSize : Z -> Size.
Variables isInputTransposed isGTTransposed : Z -> bool.
Variable is4ByteAligned : bool.
Variable m_eInputType : PacketPolicy.
Variable m_eGTMappingType : MappingPolicy.
Variables transpose cvtColor_BGR2BGRA : Mat -> Mat.
Variable resize_nearest : Mat -> Size -> Mat.

Lemma input_redirect_frame nIdx s1 s2 :
  m_oLatestGTPacket (state_of (_getInputPacket_redirect getTotPackets _getInputPacket_impl
      getInputOrigSize getInputSize isInputTransposed is4ByteAligned
      m_eInputType transpose cvtColor_BGR2BGRA resize_nearest nIdx s1)) = m_oLatestGTPacket s1 /\
  packet_of (_getInputPacket_redirect getTotPackets _getInputPacket_impl
      getInputOrigSize getInputSize isInputTransposed is4ByteAligned
      m_eInputType transpose cvtColor_BGR2BGRA resize_nearest nIdx s1) = packet_of (_getInputPacket_redirect getTotPackets _getInputPacket_impl
      getInputOrigSize getInputSize isInputTransposed is4ByteAligned
      m_eInputType transpose cvtColor_BGR2BGRA resize_nearest nIdx s2) /\
  (m_oLatestInputPacket s1 = m_oLatestInputPacket s2 ->
   m_oLatestInputPacket (state_of (_getInputPacket_redirect getTotPackets _getInputPacket_impl
      getInputOrigSize getInputSize isInputTransposed is4ByteAligned
      m_eInputType transpose cvtColor_BGR2BGRA resize_nearest nIdx s1))
   = m_oLatestInputPacket (state_of (_getInputPacket_redirect getTotPackets _getInputPacket_impl
      getInputOrigSize getInputSize isInputTransposed is4ByteAligned
      m_eInputType transpose cvtColor_BGR2BGRA resize_nearest nIdx s2))).
Proof.
  unfold _getInputPacket_redirect.
  destruct (getTotPackets <=? nIdx); [simpl; auto|].
  destruct (negb (empty (_getInputPacket_impl nIdx))); [|simpl; auto].
  destruct (Size_eqb (getInputOrigSize nIdx) (size (_getInputPacket_impl nIdx)));
    [|simpl; auto].
  destruct (PacketPolicy_eqb m_eInputType ImagePacket); [|simpl; auto].
  pose proof (normalise_packet is4ByteAligned transpose cvtColor_BGR2BGRA
                resize_nearest (isInputTransposed nIdx) (getInputSize nIdx)
                (_getInputPacket_impl nIdx)
                (events s1 ++ [InputPacketImpl nIdx])
                (events s2 ++ [InputPacketImpl nIdx])) as Hm.
  destruct (normalise _ _ _ _ _ _ _ (events s1 ++ _)) as [m1 l1].
  destruct (normalise _ _ _ _ _ _ _ (events s2 ++ _)) as [m2 l2].
  simpl in *. subst m2. auto.
Qed.

Lemma gt_redirect_frame nIdx s1 s2 :
  m_oLatestInputPacket (state_of (_getGTPacket_redirect getTotPackets _getGTPacket_impl getGTOrigSize
      getGTSize isGTTransposed is4ByteAligned m_eInputType m_eGTMappingType
      transpose cvtColor_BGR2BGRA resize_nearest nIdx s1)) = m_oLatestInputPacket s1 /\
  packet_of (_getGTPacket_redirect getTotPackets _getGTPacket_impl getGTOrigSize
      getGTSize isGTTransposed is4ByteAligned m_eInputType m_eGTMappingType
      transpose cvtColor_BGR2BGRA resize_nearest nIdx s1) = packet_of (_getGTPacket_redirect getTotPackets _getGTPacket_impl getGTOrigSize
      getGTSize isGTTransposed is4ByteAligned m_eInputType m_eGTMappingType
      transpose cvtColor_BGR2BGRA resize_nearest nIdx s2) /\
  (m_oLatestGTPacket s1 = m_oLatestGTPacket s2 ->
   m_oLatestGTPacket (state_of (_getGTPacket_redirect getTotPackets _getGTPacket_impl getGTOrigSize
      getGTSize isGTTransposed is4ByteAligned m_eInputType m_eGTMappingType
      transpose cvtColor_BGR2BGRA resize_nearest nIdx s1))
   = m_oLatestGTPacket (state_of (_getGTPacket_redirect getTotPackets _getGTPacket_impl getGTOrigSize
      getGTSize isGTTransposed is4ByteAligned m_eInputType m_eGTMappingType
      transpose cvtColor_BGR2BGRA resize_nearest nIdx s2))).
Proof.
  unfold _getGTPacket_redirect.
  destruct (getTotPackets <=? nIdx); [simpl; auto|].
  destruct (negb (empty (_getGTPacket_impl nIdx))); [|simpl; auto].
  destruct (Size_eqb (getGTOrigSize nIdx) (size (_getGTPacket_impl nIdx)));
    [|simpl; auto].
  destruct (MappingPolicy_eqb m_eGTMappingType PixelMapping
            && PacketPolicy_eqb m_eInputType ImagePacket); [|simpl; auto].
  pose proof (normalise_packet is4ByteAligned transpose cvtColor_BGR2BGRA
                resize_nearest (isGTTransposed nIdx) (getGTSize nIdx)
                (_getGTPacket_impl nIdx)
                (events s1 ++ [GTPacketImpl nIdx])
                (events s2 ++ [GTPacketImpl nIdx])) as Hm.
  destruct (normalise _ _ _ _ _ _ _ (events s1 ++ _)) as [m1 l1].
  destruct (normalise _ _ _ _ _ _ _ (events s2 ++ _)) as [m2 l2].
  simpl in *. subst m2. auto.
Qed.

End Interference.

(** X12: the two redirections do not interfere: each leaves the other's
    latest packet alone, also when its assertion fails, and the packet
    either of them returns and the latest packets they leave are the same
    in whichever order the two run. *)
Theorem redirects_do_not_interfere
    (getTotPackets : Z)
    (_getInputPacket_impl _getGTPacket_impl : Z -> Mat)
    (getInputOrigSize getGTOrigSize getInputSize getGTSize : Z -> Size)
    (isInputTransposed isGTTransposed : Z -> bool)
    (is4ByteAligned : bool)
    (m_eInputType : PacketPolicy) (m_eGTMappingType : MappingPolicy)
    (transpose cvtColor_BGR2BGRA : Mat -> Mat) (resize_nearest : Mat -> Size -> Mat)
    (nInputIdx nGTIdx : Z) (s : state) :
  let input_redirect :=
    _getInputPacket_redirect getTotPackets _getInputPacket_impl getInputOrigSize
      getInputSize isInputTransposed is4ByteAligned m_eInputType
      transpose cvtColor_BGR2BGRA resize_nearest nInputIdx in
  let gt_redirect :=
    _getGTPacket_redirect getTotPackets _getGTPacket_impl getGTOrigSize
      getGTSize isGTTransposed is4ByteAligned m_eInputType m_eGTMappingType
      transpose cvtColor_BGR2BGRA resize_nearest nGTIdx in
  m_oLatestGTPacket (state_of (input_redirect s)) = m_oLatestGTPacket s /\
  m_oLatestInputPacket (state_of (gt_redirect s)) = m_oLatestInputPacket s /\
  packet_of (input_redirect (state_of (gt_redirect s)))
  = packet_of (input_redirect s) /\
  packet_of (gt_redirect (state_of (input_redirect s)))
  = packet_of (gt_redirect s) /\
  m_oLatestInputPacket (state_of (gt_redirect (state_of (input_redirect s))))
  = m_oLatestInputPacket (state_of (input_redirect (state_of (gt_redirect s)))) /\
  m_oLatestGTPacket (state_of (gt_redirect (state_of (input_redirect s))))
  = m_oLatestGTPacket (state_of (input_redirect (state_of (gt_redirect s)))).
Proof.
  intros input_redirect gt_redirect.
  pose proof (fun s1 s2 =>
    input_redirect_frame getTotPackets _getInputPacket_impl getInputOrigSize
      getInputSize isInputTransposed is4ByteAligned m_eInputType
      transpose cvtColor_BGR2BGRA resize_nearest nInputIdx s1 s2) as HI.
  pose proof (fun s1 s2 =>
    gt_redirect_frame getTotPackets _getGTPacket_impl getGTOrigSize
      getGTSize isGTTransposed is4ByteAligned m_eInputType m_eGTMappingType
      transpose cvtColor_BGR2BGRA resize_nearest nGTIdx s1 s2) as HG.
  fold input_redirect in HI. fold gt_redirect in HG.
  pose proof (HI s s) as (HI1 & _ & _).
  pose proof (HG s s) as (HG1 & _ & _).
  pose proof (HI (state_of (gt_redirect s)) s) as (HI2 & HI3 & HI4).
  pose proof (HG (state_of (input_redirect s)) s) as (HG2 & HG3 & HG4).
  split; [exact HI1|]. split; [exact HG1|]. split; [exact HI3|].
  split; [exact HG3|]. split.
  - rewrite HG2. symmetry. apply HI4. exact HG1.
  - rewrite HI2. apply HG4. exact HI1.
Qed.

End LoaderExtra.

(** ** Packet names *)

Module PacketNameFacts.
Import PacketName.

Lemma digits_rev_range fuel : forall n, 0 <= n ->
  Forall (fun d => 0 <= d < 10) (digits_rev fuel n).
Proof.
  induction fuel as [|fuel IH]; intros n Hn; simpl; [constructor|].
  destruct (Z.ltb_spec n 10).
  - repeat constructor; lia.
  - constructor; [apply Z.mod_pos_bound; lia|].
    apply IH. apply Z.div_pos; lia.
Qed.

(** the number a list of digits, least significant first, denotes *)
Lemma digits_rev_value fuel : forall n, 0 <= n < 10 ^ Z.of_nat fuel ->
  fold_right (fun d acc => d + 10 * acc) 0 (digits_rev fuel n) = n.
Proof.
  induction fuel as [|fuel IH]; intros n Hn.
  - simpl in *. lia.
  - cbn [digits_rev]. destruct (Z.ltb_spec n 10); [simpl; lia|].
    cbn [fold_right]. rewrite IH.
    + pose proof (Z.div_mod n 10 ltac:(lia)). lia.
    + rewrite Nat2Z.inj_succ, Z.pow_succ_r in Hn by lia.
      split; [apply Z.div_pos; lia|].
      apply Z.div_lt_upper_bound; lia.
Qed.

Lemma digits_rev_length k : forall fuel n,
  (S k <= fuel)%nat -> 10 ^ Z.of_nat k <= n < 10 ^ Z.of_nat (S k) ->
  length (digits_rev fuel n) = S k.
Proof.
  induction k as [|k IH]; intros fuel n Hf Hn.
  - destruct fuel as [|fuel]; [lia|]. simpl in *.
    destruct (Z.ltb_spec n 10); [reflexivity|lia].
  - destruct fuel as [|fuel]; [lia|]. cbn [digits_rev].
    assert (10 <= 10 ^ Z.of_nat (S k)).
    { rewrite Nat2Z.inj_succ, Z.pow_succ_r by lia.
      pose proof (Z.pow_pos_nonneg 10 (Z.of_nat k) ltac:(lia) ltac:(lia)). lia. }
    destruct (Z.ltb_spec n 10); [lia|].
    cbn [length]. f_equal. apply IH; [lia|].
    rewrite (Nat2Z.inj_succ (S k)), Z.pow_succ_r in Hn by lia.
    rewrite (Nat2Z.inj_succ k), Z.pow_succ_r in * by lia.
    split.
    + apply Z.div_le_lower_bound; lia.
    + apply Z.div_lt_upper_bound; lia.
Qed.

Lemma digits_rev_length_small fuel n :
  (1 <= fuel)%nat -> n < 10 -> length (digits_rev fuel n) = 1%nat.
Proof.
  intros Hf Hn. destruct fuel as [|fuel]; [lia|]. simpl.
  destruct (Z.ltb_spec n 10); [reflexivity|lia].
Qed.

(** a number below [10^k] has at most [k] digits *)
Lemma digits_rev_length_le k : forall fuel n,
  (1 <= k)%nat -> n < 10 ^ Z.of_nat k ->
  (length (digits_rev fuel n) <= k)%nat.
Proof.
  induction k as [|k IH]; intros fuel n Hk Hn; [lia|].
  destruct fuel as [|fuel]; [simpl; lia|]. cbn [digits_rev].
  destruct (Z.ltb_spec n 10); [simpl; lia|].
  cbn [length]. apply le_n_S.
  destruct k as [|k]; [simpl in Hn; lia|].
  apply IH; [lia|].
  rewrite (Nat2Z.inj_succ (S k)), Z.pow_succ_r in Hn by lia.
  apply Z.div_lt_upper_bound; lia.
Qed.

Lemma decimal_value_app s c :
  decimal_value (s ++ [c])
  = decimal_value s * 10 + (Z.of_N (N_of_ascii c) - 48).
Proof. unfold decimal_value. now rewrite fold_left_app. Qed.

Lemma digit_char_value d : 0 <= d < 10 ->
  Z.of_N (N_of_ascii (digit_char d)) - 48 = d.
Proof.
  intros Hd. unfold digit_char.
  rewrite N_ascii_embedding by lia. lia.
Qed.

Lemma decimal_value_digits l :
  Forall (fun d => 0 <= d < 10) l ->
  decimal_value (map digit_char (rev l))
  = fold_right (fun d acc => d + 10 * acc) 0 l.
Proof.
  induction 1 as [|d l Hd Hl IH]; [reflexivity|].
  simpl. rewrite map_app. simpl. rewrite decimal_value_app, IH.
  rewrite digit_char_value by exact Hd. lia.
Qed.

Lemma decimal_value_zeros k s :
  decimal_value (repeat "0"%char k ++ s) = decimal_value s.
Proof.
  unfold decimal_value. rewrite fold_left_app.
  f_equal. induction k as [|k IH]; [reflexivity|]. simpl. exact IH.
Qed.

Lemma zu_value n : 0 <= n < 2 ^ 64 -> decimal_value (zu n) = n.
Proof.
  intros Hn. unfold zu.
  rewrite decimal_value_digits by (apply digits_rev_range; lia).
  apply digits_rev_value. change (10 ^ Z.of_nat 20) with 100000000000000000000.
  change (2 ^ 64) with 18446744073709551616 in Hn. lia.
Qed.

Lemma zu_length_le k n : (1 <= k)%nat -> n < 10 ^ Z.of_nat k ->
  (length (zu n) <= k)%nat.
Proof.
  intros Hk Hn. unfold zu. rewrite length_map, length_rev.
  now apply digits_rev_length_le.
Qed.

Lemma zu_padded_length W n : (length (zu n) <= W)%nat ->
  length (zu_padded W n) = W.
Proof.
  intros H. unfold zu_padded. rewrite length_app, repeat_length. lia.
Qed.

Lemma take_all {A} (l : list A) n : (length l <= n)%nat -> take n l = l.
Proof. intros H. now apply take_ge. Qed.

(** below [10^9] nothing is cut off the name, and the name denotes the index *)
Lemma getPacketName_full tot n : 0 <= n < 1000000000 ->
  getPacketName tot n = zu_padded (if tot <? 10000000 then 6 else 9) n /\
  decimal_value (getPacketName tot n) = n /\
  (length (zu n) <= 9)%nat.
Proof.
  intros Hn.
  assert (Hlen : (length (zu n) <= 9)%nat).
  { apply zu_length_le; [lia|]. change (10 ^ Z.of_nat 9) with 1000000000. lia. }
  assert (Hfull : getPacketName tot n
                  = zu_padded (if tot <? 10000000 then 6 else 9) n).
  { unfold getPacketName, snprintf. apply take_all.
    unfold zu_padded. rewrite length_app, repeat_length.
    destruct (tot <? 10000000); simpl; lia. }
  split; [exact Hfull|]. split; [|exact Hlen].
  rewrite Hfull. unfold zu_padded. rewrite decimal_value_zeros.
  apply zu_value. change (2 ^ 64) with 18446744073709551616. lia.
Qed.

(** X13: for packet indices below [10^9] the packet name is the decimal
    numeral of the index, zero-padded: it denotes the index, so distinct
    indices have distinct names. *)
Theorem packet_name_denotes_index tot n1 n2 :
  0 <= n1 < 1000000000 -> 0 <= n2 < 1000000000 ->
  decimal_value (getPacketName tot n1) = n1 /\
  (getPacketName tot n1 = getPacketName tot n2 -> n1 = n2).
Proof.
  intros H1 H2.
  destruct (getPacketName_full tot n1 H1) as (_ & Hv1 & _).
  destruct (getPacketName_full tot n2 H2) as (_ & Hv2 & _).
  split; [exact Hv1|]. intros E. rewrite <- Hv1, <- Hv2, E. reflexivity.
Qed.

Lemma packet_name_denotes_index_witness :
  decimal_value (getPacketName 100 42) = 42 /\
  (getPacketName 100 42 = getPacketName 100 42 -> 42 = 42).
Proof.
  apply (packet_name_denotes_index 100 42 42); lia.
Defined.

(** the digits of a name, most significant first *)
Lemma zu_padded_digits W n : 0 <= n ->
  exists D, zu_padded W n = map digit_char D /\
            Forall (fun d => 0 <= d < 10) D.
Proof.
  intros Hn. exists (repeat 0 (W - length (zu n)) ++ rev (digits_rev 20 n)).
  split.
  - unfold zu_padded, zu. rewrite map_app. f_equal.
    induction (W - _)%nat as [|k IH]; [reflexivity|]. simpl. now rewrite IH.
  - apply Forall_app. split.
    + apply Forall_forall. intros d Hd. apply list_elem_of_In in Hd.
      apply repeat_spec in Hd. lia.
    + apply Forall_rev. apply digits_rev_range. exact Hn.
Qed.

Lemma decimal_value_acc {A} (f : A -> Z) (s : list A) : forall a,
  fold_left (fun acc c => acc * 10 + f c) s a
  = a * 10 ^ Z.of_nat (length s) + fold_left (fun acc c => acc * 10 + f c) s 0.
Proof.
  induction s as [|c s IH]; intros a; [simpl; lia|].
  cbn [fold_left length]. rewrite IH, (IH (0 * 10 + f c)).
  rewrite Nat2Z.inj_succ, Z.pow_succ_r by lia. lia.
Qed.

Lemma decimal_value_cons d D : 0 <= d < 10 ->
  decimal_value (map digit_char (d :: D))
  = d * 10 ^ Z.of_nat (length D) + decimal_value (map digit_char D).
Proof.
  intros Hd. unfold decimal_value. cbn [map fold_left].
  rewrite decimal_value_acc, length_map, digit_char_value by exact Hd. lia.
Qed.

Lemma decimal_value_bound D : Forall (fun d => 0 <= d < 10) D ->
  0 <= decimal_value (map digit_char D) < 10 ^ Z.of_nat (length D).
Proof.
  induction 1 as [|d D Hd HD IH]; [simpl; unfold decimal_value; simpl; lia|].
  rewrite decimal_value_cons by exact Hd.
  cbn [length]. rewrite Nat2Z.inj_succ, Z.pow_succ_r by lia. nia.
Qed.

(** numerals of the same length are ordered as the numbers they denote *)
Lemma lex_lt_digits D1 : forall D2,
  length D1 = length D2 ->
  Forall (fun d => 0 <= d < 10) D1 -> Forall (fun d => 0 <= d < 10) D2 ->
  lex_lt (map digit_char D1) (map digit_char D2)
  = (decimal_value (map digit_char D1) <? decimal_value (map digit_char D2)).
Proof.
  induction D1 as [|d1 D1 IH]; intros [|d2 D2] Hlen H1 H2; try discriminate.
  - reflexivity.
  - apply Forall_cons in H1 as [Hd1 H1]. apply Forall_cons in H2 as [Hd2 H2].
    injection Hlen as Hlen.
    rewrite !decimal_value_cons by assumption.
    pose proof (decimal_value_bound D1 H1) as B1.
    pose proof (decimal_value_bound D2 H2) as B2.
    rewrite <- Hlen in *.
    cbn [map lex_lt].
    assert (E1 : N_of_ascii (digit_char d1) = (48 + Z.to_N d1)%N)
      by (unfold digit_char; apply N_ascii_embedding; lia).
    assert (E2 : N_of_ascii (digit_char d2) = (48 + Z.to_N d2)%N)
      by (unfold digit_char; apply N_ascii_embedding; lia).
    rewrite E1, E2.
    set (P := 10 ^ Z.of_nat (length D1)) in *.
    destruct (N.ltb_spec (48 + Z.to_N d1) (48 + Z.to_N d2)).
    + symmetry. apply Z.ltb_lt. nia.
    + destruct (N.ltb_spec (48 + Z.to_N d2) (48 + Z.to_N d1)).
      * symmetry. apply Z.ltb_ge. nia.
      * assert (d1 = d2) as -> by lia.
        rewrite (IH D2 Hlen H1 H2).
        destruct (Z.ltb_spec (decimal_value (map digit_char D1))
                    (decimal_value (map digit_char D2)));
          symmetry; [apply Z.ltb_lt|apply Z.ltb_ge]; lia.
Qed.

(** X14: the names of a batch have one width and sort as the indices do:
    six characters for indices below [10^6] in a batch of fewer than [10^7]
    packets, nine characters for indices below [10^9] in a larger batch;
    and comparing two such names as strings is comparing the indices. *)
Theorem packet_names_sort_like_indices tot n1 n2 :
  0 <= n1 -> 0 <= n2 ->
  (tot < 10000000 /\ n1 < 1000000 /\ n2 < 1000000) \/
  (10000000 <= tot /\ n1 < 1000000000 /\ n2 < 1000000000) ->
  length (getPacketName tot n1) = (if tot <? 10000000 then 6%nat else 9%nat) /\
  length (getPacketName tot n2) = (if tot <? 10000000 then 6%nat else 9%nat) /\
  lex_lt (getPacketName tot n1) (getPacketName tot n2) = (n1 <? n2).
Proof.
  intros Hn1 Hn2 Hcase.
  assert (Hb : n1 < 1000000000 /\ n2 < 1000000000) by lia.
  destruct (getPacketName_full tot n1 ltac:(lia)) as (Hf1 & Hv1 & _).
  destruct (getPacketName_full tot n2 ltac:(lia)) as (Hf2 & Hv2 & _).
  set (W := if tot <? 10000000 then 6%nat else 9%nat) in *.
  assert (HW : forall n, 0 <= n ->
            (tot < 10000000 /\ n < 1000000) \/ (10000000 <= tot /\ n < 1000000000) ->
            (length (zu n) <= W)%nat).
  { intros n Hn [[Ht Hlt]|[Ht Hlt]]; unfold W.
    - destruct (Z.ltb_spec tot 10000000); [|lia].
      apply zu_length_le; [lia|]. change (10 ^ Z.of_nat 6) with 1000000. lia.
    - destruct (Z.ltb_spec tot 10000000); [lia|].
      apply zu_length_le; [lia|]. change (10 ^ Z.of_nat 9) with 1000000000. lia. }
  assert (L1 : length (getPacketName tot n1) = W)
    by (rewrite Hf1; apply zu_padded_length, HW; lia).
  assert (L2 : length (getPacketName tot n2) = W)
    by (rewrite Hf2; apply zu_padded_length, HW; lia).
  split; [exact L1|]. split; [exact L2|].
  destruct (zu_padded_digits W n1 Hn1) as (D1 & E1 & HD1).
  destruct (zu_padded_digits W n2 Hn2) as (D2 & E2 & HD2).
  rewrite Hf1 in *. rewrite Hf2 in *. rewrite E1 in *. rewrite E2 in *.
  rewrite length_map in L1, L2.
  rewrite lex_lt_digits by (assumption || congruence).
  rewrite Hv1, Hv2. reflexivity.
Qed.

Lemma packet_names_sort_like_indices_witness :
  length (getPacketName 300 7) = (if 300 <? 10000000 then 6%nat else 9%nat) /\
  length (getPacketName 300 123) = (if 300 <? 10000000 then 6%nat else 9%nat) /\
  lex_lt (getPacketName 300 7) (getPacketName 300 123) = (7 <? 123).
Proof.
  apply (packet_names_sort_like_indices 300 7 123); lia.
Defined.

(** X15: an index of ten digits does not fit the ten-character buffer: its
    last digit is cut off, so that two such indices that differ in the last
    digit only are given the same name. *)
Theorem packet_names_collide_past_1e9 tot n1 n2 :
  1000000000 <= n1 < 10000000000 -> 1000000000 <= n2 < 10000000000 ->
  n1 / 10 = n2 / 10 ->
  getPacketName tot n1 = getPacketName tot n2 /\
  length (getPacketName tot n1) = 9%nat.
Proof.
  assert (Hcut : forall n, 1000000000 <= n < 10000000000 ->
            getPacketName tot n = map digit_char (rev (digits_rev 19 (n / 10))) /\
            length (digits_rev 19 (n / 10)) = 9%nat).
  { intros n Hn.
    assert (Hq : 100000000 <= n / 10 < 1000000000).
    { split; [apply Z.div_le_lower_bound; lia|apply Z.div_lt_upper_bound; lia]. }
    assert (Hl : length (digits_rev 19 (n / 10)) = 9%nat).
    { apply (digits_rev_length 8); [lia|].
      change (10 ^ Z.of_nat 8) with 100000000.
      change (10 ^ Z.of_nat 9) with 1000000000. exact Hq. }
    split; [|exact Hl].
    unfold getPacketName, snprintf, zu_padded, zu.
    change (digits_rev 20 n)
      with (if n <? 10 then [n] else (n mod 10) :: digits_rev 19 (n / 10)).
    destruct (Z.ltb_spec n 10); [lia|].
    cbn [rev]. rewrite map_app, !length_app, length_map, length_rev, Hl.
    assert (Hpad : forall W : nat, (W <= 9)%nat ->
              repeat "0"%char (W - (9 + length (map digit_char [n mod 10])))
              = []).
    { intros W HW. replace (W - _)%nat with 0%nat by (simpl; lia). reflexivity. }
    rewrite Hpad by (destruct (tot <? 10000000); lia).
    cbn [app].
    rewrite take_app_le by (rewrite length_map, length_rev, Hl; simpl; lia).
    apply take_all. rewrite length_map, length_rev, Hl. simpl. lia. }
  intros H1 H2 E.
  destruct (Hcut n1 H1) as [E1 L1]. destruct (Hcut n2 H2) as [E2 L2].
  rewrite E1, E2, E. split; [reflexivity|].
  now rewrite length_map, length_rev.
Qed.

Lemma packet_names_collide_past_1e9_witness :
  getPacketName 20000000000 1000000000 = getPacketName 20000000000 1000000007 /\
  length (getPacketName 20000000000 1000000000) = 9%nat.
Proof.
  apply (packet_names_collide_past_1e9 20000000000 1000000000 1000000007).
  - lia.
  - lia.
  - reflexivity.
Defined.

End PacketNameFacts.

(** ** Packet names of the image producer *)

Module ImageNameFacts.
Import ImageName.

Lemma find_last_of_none set s :
  Forall (fun c => set c = false) s -> find_last_of set s = None.
Proof.
  induction 1 as [|c s Hc Hs IH]; [reflexivity|].
  simpl. now rewrite IH, Hc.
Qed.

Lemma find_last_of_last set a c b :
  set c = true -> Forall (fun c => set c = false) b ->
  find_last_of set (a ++ c :: b) = Some (length a).
Proof.
  intros Hc Hb. induction a as [|x a IH]; simpl.
  - now rewrite (find_last_of_none set b Hb), Hc.
  - now rewrite IH.
Qed.

(** X16: the packet name of an image is the file name of its path without
    the directories and without the last extension: for a path made of an
    optional directory part ending in a slash or backslash, a stem, a dot
    and an extension free of dots and separators, the name is the stem,
    whatever the directory and the extension are. *)
Theorem image_packet_name_is_stem m_vsInputPaths m_nImageCount nPacketIdx
    pre stem ext :
  0 <= nPacketIdx < m_nImageCount ->
  m_vsInputPaths !! Z.to_nat nPacketIdx = Some (pre ++ stem ++ dot :: ext) ->
  pre = [] \/ (exists dir sep, pre = dir ++ [sep] /\ is_separator sep = true) ->
  Forall (fun c => is_separator c = false) stem ->
  Forall (fun c => is_separator c = false /\ is_dot c = false) ext ->
  getPacketName m_vsInputPaths m_nImageCount nPacketIdx = Some stem.
Proof.
  intros Hidx Hpath Hpre Hstem Hext.
  unfold getPacketName.
  destruct (Z.ltb_spec nPacketIdx m_nImageCount); [|lia].
  rewrite Hpath.
  assert (Hext_sep : Forall (fun c => is_separator c = false) ext)
    by (eapply Forall_impl; [exact Hext|]; intros c [Hc _]; exact Hc).
  assert (Hext_dot : Forall (fun c => is_dot c = false) ext)
    by (eapply Forall_impl; [exact Hext|]; intros c [_ Hc]; exact Hc).
  assert (Hfile : Forall (fun c => is_separator c = false) (stem ++ dot :: ext)).
  { apply Forall_app. split; [exact Hstem|]. constructor; [reflexivity|exact Hext_sep]. }
  assert (Hname : match find_last_of is_separator (pre ++ stem ++ dot :: ext) with
                  | None => pre ++ stem ++ dot :: ext
                  | Some pos => substr (pre ++ stem ++ dot :: ext) (pos + 1) None
                  end = stem ++ dot :: ext).
  { destruct Hpre as [->|(dir & sep & -> & Hsep)].
    - simpl. now rewrite (find_last_of_none _ _ Hfile).
    - rewrite <- app_assoc. simpl.
      rewrite (find_last_of_last is_separator dir sep _ Hsep Hfile).
      unfold substr.
      change (dir ++ sep :: stem ++ dot :: ext)
        with (dir ++ [sep] ++ (stem ++ dot :: ext)).
      rewrite app_assoc. rewrite drop_app_length'; [reflexivity|].
      rewrite length_app. simpl. lia. }
  cbv zeta. rewrite Hname.
  rewrite (find_last_of_last is_dot stem dot ext eq_refl Hext_dot).
  unfold substr. f_equal. rewrite drop_0.
  now rewrite take_app_length.
Qed.

Lemma image_packet_name_is_stem_witness :
  getPacketName
    [["a"; slash; "b"; dot; "x"; dot; "p"]%char; ["c"; dot; "j"]%char] 2 0
  = Some ["b"; dot; "x"]%char.
Proof.
  apply (image_packet_name_is_stem _ 2 0 ["a"; slash]%char ["b"; dot; "x"]%char
           ["p"]%char).
  - lia.
  - reflexivity.
  - right. exists ["a"%char], slash. split; reflexivity.
  - repeat constructor.
  - repeat constructor.
Defined.

End ImageNameFacts.

(** ** Archiver: saving and loading *)

Module ArchiverFacts.
Import IDataLoader IDataArchiver PacketNameFacts.

Lemma disk_read_write p m fs : disk_read (disk_write p m fs) p = m.
Proof.
  unfold disk_write. simpl.
  destruct (List.list_eq_dec ascii_dec p p); [reflexivity|contradiction].
Qed.

Lemma disk_read_other p p' m fs :
  p <> p' -> disk_read (disk_write p m fs) p' = disk_read fs p'.
Proof.
  intros Hne. unfold disk_write. simpl.
  destruct (List.list_eq_dec ascii_dec p p'); [contradiction|reflexivity].
Qed.

Lemma swap_sides_twice m : LoaderSpec.swap_sides (LoaderSpec.swap_sides m) = m.
Proof. destruct m as [[w h] c d]. reflexivity. Qed.

(** X17: with the default packet names, saving the output of one packet
    leaves what is loaded for any other packet as it was, for packet
    indices below [10^9]: the two go to different files. *)
Theorem save_keeps_other_packets
    (files : Type) (imwrite : list ascii -> Mat -> files -> files)
    (imread : files -> list ascii -> Mat)
    (getOutputPath getOutputNamePrefix getOutputNameSuffix : list ascii)
    (getTotPackets : Z) (is4ByteAligned : bool)
    (getInputROI : Z -> Mat) (isInputTransposed : Z -> bool)
    (getInputOrigSize getInputSize : Z -> Size)
    (mask_unknown : Mat -> Mat -> Mat)
    (transpose cvtColor_BGR2BGRA : Mat -> Mat) (resize_nearest : Mat -> Size -> Mat)
    (oOutput : Mat) (nIdx nOtherIdx : Z) (fs : files) :
  (forall fs p p' m, p <> p' -> imread (imwrite p m fs) p' = imread fs p') ->
  getOutputNameSuffix <> [] ->
  0 <= nIdx < 1000000000 -> 0 <= nOtherIdx < 1000000000 ->
  nIdx <> nOtherIdx ->
  exists fs',
    save files imwrite getOutputPath getOutputNamePrefix getOutputNameSuffix
      (PacketName.getPacketName getTotPackets) PixelMapping ImagePacket
      getInputROI isInputTransposed getInputOrigSize mask_unknown transpose
      resize_nearest oOutput nIdx fs = Saved 0 fs' /\
    load files imread getOutputPath getOutputNamePrefix getOutputNameSuffix
      (PacketName.getPacketName getTotPackets) is4ByteAligned PixelMapping
      ImagePacket isInputTransposed getInputSize transpose cvtColor_BGR2BGRA
      resize_nearest nOtherIdx fs'
    = load files imread getOutputPath getOutputNamePrefix getOutputNameSuffix
        (PacketName.getPacketName getTotPackets) is4ByteAligned PixelMapping
        ImagePacket isInputTransposed getInputSize transpose cvtColor_BGR2BGRA
        resize_nearest nOtherIdx fs.
Proof.
  intros Hother Hsuffix H1 H2 Hne.
  unfold save, load.
  destruct getOutputNameSuffix as [|c suffix] eqn:Es; [contradiction|].
  cbn [MappingPolicy_eqb PacketPolicy_eqb andb].
  eexists. split; [reflexivity|].
  rewrite Hother; [reflexivity|].
  unfold sOutputFilePath. intros E.
  apply app_inv_head, app_inv_head, app_inv_tail in E.
  destruct (getPacketName_full getTotPackets nIdx H1) as (_ & Hv1 & _).
  destruct (getPacketName_full getTotPackets nOtherIdx H2) as (_ & Hv2 & _).
  rewrite E in Hv1. congruence.
Qed.

Lemma save_keeps_other_packets_witness :
  exists fs',
    save disk disk_write [] [] ["."; "p"]%char
      (PacketName.getPacketName 3) PixelMapping ImagePacket
      (fun _ => emptyMat) (fun _ => true) Examples.size2x2
      (fun m _ => m) LoaderSpec.swap_sides
      LoaderSpec.set_size (Examples.image2x2 1) 1 [] = Saved 0 fs' /\
    load disk disk_read [] [] ["."; "p"]%char
      (PacketName.getPacketName 3) false PixelMapping
      ImagePacket (fun _ => true) Examples.size2x2 LoaderSpec.swap_sides
      LoaderSpec.to_bgra LoaderSpec.set_size 2 fs'
    = load disk disk_read [] [] ["."; "p"]%char
        (PacketName.getPacketName 3) false PixelMapping
        ImagePacket (fun _ => true) Examples.size2x2 LoaderSpec.swap_sides
        LoaderSpec.to_bgra LoaderSpec.set_size 2 [].
Proof.
  apply (save_keeps_other_packets disk disk_write disk_read [] []
           ["."; "p"]%char 3 false (fun _ => emptyMat) (fun _ => true)
           Examples.size2x2 Examples.size2x2 (fun m _ => m)
           LoaderSpec.swap_sides LoaderSpec.to_bgra LoaderSpec.set_size
           (Examples.image2x2 1) 1 2 []).
  - intros fs p p' m Hne. now apply disk_read_other.
  - discriminate.
  - lia.
  - lia.
  - lia.
Defined.

(** X18: what is saved is what is loaded.  For an output packet of the
    declared packet size whose orientation on disk has the declared
    original size, with no region of interest to mask and no three-channel
    packet under 4-byte alignment, [load] after [save] of the same index
    returns the packet that was saved, provided transposing twice gives the
    packet back and a file reads as it was written. *)
Theorem load_after_save
    (files : Type) (imwrite : list ascii -> Mat -> files -> files)
    (imread : files -> list ascii -> Mat)
    (getOutputPath getOutputNamePrefix getOutputNameSuffix : list ascii)
    (getPacketName : Z -> list ascii) (is4ByteAligned : bool)
    (getInputROI : Z -> Mat) (isInputTransposed : Z -> bool)
    (getInputOrigSize getInputSize : Z -> Size)
    (mask_unknown : Mat -> Mat -> Mat)
    (transpose cvtColor_BGR2BGRA : Mat -> Mat) (resize_nearest : Mat -> Size -> Mat)
    (oOutput : Mat) (nIdx : Z) (fs : files) :
  (forall fs p m, imread (imwrite p m fs) p = m) ->
  (forall m, transpose (transpose m) = m) ->
  getOutputNameSuffix <> [] ->
  empty (getInputROI nIdx) = true ->
  size (if isInputTransposed nIdx then transpose oOutput else oOutput)
  = getInputOrigSize nIdx ->
  size oOutput = getInputSize nIdx ->
  (is4ByteAligned = true -> channels oOutput <> 3) ->
  exists fs',
    save files imwrite getOutputPath getOutputNamePrefix getOutputNameSuffix
      getPacketName PixelMapping ImagePacket
      getInputROI isInputTransposed getInputOrigSize mask_unknown transpose
      resize_nearest oOutput nIdx fs = Saved 0 fs' /\
    load files imread getOutputPath getOutputNamePrefix getOutputNameSuffix
      getPacketName is4ByteAligned PixelMapping
      ImagePacket isInputTransposed getInputSize transpose cvtColor_BGR2BGRA
      resize_nearest nIdx fs' = Loaded oOutput.
Proof.
  intros Hread Htt Hsuffix Hroi Horig Hsize Hch.
  unfold save, load.
  destruct getOutputNameSuffix as [|c suffix] eqn:Es; [contradiction|].
  cbn [MappingPolicy_eqb PacketPolicy_eqb andb].
  rewrite Hroi. cbn [negb andb].
  eexists. split; [reflexivity|].
  rewrite Hread.
  assert (Hback :
    (if isInputTransposed nIdx
     then transpose
            (if (0 <? area (getInputOrigSize nIdx))
                && negb (Size_eqb
                           (size (if isInputTransposed nIdx
                                  then transpose oOutput else oOutput))
                           (getInputOrigSize nIdx))
             then resize_nearest
                    (if isInputTransposed nIdx then transpose oOutput else oOutput)
                    (getInputOrigSize nIdx)
             else if isInputTransposed nIdx then transpose oOutput else oOutput)
     else
       (if (0 <? area (getInputOrigSize nIdx))
           && negb (Size_eqb
                      (size (if isInputTransposed nIdx
                             then transpose oOutput else oOutput))
                      (getInputOrigSize nIdx))
        then resize_nearest
               (if isInputTransposed nIdx then transpose oOutput else oOutput)
               (getInputOrigSize nIdx)
        else if isInputTransposed nIdx then transpose oOutput else oOutput))
    = oOutput).
  { rewrite Horig, LoaderExtra.Size_eqb_refl, andb_false_r.
    destruct (isInputTransposed nIdx); [apply Htt|reflexivity]. }
  cbv zeta. rewrite Hback.
  assert (Hnocvt : is4ByteAligned && (channels oOutput =? 3) = false).
  { destruct is4ByteAligned; [|reflexivity]. simpl.
    apply Z.eqb_neq. now apply Hch. }
  rewrite Hnocvt, Hsize, LoaderExtra.Size_eqb_refl, andb_false_r.
  reflexivity.
Qed.

Lemma load_after_save_witness :
  exists fs',
    save disk disk_write [] [] ["."; "p"]%char
      (PacketName.getPacketName 3) PixelMapping ImagePacket
      (fun _ => emptyMat) (fun _ => true) Examples.size2x2
      (fun m _ => m) LoaderSpec.swap_sides
      LoaderSpec.set_size (Examples.image2x2 1) 1 [] = Saved 0 fs' /\
    load disk disk_read [] [] ["."; "p"]%char
      (PacketName.getPacketName 3) true PixelMapping
      ImagePacket (fun _ => true) Examples.size2x2 LoaderSpec.swap_sides
      LoaderSpec.to_bgra LoaderSpec.set_size 1 fs'
    = Loaded (Examples.image2x2 1).
Proof.
  apply (load_after_save disk disk_write disk_read [] [] ["."; "p"]%char
           (PacketName.getPacketName 3) true (fun _ => emptyMat)
           (fun _ => true) Examples.size2x2 Examples.size2x2 (fun m _ => m)
           LoaderSpec.swap_sides LoaderSpec.to_bgra LoaderSpec.set_size
           (Examples.image2x2 1) 1 []).
  - intros fs p m. apply disk_read_write.
  - apply swap_sides_twice.
  - discriminate.
  - reflexivity.
  - reflexivity.
  - reflexivity.
  - intros _. discriminate.
Defined.

End ArchiverFacts.

(** ** Video producer: frames through the reader *)

Module VideoFacts.
Import IDataLoader VideoProducer.

Lemma jumps_in_order k : forall e, jumps e (seqZ e (Z.of_nat k)) = [].
Proof.
  induction k as [|k IH]; intros e; [reflexivity|].
  rewrite seqZ_cons by lia. simpl jumps. rewrite Z.eqb_refl. simpl.
  replace (Z.pred (Z.of_nat (S k))) with (Z.of_nat k) by lia.
  apply IH.
Qed.

(** X19: with an opened video whose reader stands at the expected frame,
    as after [parseData], requests for frames inside the video are answered
    with the frame of the requested index in whatever order they come; the
    reader is repositioned exactly for the requests that do not follow the
    one before them, so that a series in frame order from the reader's
    position needs no repositioning at all. *)
Theorem video_frames_in_any_order m_nFrameCount video_frame imread_input idxs :
  forall s,
  m_nFrameCount <= SIZE_MAX ->
  isOpened s = true ->
  m_nNextExpectedVideoReaderFrameIdx s = pos_frames s ->
  Forall (fun nFrameIdx => 0 <= nFrameIdx < m_nFrameCount) idxs ->
  exists s',
    fetch_all m_nFrameCount video_frame imread_input idxs s
    = Some (map video_frame idxs, s') /\
    isOpened s' = true /\
    m_nNextExpectedVideoReaderFrameIdx s' = pos_frames s' /\
    seeks s' = seeks s ++ jumps (pos_frames s) idxs /\
    (idxs = seqZ (pos_frames s) (Z.of_nat (length idxs)) -> seeks s' = seeks s).
Proof.
  intros s Hcount Hopen Hexp Hidx.
  assert (Hmain : exists s',
    fetch_all m_nFrameCount video_frame imread_input idxs s
    = Some (map video_frame idxs, s') /\
    isOpened s' = true /\
    m_nNextExpectedVideoReaderFrameIdx s' = pos_frames s' /\
    seeks s' = seeks s ++ jumps (pos_frames s) idxs).
  { revert s Hopen Hexp.
    induction Hidx as [|i idxs Hi Hidx IH]; intros s Hopen Hexp.
    - exists s. simpl. rewrite app_nil_r. auto.
    - cbn [fetch_all]. unfold _getInputPacket_impl.
      destruct (Z.ltb_spec i m_nFrameCount); [|lia].
      rewrite Hopen. cbn [negb].
      assert (Hw : wrap (i + 1) = i + 1)
        by (apply wrap_small; pose proof SIZE_MOD_eq; unfold SIZE_MAX in *; lia).
      destruct (Z.eqb_spec (m_nNextExpectedVideoReaderFrameIdx s) i) as [E|E];
        cbn [negb pos_frames isOpened seeks m_nNextExpectedVideoReaderFrameIdx].
      + rewrite E, Hw.
        destruct (IH {| isOpened := true; pos_frames := pos_frames s + 1;
                        m_nNextExpectedVideoReaderFrameIdx := i + 1;
                        seeks := seeks s |} eq_refl)
          as (s' & Hf & Ho & He & Hs).
        { simpl. lia. }
        rewrite Hf. exists s'. rewrite <- Hexp, E. split; [reflexivity|].
        split; [exact Ho|]. split; [exact He|].
        rewrite Hs. cbn [jumps pos_frames seeks].
        rewrite <- Hexp, E, Z.eqb_refl. reflexivity.
      + rewrite Hw.
        destruct (IH {| isOpened := true; pos_frames := i + 1;
                        m_nNextExpectedVideoReaderFrameIdx := i + 1;
                        seeks := seeks s ++ [i] |} eq_refl eq_refl)
          as (s' & Hf & Ho & He & Hs).
        rewrite Hf. exists s'. split; [reflexivity|].
        split; [exact Ho|]. split; [exact He|].
        rewrite Hs. cbn [jumps pos_frames seeks].
        rewrite <- Hexp.
        destruct (Z.eqb_spec i (m_nNextExpectedVideoReaderFrameIdx s)); [congruence|].
        now rewrite <- app_assoc. }
  destruct Hmain as (s' & Hf & Ho & He & Hs).
  exists s'. repeat (split; [assumption|]).
  intros Hseq. rewrite Hs, Hseq, jumps_in_order. apply app_nil_r.
Qed.

Lemma video_frames_in_any_order_witness :
  exists s',
    fetch_all 10 Examples.image2x2 Examples.image2x2 [0; 1; 5; 6; 2] parsed
    = Some (map Examples.image2x2 [0; 1; 5; 6; 2], s') /\
    isOpened s' = true /\
    m_nNextExpectedVideoReaderFrameIdx s' = pos_frames s' /\
    seeks s' = seeks parsed ++ jumps (pos_frames parsed) [0; 1; 5; 6; 2] /\
    ([0; 1; 5; 6; 2]
     = seqZ (pos_frames parsed) (Z.of_nat (length [0; 1; 5; 6; 2])) ->
     seeks s' = seeks parsed).
Proof.
  apply (video_frames_in_any_order 10 Examples.image2x2 Examples.image2x2
           [0; 1; 5; 6; 2] parsed).
  - vm_compute. discriminate.
  - reflexivity.
  - reflexivity.
  - repeat constructor; lia.
Defined.

End VideoFacts.

(** ** Image producer: parsing *)

Module ImageFacts.
Import IDataLoader ImageProducer.

Section Parse.

Variable imread : list ascii -> Mat.
Variable rescale : Mat -> Mat.

(** The [while] loop erases the unreadable paths from position [n] on, up
    to the first readable one, and leaves the image read from that one. *)
Lemma skip_unreadable_spec fuel : forall pre p rest,
  (length rest < fuel)%nat ->
  exists rest2 oCurrInput,
    skip_unreadable imread fuel (length pre) (pre ++ p :: rest) (imread p)
    = (pre ++ rest2, oCurrInput) /\
    List.filter (readable imread) (p :: rest)
    = List.filter (readable imread) rest2 /\
    (length rest2 <= S (length rest))%nat /\
    match rest2 with
    | [] => empty oCurrInput = true
    | q :: _ => oCurrInput = imread q /\ empty (imread q) = false
    end.
Proof.
  induction fuel as [|fuel IH]; intros pre p rest Hfuel; [lia|].
  cbn [skip_unreadable].
  destruct (empty (imread p)) eqn:He.
  - rewrite delete_middle.
    destruct rest as [|q rest'].
    + rewrite app_nil_r.
      destruct (Nat.leb_spec (length pre) (length pre)); [|lia].
      exists [], (imread p). rewrite app_nil_r.
      split; [reflexivity|]. split; [|split; [simpl; lia|exact He]].
      simpl. unfold readable. now rewrite He.
    + destruct (Nat.leb_spec (length (pre ++ q :: rest')) (length pre)) as [Hl|Hl].
      { rewrite length_app in Hl. simpl in Hl. lia. }
      rewrite nth_middle.
      destruct (IH pre q rest' ltac:(simpl in Hfuel; lia))
        as (rest2 & cur & Hskip & Hfilter & Hlen & Hcur).
      exists rest2, cur. split; [exact Hskip|].
      split; [|split; [simpl in *; lia|exact Hcur]].
      rewrite <- Hfilter. cbn [List.filter]. unfold readable at 1.
      now rewrite He.
  - exists (p :: rest), (imread p).
    split; [reflexivity|]. split; [reflexivity|]. split; [simpl; lia|].
    split; [reflexivity|exact He].
Qed.

Lemma push_image_paths cur last s :
  m_vsInputPaths (push_image rescale cur last s) = m_vsInputPaths s.
Proof. reflexivity. Qed.

Lemma push_image_with_paths paths cur last s :
  push_image rescale cur last (with_paths paths s)
  = with_paths paths (push_image rescale cur last s).
Proof. reflexivity. Qed.

Lemma push_all_with_paths F : forall paths last s,
  push_all imread rescale F last (with_paths paths s)
  = with_paths paths (push_all imread rescale F last s).
Proof.
  induction F as [|q F IH]; intros paths last s; [reflexivity|].
  cbn [push_all]. rewrite push_image_with_paths. apply IH.
Qed.

Lemma with_paths_twice p1 p2 s : with_paths p1 (with_paths p2 s) = with_paths p1 s.
Proof. reflexivity. Qed.

(** The [for] loop, with its erasing of paths while it walks over them,
    pushes exactly the readable files, in their order, and leaves their
    paths. *)
Lemma parse_loop_filter fuel : forall pre rest last s,
  m_vsInputPaths s = pre ++ rest -> (length rest <= fuel)%nat ->
  parse_loop imread rescale fuel (length pre) last s
  = with_paths (pre ++ List.filter (readable imread) rest)
      (push_all imread rescale (List.filter (readable imread) rest) last s).
Proof.
  induction fuel as [|fuel IH]; intros pre rest last s Hpaths Hfuel.
  - destruct rest; [|simpl in Hfuel; lia]. simpl. rewrite app_nil_r.
    rewrite app_nil_r in Hpaths. destruct s; simpl in *. now subst.
  - cbn [parse_loop]. rewrite Hpaths.
    destruct rest as [|p rest].
    + rewrite app_nil_r.
      destruct (Nat.ltb_spec (length pre) (length pre)); [lia|].
      simpl. rewrite app_nil_r in *. destruct s; simpl in *. now subst.
    + destruct (Nat.ltb_spec (length pre) (length (pre ++ p :: rest))) as [Hl|Hl];
        [|rewrite length_app in Hl; simpl in Hl; lia].
      rewrite nth_middle.
      destruct (skip_unreadable_spec (length (pre ++ p :: rest)) pre p rest)
        as (rest2 & cur & Hskip & Hfilter & Hlen & Hcur).
      { rewrite length_app. simpl. lia. }
      rewrite Hskip, Hfilter.
      destruct rest2 as [|q rest2].
      * rewrite Hcur. reflexivity.
      * destruct Hcur as [-> He]. rewrite He.
        assert (Hq : readable imread q = true)
          by (unfold readable; now rewrite He).
        cbn [List.filter]. rewrite Hq.
        replace (S (length pre)) with (length (pre ++ [q]))
          by (rewrite length_app; simpl; lia).
        rewrite (IH (pre ++ [q]) rest2).
        -- cbn [push_all]. rewrite push_image_with_paths, push_all_with_paths.
           rewrite with_paths_twice, <- app_assoc. reflexivity.
        -- rewrite push_image_paths. simpl. now rewrite <- app_assoc.
        -- simpl in Hlen, Hfuel. lia.
Qed.

(** the tables after a series of pushes *)
Lemma push_all_tables F : forall last s,
  m_vsInputPaths (push_all imread rescale F last s) = m_vsInputPaths s /\
  m_voInputOrigSizes (push_all imread rescale F last s)
  = m_voInputOrigSizes s ++ map (fun p => size (imread p)) F /\
  m_voInputSizes (push_all imread rescale F last s)
  = m_voInputSizes s ++ map (fun p => size (rescale (imread p))) F /\
  m_vbInputTransposed (push_all imread rescale F last s)
  = m_vbInputTransposed s ++ repeat false (length F).
Proof.
  induction F as [|q F IH]; intros last s.
  - simpl. now rewrite !app_nil_r.
  - cbn [push_all]. destruct (IH (rescale (imread q))
                                (push_image rescale (imread q) last s))
      as (H1 & H2 & H3 & H4).
    rewrite H1, H2, H3, H4. cbn [push_image m_vsInputPaths m_voInputOrigSizes
      m_voInputSizes m_vbInputTransposed map repeat length].
    now rewrite <- !app_assoc.
Qed.

Lemma push_image_max_ok cur last s :
  max_ok s -> max_ok (push_image rescale cur last s).
Proof.
  intros (Hw0 & Hh0 & Hdom & Hw & Hh). unfold max_ok.
  cbn [push_image m_oInputMaxSize m_voInputSizes width height].
  set (sz := size (rescale cur)).
  split; [destruct (Z.ltb_spec (width (m_oInputMaxSize s)) (width sz)); lia|].
  split; [destruct (Z.ltb_spec (height (m_oInputMaxSize s)) (height sz)); lia|].
  split; [|split].
  - apply Forall_app. split.
    + eapply Forall_impl; [exact Hdom|]. intros a [Ha1 Ha2].
      destruct (Z.ltb_spec (width (m_oInputMaxSize s)) (width sz));
        destruct (Z.ltb_spec (height (m_oInputMaxSize s)) (height sz)); lia.
    + constructor; [|constructor].
      destruct (Z.ltb_spec (width (m_oInputMaxSize s)) (width sz));
        destruct (Z.ltb_spec (height (m_oInputMaxSize s)) (height sz)); lia.
  - rewrite map_app. simpl map.
    destruct (Z.ltb_spec (width (m_oInputMaxSize s)) (width sz)).
    + right. apply in_or_app. right. now left.
    + destruct Hw as [Hw|Hw]; [now left|]. right. apply in_or_app. now left.
  - rewrite map_app. simpl map.
    destruct (Z.ltb_spec (height (m_oInputMaxSize s)) (height sz)).
    + right. apply in_or_app. right. now left.
    + destruct Hh as [Hh|Hh]; [now left|]. right. apply in_or_app. now left.
Qed.

Lemma push_image_flag_ok cur last s :
  empty (rescale cur) = false ->
  flag_ok last s -> flag_ok (rescale cur) (push_image rescale cur last s).
Proof.
  intros Hne Hok. right. split; [exact Hne|].
  cbn [push_image m_voInputSizes m_bIsInputConstantSize].
  split; [eauto|].
  destruct Hok as [(Hnil & Hlast & Hflag) | (Hlast & (sizes & Hsizes) & Hflag)].
  - rewrite Hlast, Hnil, Hflag. simpl. split; [|reflexivity].
    intros _. repeat constructor.
  - rewrite Hlast. cbn [negb andb].
    destruct (Size_eqb (size (rescale cur)) (size last)) eqn:Eq; cbn [negb].
    + apply LoaderExtra.Size_eqb_eq in Eq. rewrite Eq, Hflag.
      split; intros H.
      * apply Forall_app. split; [exact H|repeat constructor].
      * now apply Forall_app in H as [H _].
    + split; [discriminate|]. intros H. exfalso.
      apply Forall_app in H as [H _]. rewrite Hsizes in H.
      apply Forall_app in H as [_ H]. apply Forall_cons in H as [H _].
      rewrite H, LoaderExtra.Size_eqb_refl in Eq. discriminate.
Qed.

Lemma push_all_ok F : forall last s,
  Forall (fun p => empty (rescale (imread p)) = false) F ->
  max_ok s -> flag_ok last s ->
  max_ok (push_all imread rescale F last s) /\
  exists last', flag_ok last' (push_all imread rescale F last s).
Proof.
  induction F as [|q F IH]; intros last s HF Hmax Hflag.
  - simpl. eauto.
  - apply Forall_cons in HF as [Hq HF]. cbn [push_all].
    apply IH; [exact HF|now apply push_image_max_ok|now apply push_image_flag_ok].
Qed.

End Parse.

(** what [parseData] returns, in terms of the readable files *)
Lemma parseData_readable imread rescale files nImageCount :
  parseData imread rescale ImagePacket files nImageCount
  = match List.filter (readable imread) files with
    | [] => ParseError
    | F =>
        Parsed (with_count (Z.of_nat (length F))
                  (with_paths F
                     (push_all imread rescale F emptyMat
                        (cleared files nImageCount))))
    end.
Proof.
  unfold parseData. cbn [PacketPolicy_eqb].
  destruct files as [|p files]; [reflexivity|].
  pose proof (parse_loop_filter imread rescale (length (p :: files)) []
                (p :: files) emptyMat (cleared (p :: files) nImageCount)
                eq_refl (le_n _)) as Hloop.
  change (length []) with 0%nat in Hloop.
  cbv zeta. rewrite Hloop. cbn [app with_paths m_vsInputPaths].
  destruct (List.filter (readable imread) (p :: files)) as [|q F] eqn:EF.
  - reflexivity.
  - destruct (Z.ltb_spec 0 (Z.of_nat (length (q :: F)))); [|simpl in *; lia].
    reflexivity.
Qed.

(** X20: parsing a directory keeps exactly the files that read as images,
    in the order they were listed: their paths are the paths of the
    producer, the packet count is their number, and the table of original
    sizes, the table of sizes and the table of transposition flags have one
    entry for each of them; with no such file, parsing fails. *)
Theorem image_parse_keeps_readable_files imread rescale files nImageCount :
  match List.filter (readable imread) files with
  | [] => parseData imread rescale ImagePacket files nImageCount = ParseError
  | F =>
      exists s,
        parseData imread rescale ImagePacket files nImageCount = Parsed s /\
        m_vsInputPaths s = F /\
        getTotPackets s = Z.of_nat (length F) /\
        m_voInputOrigSizes s = map (fun p => size (imread p)) F /\
        m_voInputSizes s = map (fun p => size (rescale (imread p))) F /\
        m_vbInputTransposed s = repeat false (length F)
  end.
Proof.
  rewrite parseData_readable.
  destruct (push_all_tables imread rescale
              (List.filter (readable imread) files) emptyMat
              (cleared files nImageCount))
    as (_ & Horig & Hsizes & Htr).
  destruct (List.filter (readable imread) files) as [|q F] eqn:EF.
  - reflexivity.
  - eexists. split; [reflexivity|].
    cbn [m_vsInputPaths getTotPackets m_nImageCount m_voInputOrigSizes
         m_voInputSizes m_vbInputTransposed with_paths with_count].
    rewrite Horig, Hsizes, Htr. auto.
Qed.

Lemma all_equal_last {A} (l pre : list A) (x d : A) :
  l = pre ++ [x] ->
  (Forall (fun a => a = x) l <->
   forall i j, (i < length l)%nat -> (j < length l)%nat -> nth i l d = nth j l d).
Proof.
  intros Hl. split.
  - intros H i j Hi Hj. rewrite Forall_forall in H.
    rewrite (H (nth i l d)), (H (nth j l d));
      [reflexivity|apply list_elem_of_In, nth_In; lia..].
  - intros H. apply Forall_forall. intros a Ha. apply list_elem_of_In in Ha.
    destruct (In_nth l a d Ha) as (i & Hi & <-).
    assert (Hx : nth (length pre) l d = x) by (rewrite Hl; apply nth_middle).
    rewrite <- Hx. apply H; [exact Hi|].
    rewrite Hl, length_app. simpl. lia.
Qed.

(** X21: after parsing, the maximal input size bounds the size of every
    packet, and each of its sides is the side of some packet's size (or 0);
    past the packet count the sizes are the empty size; and, provided a
    readable image stays non-empty when it is rescaled, the constant-size
    flag is up exactly when all packets have the same size. *)
Theorem image_parse_max_and_constant_size imread rescale files nImageCount s :
  (forall p, readable imread p = true -> empty (rescale (imread p)) = false) ->
  parseData imread rescale ImagePacket files nImageCount = Parsed s ->
  (forall nPacketIdx, 0 <= nPacketIdx ->
     width (getInputSize s nPacketIdx) <= width (getInputMaxSize s) /\
     height (getInputSize s nPacketIdx) <= height (getInputMaxSize s)) /\
  In (width (getInputMaxSize s)) (0 :: map width (m_voInputSizes s)) /\
  In (height (getInputMaxSize s)) (0 :: map height (m_voInputSizes s)) /\
  (forall nPacketIdx, getTotPackets s <= nPacketIdx ->
     getInputSize s nPacketIdx = emptySize /\
     getInputOrigSize s nPacketIdx = emptySize) /\
  (isInputConstantSize s = true <->
   forall i j, 0 <= i < getTotPackets s -> 0 <= j < getTotPackets s ->
     getInputSize s i = getInputSize s j).
Proof.
  intros Hres Hparse. rewrite parseData_readable in Hparse.
  set (F := List.filter (readable imread) files) in *.
  assert (HF : Forall (fun p => empty (rescale (imread p)) = false) F).
  { apply Forall_forall. intros p Hp. apply Hres.
    apply list_elem_of_In in Hp. unfold F in Hp.
    now apply filter_In in Hp as [_ Hp]. }
  destruct (push_all_ok imread rescale F emptyMat (cleared files nImageCount) HF)
    as ((Hw0 & Hh0 & Hdom & Hw & Hh) & last' & Hflag).
  { unfold max_ok. simpl. repeat split; try lia; auto. }
  { left. repeat split. }
  destruct (push_all_tables imread rescale F emptyMat (cleared files nImageCount))
    as (_ & _ & Hsizes & _).
  simpl in Hsizes.
  set (s1 := push_all imread rescale F emptyMat (cleared files nImageCount)) in *.
  assert (Hs : s = with_count (Z.of_nat (length F)) (with_paths F s1) /\ F <> []).
  { destruct F; [discriminate|]. inversion Hparse. split; [reflexivity|discriminate]. }
  destruct Hs as [-> HFne]. clear Hparse.
  assert (Hlen : length (m_voInputSizes s1) = length F)
    by (rewrite Hsizes; apply length_map).
  unfold getInputSize, getInputOrigSize, getInputMaxSize, getTotPackets,
    isInputConstantSize.
  cbn [with_count with_paths m_nImageCount m_voInputSizes m_voInputOrigSizes
       m_oInputMaxSize m_bIsInputConstantSize].
  split; [|split; [exact Hw|split; [exact Hh|split]]].
  - intros idx Hidx.
    destruct (Z.leb_spec (Z.of_nat (length F)) idx); [simpl; lia|].
    rewrite Forall_forall in Hdom. apply Hdom.
    apply list_elem_of_In, nth_In. lia.
  - intros idx Hidx. destruct (Z.leb_spec (Z.of_nat (length F)) idx); [auto|lia].
  - destruct Hflag as [(Hnil & _) | (_ & (sizes & Hpre) & Hflag)].
    { rewrite Hnil in Hlen. destruct F; [contradiction|discriminate]. }
    rewrite Hflag, (all_equal_last _ sizes _ emptySize Hpre), Hlen.
    split.
    + intros H i j Hi Hj.
      destruct (Z.leb_spec (Z.of_nat (length F)) i); [lia|].
      destruct (Z.leb_spec (Z.of_nat (length F)) j); [lia|].
      apply H; lia.
    + intros H i j Hi Hj.
      specialize (H (Z.of_nat i) (Z.of_nat j) ltac:(lia) ltac:(lia)).
      destruct (Z.leb_spec (Z.of_nat (length F)) (Z.of_nat i)); [lia|].
      destruct (Z.leb_spec (Z.of_nat (length F)) (Z.of_nat j)); [lia|].
      now rewrite !Nat2Z.id in H.
Qed.

Lemma image_parse_max_and_constant_size_witness :
  exists s,
    parseData imread_abc (fun m => m) ImagePacket [file_a; file_b; file_c] 0
    = Parsed s /\
    getInputMaxSize s = {| width := 3; height := 2 |} /\
    (isInputConstantSize s = true <->
     forall i j, 0 <= i < getTotPackets s -> 0 <= j < getTotPackets s ->
       getInputSize s i = getInputSize s j).
Proof.
  eexists. split; [reflexivity|]. split; [reflexivity|].
  apply (image_parse_max_and_constant_size imread_abc (fun m => m)
           [file_a; file_b; file_c] 0).
  - intros p Hp. unfold readable in Hp. now destruct (empty (imread_abc p)).
  - reflexivity.
Defined.

End ImageFacts.

(** ** Ground truth packets *)

Module GroundTruthFacts.
Import IDataLoader GroundTruth.

(** X22: the image producer looks the ground truth index up a second time
    before it reads the file.  Where the table maps the ground truth index
    of a packet to itself, as a table that pairs packet [i] with file [i]
    does, it returns what the video producer returns for the same table:
    the file at the ground truth index, read as an image, the table left
    as it is. *)
Theorem image_gt_matches_video_on_fixed_points getTotPackets getGTMappingType
    m_vsGTPaths imread nIdx m_mGTIndexLUT :
  (forall nGTIdx, m_mGTIndexLUT nIdx = Some nGTIdx ->
                  m_mGTIndexLUT nGTIdx = Some nGTIdx) ->
  Image_getGTPacket_impl getTotPackets getGTMappingType m_vsGTPaths imread
    nIdx m_mGTIndexLUT
  = Video_getGTPacket_impl getTotPackets getGTMappingType m_vsGTPaths imread
      nIdx m_mGTIndexLUT /\
  (forall nGTIdx sPath,
     nIdx < getTotPackets -> getGTMappingType = PixelMapping ->
     m_mGTIndexLUT nIdx = Some nGTIdx -> 0 <= nGTIdx ->
     m_vsGTPaths !! Z.to_nat nGTIdx = Some sPath ->
     Image_getGTPacket_impl getTotPackets getGTMappingType m_vsGTPaths imread
       nIdx m_mGTIndexLUT = GTPacket (imread sPath) m_mGTIndexLUT).
Proof.
  intros Hfix.
  assert (Heq : Image_getGTPacket_impl getTotPackets getGTMappingType
                  m_vsGTPaths imread nIdx m_mGTIndexLUT
                = Video_getGTPacket_impl getTotPackets getGTMappingType
                    m_vsGTPaths imread nIdx m_mGTIndexLUT).
  { unfold Image_getGTPacket_impl, Video_getGTPacket_impl.
    destruct (nIdx <? getTotPackets); [|reflexivity].
    destruct (m_mGTIndexLUT nIdx) as [g|] eqn:Hg; [|reflexivity].
    unfold lut_index at 1 3. rewrite Hg.
    destruct (g <? Z.of_nat (length m_vsGTPaths)); [|reflexivity].
    destruct (MappingPolicy_eqb getGTMappingType PixelMapping); [|reflexivity].
    unfold lut_index. rewrite (Hfix g eq_refl). reflexivity. }
  split; [exact Heq|].
  intros g sPath Hidx Hmap Hg Hg0 Hpath. rewrite Heq.
  unfold Video_getGTPacket_impl, lut_index.
  destruct (Z.ltb_spec nIdx getTotPackets); [|lia].
  rewrite Hg, Hmap. cbn [MappingPolicy_eqb].
  pose proof (lookup_lt_Some _ _ _ Hpath) as Hlt.
  destruct (Z.ltb_spec g (Z.of_nat (length m_vsGTPaths))); [|lia].
  rewrite Hpath. reflexivity.
Qed.

Lemma image_gt_matches_video_on_fixed_points_witness :
  Image_getGTPacket_impl 3 PixelMapping
    [ImageProducer.file_a; ImageProducer.file_b; ImageProducer.file_c]
    ImageProducer.imread_abc 2 (identity_lut 3)
  = Video_getGTPacket_impl 3 PixelMapping
      [ImageProducer.file_a; ImageProducer.file_b; ImageProducer.file_c]
      ImageProducer.imread_abc 2 (identity_lut 3) /\
  (forall nGTIdx sPath,
     2 < 3 -> PixelMapping = PixelMapping ->
     identity_lut 3 2 = Some nGTIdx -> 0 <= nGTIdx ->
     [ImageProducer.file_a; ImageProducer.file_b; ImageProducer.file_c]
       !! Z.to_nat nGTIdx = Some sPath ->
     Image_getGTPacket_impl 3 PixelMapping
       [ImageProducer.file_a; ImageProducer.file_b; ImageProducer.file_c]
       ImageProducer.imread_abc 2 (identity_lut 3)
     = GTPacket (ImageProducer.imread_abc sPath) (identity_lut 3)).
Proof.
  apply (image_gt_matches_video_on_fixed_points 3 PixelMapping
           [ImageProducer.file_a; ImageProducer.file_b; ImageProducer.file_c]
           ImageProducer.imread_abc 2 (identity_lut 3)).
  intros g Hg. vm_compute in Hg. inversion Hg. reflexivity.
Defined.

End GroundTruthFacts.

(** ** Asynchronous consumer: the packets around the algorithm *)

Module ConsumerFacts.
Import DataPrecacher PrecacherSpec PrecacherFacts AsyncDataConsumer.

Ltac zsizes :=
  pose proof SIZE_MOD_eq; unfold SIZE_MAX, is_size_t in *.

Section Channel.

Variable load : Z -> Packet.
Hypothesis load_ok : loader_ok load.

Lemma holds_bytes ch nHeld :
  state_inv load (m_oPrecacher ch) -> holds load ch nHeld ->
  mat_bytes (m_oPrecacher ch) (m_oNext ch) = load nHeld.
Proof using Type.
  intros (_ & Hmemo & _) [(data & Hm & Hd) | (Hm & Hidx & Hmax)].
  - rewrite Hm. simpl. exact Hd.
  - rewrite Hm, <- Hidx. apply Hmemo. congruence.
Qed.

Lemma fetch_next_ok ch nLast nCurr nHeld nIdx sched :
  channel_ok load ch nLast nCurr nHeld ->
  0 <= nIdx < SIZE_MAX -> existsb is_notified sched = true ->
  exists ch',
    fetch_next load nIdx sched ch = Done ch' /\
    channel_ok load ch' nLast nCurr nIdx.
Proof using load_ok.
  intros (Hinv & Hl & Hc & _) Hidx Hsched.
  unfold fetch_next.
  destruct (getPacket_returns load nIdx sched (m_oPrecacher ch)
              (or_intror Hsched)) as (m & p' & Hget).
  rewrite Hget. eexists. split; [reflexivity|].
  assert (Hsz : is_size_t nIdx) by (zsizes; lia).
  destruct (getPacket_inv load load_ok nIdx sched _ m p' Hinv Hsz Hget)
    as (Hinv' & Hm & Hlast & _).
  unfold channel_ok. cbn [m_oPrecacher m_oLast m_oCurr].
  split; [exact Hinv'|]. split; [exact Hl|]. split; [exact Hc|].
  right. cbn [m_oNext m_oPrecacher]. split; [exact Hm|]. split; [exact Hlast|lia].
Qed.

Lemma shift_ok ch nLast nCurr nHeld :
  channel_ok load ch nLast nCurr nHeld ->
  channel_ok load (shift ch) nCurr nHeld nHeld.
Proof using Type.
  intros (Hinv & Hl & Hc & Hh). unfold channel_ok, shift.
  cbn [m_oPrecacher m_oLast m_oCurr].
  split; [exact Hinv|]. split; [exact Hc|].
  split; [now apply holds_bytes|exact Hh].
Qed.

Lemma idle_ok ch nLast nCurr nHeld sched :
  channel_ok load ch nLast nCurr nHeld ->
  channel_ok load
    {| m_oLast := m_oLast ch; m_oCurr := m_oCurr ch; m_oNext := m_oNext ch;
       m_oPrecacher := worker_run load sched (m_oPrecacher ch) |}
    nLast nCurr nHeld.
Proof using load_ok.
  intros (Hinv & Hl & Hc & Hh).
  destruct (worker_run_idle load load_ok sched _ Hinv)
    as (Hinv' & Hpkt & Hidx & _).
  unfold channel_ok. cbn [m_oPrecacher m_oLast m_oCurr].
  split; [exact Hinv'|]. split; [exact Hl|]. split; [exact Hc|].
  destruct Hh as [Hd | (Hm & Hi & Hmax)]; [left; exact Hd|].
  right. cbn [m_oNext m_oPrecacher]. rewrite Hpkt, Hidx. auto.
Qed.

Lemma fetch_first_ok ch nCurr nNext sched1 sched2 :
  state_inv load (m_oPrecacher ch) ->
  0 <= nCurr < SIZE_MAX -> 0 <= nNext < SIZE_MAX ->
  load nCurr <> [] ->
  existsb is_notified sched1 = true -> existsb is_notified sched2 = true ->
  exists ch',
    fetch_first load nCurr nNext sched1 sched2 ch = Done ch' /\
    channel_ok load ch' nCurr nCurr nNext.
Proof using load_ok.
  intros Hinv Hc Hn Hne Hs1 Hs2. unfold fetch_first.
  destruct (getPacket_returns load nCurr sched1 (m_oPrecacher ch)
              (or_intror Hs1)) as (m1 & p1 & Hget1).
  rewrite Hget1.
  destruct (getPacket_inv load load_ok nCurr sched1 _ m1 p1 Hinv
              ltac:(zsizes; lia) Hget1) as (Hinv1 & _ & _ & Hb1).
  destruct (getPacket_returns load nNext sched2 p1 (or_intror Hs2))
    as (m2 & p2 & Hget2).
  rewrite Hget2.
  destruct (getPacket_inv load load_ok nNext sched2 _ m2 p2 Hinv1
              ltac:(zsizes; lia) Hget2) as (Hinv2 & _ & _ & Hb2).
  rewrite Hb1 by lia.
  destruct (Z.eqb_spec (packet_size (load nCurr)) 0) as [E|E].
  { exfalso. apply Hne. unfold packet_size in E.
    destruct (load nCurr); [reflexivity|simpl in E; lia]. }
  eexists. split; [reflexivity|].
  unfold channel_ok. cbn [m_oPrecacher m_oLast m_oCurr].
  split; [exact Hinv2|]. split; [reflexivity|]. split; [reflexivity|].
  left. eexists. split; [reflexivity|]. apply Hb2. lia.
Qed.

(** [pre_apply_gl] on one channel *)
Lemma pre_channel_ok ch nLast nCurr nHeld nNext tot nIdx sched (b : bool) :
  channel_ok load ch nLast nCurr nHeld ->
  nHeld = nNext \/ (tot <= nNext /\ nHeld = nCurr) ->
  0 <= nIdx < tot -> tot <= SIZE_MAX ->
  existsb is_notified sched = true ->
  (b = true -> nIdx <> nNext) ->
  exists ch',
    (if b then fetch_next load nIdx sched ch else Done ch) = Done ch' /\
    (b = true \/ nIdx = nNext -> channel_ok load ch' nLast nCurr nIdx) /\
    (b = false -> ch' = ch).
Proof using load_ok.
  intros Hok Hheld Hidx Htot Hsched Hb.
  destruct b.
  - destruct (fetch_next_ok ch nLast nCurr nHeld nIdx sched Hok ltac:(lia) Hsched)
      as (ch' & Hf & Hok').
    exists ch'. split; [exact Hf|]. split; [auto|discriminate].
  - exists ch. split; [reflexivity|]. split; [|reflexivity].
    intros [Hd|E]; [discriminate|].
    assert (nHeld = nIdx) as <- by lia. exact Hok.
Qed.

(** [post_apply_gl] on one channel *)
Lemma post_channel_ok ch nLast nCurr tot nIdx sched :
  channel_ok load ch nLast nCurr nIdx ->
  0 <= nIdx < tot -> tot <= SIZE_MAX ->
  existsb is_notified sched = true ->
  exists ch',
    (if wrap (nIdx + 1) <? tot
     then fetch_next load (wrap (nIdx + 1)) sched (shift ch)
     else Done (shift ch)) = Done ch' /\
    channel_ok load ch' nCurr nIdx
      (if wrap (nIdx + 1) <? tot then wrap (nIdx + 1) else nIdx).
Proof using load_ok.
  intros Hok Hidx Htot Hsched.
  pose proof (shift_ok ch nLast nCurr nIdx Hok) as Hshift.
  assert (Hw : wrap (nIdx + 1) = nIdx + 1) by (apply wrap_small; zsizes; lia).
  rewrite Hw.
  destruct (Z.ltb_spec (nIdx + 1) tot).
  - destruct (fetch_next_ok (shift ch) nCurr nIdx nIdx (nIdx + 1) sched Hshift
                ltac:(lia) Hsched) as (ch' & Hf & Hok').
    exists ch'. auto.
  - exists (shift ch). split; [reflexivity|exact Hshift].
Qed.

End Channel.

Section Consumer.

Variable getTotPackets : Z.
Variables load_input load_gt : Z -> Packet.
Variables isUsingEvaluator bDisplayHelper : bool.
Hypothesis input_ok : loader_ok load_input.
Hypothesis gt_ok : loader_ok load_gt.
Hypothesis tot_ok : getTotPackets <= SIZE_MAX.

Lemma notifying_all sched : notifying sched = true ->
  existsb is_notified (first_input sched) = true /\
  existsb is_notified (first_gt sched) = true /\
  existsb is_notified (second_input sched) = true /\
  existsb is_notified (second_gt sched) = true.
Proof using Type.
  unfold notifying. rewrite !andb_true_iff. tauto.
Qed.

Lemma idle_consumer_ok schedInput schedGT c :
  consumer_ok getTotPackets load_input load_gt isUsingEvaluator c ->
  consumer_ok getTotPackets load_input load_gt isUsingEvaluator
    (idle load_input load_gt schedInput schedGT c).
Proof using input_ok gt_ok.
  intros (Hcurr & nHeld & Hheld & Hin & Hgt).
  unfold consumer_ok, idle.
  cbn [m_nCurrIdx m_nNextIdx m_nLastIdx input gt].
  split; [exact Hcurr|]. exists nHeld. split; [exact Hheld|].
  split; [now apply idle_ok|].
  destruct isUsingEvaluator; [now apply idle_ok|exact Hgt].
Qed.

(** One call of [apply_gl] with the data callback set: the algorithm is
    given the packet of the index that is passed, the callback the packet
    of the index passed the time before. *)
Lemma apply_gl_ok nIdx sched c :
  consumer_ok getTotPackets load_input load_gt isUsingEvaluator c ->
  0 <= nIdx < getTotPackets -> notifying sched = true ->
  exists c',
    apply_gl getTotPackets load_input load_gt isUsingEvaluator bDisplayHelper
      true nIdx sched c = Done c' /\
    consumer_ok getTotPackets load_input load_gt isUsingEvaluator c' /\
    m_nCurrIdx c' = nIdx /\
    applied c' = applied c ++ [(nIdx, load_input nIdx)] /\
    called_back c'
    = called_back c
      ++ [(load_input (m_nCurrIdx c),
           if isUsingEvaluator then load_gt (m_nCurrIdx c) else [],
           m_nCurrIdx c)].
Proof using input_ok gt_ok tot_ok.
  intros (Hcurr & nHeld & Hheld & Hin & Hgt) Hidx Hsched.
  destruct (notifying_all sched Hsched) as (Hs1 & Hs2 & Hs3 & Hs4).
  unfold apply_gl, pre_apply_gl.
  (* the input channel before the algorithm *)
  destruct (pre_channel_ok load_input input_ok (input c) _ _ nHeld
              (m_nNextIdx c) getTotPackets nIdx (first_input sched)
              (negb (nIdx =? m_nNextIdx c)) Hin Hheld Hidx tot_ok Hs1)
    as (chI & HfI & HokI & _).
  { intros Hb. apply negb_true_iff, Z.eqb_neq in Hb. exact Hb. }
  rewrite HfI. cbn [bind].
  assert (HokI' : channel_ok load_input chI (m_nLastIdx c) (m_nCurrIdx c) nIdx).
  { apply HokI. destruct (Z.eqb_spec nIdx (m_nNextIdx c)); [now right|now left]. }
  clear HokI.
  destruct isUsingEvaluator.
  - (* with ground truth *)
    cbn [andb].
    destruct (pre_channel_ok load_gt gt_ok (gt c) _ _ nHeld
                (m_nNextIdx c) getTotPackets nIdx (first_gt sched)
                (negb (nIdx =? m_nNextIdx c)) Hgt Hheld Hidx tot_ok Hs2)
      as (chG & HfG & HokG & _).
    { intros Hb. apply negb_true_iff, Z.eqb_neq in Hb. exact Hb. }
    rewrite HfG. cbn [bind].
    assert (HokG' : channel_ok load_gt chG (m_nLastIdx c) (m_nCurrIdx c) nIdx).
    { apply HokG. destruct (Z.eqb_spec nIdx (m_nNextIdx c)); [now right|now left]. }
    clear HokG.
    unfold post_apply_gl.
    cbn [m_nCurrIdx m_nLastIdx m_nNextIdx input gt applied called_back].
    rewrite orb_true_r. cbn [andb].
    destruct (post_channel_ok load_input input_ok chI _ _ getTotPackets nIdx
                (second_input sched) HokI' Hidx tot_ok Hs3)
      as (chI' & HpI & HokI2).
    rewrite HpI. cbn [bind].
    rewrite andb_true_r.
    destruct (post_channel_ok load_gt gt_ok chG _ _ getTotPackets nIdx
                (second_gt sched) HokG' Hidx tot_ok Hs4)
      as (chG' & HpG & HokG2).
    rewrite HpG. cbn [bind].
    eexists. split; [reflexivity|].
    cbn [m_nCurrIdx m_nLastIdx m_nNextIdx input gt applied called_back].
    split.
    { unfold consumer_ok.
      cbn [m_nCurrIdx m_nLastIdx m_nNextIdx input gt].
      split; [exact Hidx|].
      exists (if wrap (nIdx + 1) <? getTotPackets then wrap (nIdx + 1) else nIdx).
      split; [|auto].
      destruct (Z.ltb_spec (wrap (nIdx + 1)) getTotPackets); [now left|now right]. }
    split; [reflexivity|]. split.
    { rewrite (holds_bytes load_input chI nIdx);
        [reflexivity|apply HokI'|apply HokI']. }
    destruct HokI2 as (_ & HlI & _). destruct HokG2 as (_ & HlG & _).
    now rewrite HlI, HlG.
  - (* without ground truth *)
    cbn [andb bind].
    unfold post_apply_gl.
    cbn [m_nCurrIdx m_nLastIdx m_nNextIdx input gt applied called_back].
    rewrite orb_true_r, !andb_false_r.
    destruct (post_channel_ok load_input input_ok chI _ _ getTotPackets nIdx
                (second_input sched) HokI' Hidx tot_ok Hs3)
      as (chI' & HpI & HokI2).
    rewrite HpI. cbn [bind].
    eexists. split; [reflexivity|].
    cbn [m_nCurrIdx m_nLastIdx m_nNextIdx input gt applied called_back].
    split.
    { unfold consumer_ok.
      cbn [m_nCurrIdx m_nLastIdx m_nNextIdx input gt].
      split; [exact Hidx|].
      exists (if wrap (nIdx + 1) <? getTotPackets then wrap (nIdx + 1) else nIdx).
      split; [|auto].
      destruct (Z.ltb_spec (wrap (nIdx + 1)) getTotPackets); [now left|now right]. }
    split; [reflexivity|]. split.
    { rewrite (holds_bytes load_input chI nIdx);
        [reflexivity|apply HokI'|apply HokI']. }
    destruct HokI2 as (_ & HlI & _).
    now rewrite HlI, Hgt.
Qed.

Lemma apply_all_ok steps : forall c,
  consumer_ok getTotPackets load_input load_gt isUsingEvaluator c ->
  Forall (fun step => 0 <= step_index step < getTotPackets /\
                      notifying (step_schedules step) = true) steps ->
  exists c',
    apply_all getTotPackets load_input load_gt isUsingEvaluator bDisplayHelper
      true steps c = Done c' /\
    applied c'
    = applied c ++ map (fun k => (k, load_input k)) (map step_index steps) /\
    called_back c'
    = called_back c
      ++ map (fun k => (load_input k,
                        if isUsingEvaluator then load_gt k else [], k))
           (removelast (m_nCurrIdx c :: map step_index steps)).
Proof using input_ok gt_ok tot_ok.
  induction steps as [|[[[k sI] sG] sched] steps IH]; intros c Hok Hsteps.
  - exists c. simpl. now rewrite !app_nil_r.
  - apply Forall_cons in Hsteps as [[Hk Hsched] Hsteps].
    cbn [step_index step_schedules fst snd] in Hk, Hsched.
    cbn [apply_all].
    destruct (apply_gl_ok k sched (idle load_input load_gt sI sG c)
                (idle_consumer_ok sI sG c Hok) Hk Hsched)
      as (c1 & Happly & Hok1 & Hcurr1 & Happ1 & Hcb1).
    rewrite Happly. cbn [bind].
    destruct (IH c1 Hok1 Hsteps) as (c' & Hall & Happ & Hcb).
    exists c'. split; [exact Hall|].
    rewrite Happ, Hcb, Happ1, Hcb1, Hcurr1.
    cbn [idle applied called_back m_nCurrIdx map step_index fst].
    rewrite <- !app_assoc. split; [reflexivity|].
    reflexivity.
Qed.

End Consumer.

Lemma precacher_started_reachable :
  reachable Examples.load4 Examples.precacher_started.
Proof.
  apply (reach_start Examples.load4 (DataPrecacher) 16 5);
    [apply reach_new|reflexivity|reflexivity].
Qed.

Lemma load0_ok : loader_ok Examples.load0.
Proof. intros i. unfold Examples.load0, packet_size. simpl. lia. Qed.



End ConsumerFacts.
